(** * Hop labelling, decoration and path stitching of [full_path_mapper.py]

    A shallow embedding of [pymatgen_diffusion/neb/full_path_mapper.py]:
    the grouping of unsortable objects ([generic_groupby]), the in-place
    decoration of the edges of the migration graph
    ([add_data_to_similar_edges], [assign_cost_to_graph]), the
    reconstruction of a periodic path ([get_intercollating_path]), the
    re-ordering of a path ([modify_path]) and the two guards of the
    constructors and of the charge analysis; then the sequence of sites
    of a list of hops ([get_hop_site_sequence]), the comparison of a hop
    of the supercell with the hops of the unit cell ([almost],
    [check_uc_hop], [map_hop_sc2uc]), the choice of the path of least
    charge ([get_least_chg_path]), the summary for the database
    ([get_summary_dict]) and the grids of the charge analysis
    ([_shift_grid], [_setup_grids]). *)

From Stdlib Require Import ZArith QArith Qabs Lia Lqa.
From stdpp Require Import base option list gmap strings.

Open Scope Z_scope.

(** * Exceptions and outcomes *)

(** The exception classes the module raises or lets through. *)
Inductive exn :=
| KeyError
| IndexError
| TypeError
| ValueError
| AttributeError
| AssertionError
| RuntimeError
| NotImplementedError
| UnboundLocalError
| Warning.

(** The outcome of a call that returns a value or raises. *)
Inductive result (A : Type) :=
| Ok (a : A)
| Raise (e : exn).
Arguments Ok {A} a.
Arguments Raise {A} e.

#[global] Instance result_ret : MRet result := fun A a => Ok a.
#[global] Instance result_bind : MBind result := fun A B f r =>
  match r with
  | Ok a => f a
  | Raise e => Raise e
  end.

(** * [generic_groupby] *)

Module Groupby.
Section generic_groupby.
Context {A : Type}.
Variable comp : A -> A -> bool.
Variable list_in : list A.

(** The loop state: [list_out] (with [None] for a slot not labelled yet)
    and [label_num]. *)
Definition gstate : Type := list (option Z) * Z.

(** One turn of the inner loop, at index [i2] of the scan started at [i1]:
<<
    if comp(list_in[i1], list_in[i2]):
        if list_out[i2] is None:
            list_out[i2] = list_out[i1]
        else:
            list_out[i1] = list_out[i2]
            label_num -= 1
>>
    Both indices come from an enumeration of [list_out], which has the
    length of [list_in], so every lookup succeeds; the arms for a failed
    lookup leave the state as it is. *)
Definition inner_step (i1 : nat) (st : gstate) (i2 : nat) : gstate :=
  let '(list_out, label_num) := st in
  match list_in !! i1, list_in !! i2 with
  | Some a, Some b =>
      if comp a b then
        match list_out !! i2, list_out !! i1 with
        | Some None, Some l1 => (<[i2 := l1]> list_out, label_num)
        | Some (Some l2), _ => (<[i1 := Some l2]> list_out, label_num - 1)
        | _, _ => st
        end
      else st
  | _, _ => st
  end.

(** One turn of the outer loop, at index [i1]: a slot already labelled is
    skipped ([continue]); otherwise it takes [label_num], the indices after
    it are scanned and [label_num] is incremented. *)
Definition outer_step (st : gstate) (i1 : nat) : gstate :=
  let '(list_out, label_num) := st in
  match list_out !! i1 with
  | Some None =>
      let n := length list_out in
      let '(list_out', label_num') :=
        foldl (inner_step i1) (<[i1 := Some label_num]> list_out, label_num)
              (seq (S i1) (n - S i1)) in
      (list_out', label_num' + 1)
  | _ => st
  end.

Definition generic_groupby : list (option Z) :=
  let n := length list_in in
  fst (foldl outer_step (replicate n None, 0) (seq 0 n)).

(** Two indices of [list_in] are linked when [comp] holds between their
    items. *)
Definition linked (i j : nat) : Prop :=
  exists a b, list_in !! i = Some a /\ list_in !! j = Some b /\ comp a b = true.

(** A slot of [list_out] holds a label. *)
Definition labelled (out : list (option Z)) (j : nat) : Prop :=
  exists l, out !! j = Some (Some l).

(** The invariant of the outer loop when it reaches the index [k]: the
    slots before [k] are labelled, the labels are below [label_num], two
    labelled slots have one label exactly when they are linked, every slot
    linked to a slot before [k] is labelled, and every labelled slot is
    linked to a slot before [k]. *)
Record Inv (k : nat) (st : gstate) : Prop := {
  inv_len : length st.1 = length list_in;
  inv_nonneg : 0 <= st.2;
  inv_bound : forall j l, st.1 !! j = Some (Some l) -> 0 <= l < st.2;
  inv_done : forall i, (i < k)%nat -> (i < length list_in)%nat -> labelled st.1 i;
  inv_class : forall i j li lj,
    st.1 !! i = Some (Some li) -> st.1 !! j = Some (Some lj) ->
    (li = lj <-> linked i j);
  inv_closed : forall i j, (i < k)%nat -> linked i j -> labelled st.1 j;
  inv_leader : forall j, labelled st.1 j -> exists i, (i < k)%nat /\ linked i j
}.

(** The state of the scan started at [k] when it reaches [m]. *)
Record Scan (k : nat) (out0 : list (option Z)) (num : Z) (m : nat)
    (st : gstate) : Prop := {
  scan_num : st.2 = num;
  scan_len : length st.1 = length list_in;
  scan_self : st.1 !! k = Some (Some num);
  scan_hit : forall j, (k < j < m)%nat -> linked k j -> st.1 !! j = Some (Some num);
  scan_miss : forall j, j <> k -> ~ ((k < j < m)%nat /\ linked k j) ->
                st.1 !! j = out0 !! j
}.

End generic_groupby.
End Groupby.

(** The invariant of the outer loop of [generic_groupby] that orders the
    labels, when the loop reaches the index [k]: [label_num] is at most
    [k], every label below [label_num] is carried by a slot before [k],
    and a slot with a label [l > 0] comes after a slot with the label
    [l - 1]. *)
Definition first_appearance (k : nat) (st : Groupby.gstate) : Prop :=
  st.2 <= Z.of_nat k /\
  (forall l, 0 <= l < st.2 -> exists i, (i < k)%nat /\ st.1 !! i = Some (Some l)) /\
  (forall j l, st.1 !! j = Some (Some l) ->
     l = 0 \/ exists j', (j' < j)%nat /\ st.1 !! j' = Some (Some (l - 1))).


(** * Python values and dictionaries *)

(** A site of the structure: its species and its fractional coordinates. *)
Record PeriodicSite := mkSite {
  species : string;
  frac_coords : list Q
}.

(** The symmetrized structure a hop refers to.  Its symmetry operations
    live in an external library; the model keeps a handle and asks the
    service through [are_symmetrically_equivalent] below. *)
Inductive SymmetrizedStructure := SymmHandle (id : nat).

(** [pathfinder.MigrationPath]: the attributes this module reads. *)
Record MigrationPath := mkHop {
  isite : PeriodicSite;
  esite : PeriodicSite;
  symm_structure : SymmetrizedStructure;
  hop_length : Q
}.

(** The values an edge attribute takes. *)
Inductive value :=
| VNone
| VInt (n : Z)                (* int *)
| VFloat (x : Q)              (* float *)
| VStr (s : string)           (* str *)
| VTuple (t : list Z)         (* tuple of ints, such as to_jimage *)
| VList (l : list Q)          (* list *)
| VNdarray (a : list Q)       (* numpy.ndarray *)
| VNpFloat (x : Q)            (* numpy scalar, a numpy.generic *)
| VNpInt (n : Z)              (* numpy.int64, a numpy.generic *)
| VHop (h : MigrationPath).   (* a MigrationPath *)

(** The attribute dictionary of an edge. *)
Abbreviation dict := (gmap string value).

(** A dictionary passed as an argument, in insertion order: the order in
    which [data.keys()] yields its (pairwise distinct) keys. *)
Abbreviation pydict := (list (string * value)).

(** [d.update(data)] *)
Definition dict_update (d : dict) (data : pydict) : dict :=
  foldl (fun acc kv => <[kv.1 := kv.2]> acc) d data.

(** [d[k]] *)
Definition getitem (d : dict) (k : string) : result value :=
  match d !! k with
  | Some v => Ok v
  | None => Raise KeyError
  end.

(** The number a numeric value stands for. *)
Definition num_of (v : value) : option Q :=
  match v with
  | VInt n => Some (inject_Z n)
  | VFloat x => Some x
  | VNpFloat x => Some x
  | VNpInt n => Some (inject_Z n)
  | _ => None
  end.

(** [a == b] on the values used as hop labels and dictionary keys:
    numbers compare by value whatever their type, strings and tuples with
    their like, and values of different kinds are unequal. *)
Definition py_eq (a b : value) : bool :=
  match num_of a, num_of b with
  | Some x, Some y => Qeq_bool x y
  | None, None =>
      match a, b with
      | VNone, VNone => true
      | VStr s, VStr t => bool_decide (s = t)
      | VTuple s, VTuple t => bool_decide (s = t)
      | _, _ => false
      end
  | _, _ => false
  end.

(** [x > y] on numbers. *)
Definition Qgt_bool (x y : Q) : bool := negb (Qle_bool x y).

(** [isinstance(v, (np.ndarray, np.generic))] *)
Definition is_numpy (v : value) : bool :=
  match v with
  | VNdarray _ | VNpFloat _ | VNpInt _ => true
  | _ => false
  end.

(** [isinstance(v, list)] *)
Definition is_list (v : value) : bool :=
  match v with
  | VList _ => true
  | _ => false
  end.

(** * The migration graph *)

(** An edge [(u, v, key)] of the multigraph with its attribute dictionary. *)
Record edge := mkEdge {
  e_u : nat;
  e_v : nat;
  e_key : nat;
  e_data : dict
}.

Definition set_data (e : edge) (d : dict) : edge :=
  mkEdge (e_u e) (e_v e) (e_key e) d.

(** [s_graph.graph]: the nodes and the edges, each in iteration order. *)
Record graph := mkGraph {
  nodes : list nat;
  edges : list edge
}.

(** The long-lived state of a [FullPathMapper].  A value of [unique_hops]
    is the attribute dictionary of an edge of the graph itself, not a copy:
    the model keeps the position of that edge in [edges], and reads the
    dictionary through it. *)
Record FullPathMapper := mkMapper {
  name : option string;
  s_graph : graph;
  unique_hops : list (value * nat)
}.

Abbreviation edges_of self := (edges (s_graph self)).

Definition set_edges (self : FullPathMapper) (es : list edge) : FullPathMapper :=
  mkMapper (name self) (mkGraph (nodes (s_graph self)) es) (unique_hops self).

(** * Decoration of the edges *)

Section decoration.

(** [spacegroup.are_symmetrically_equivalent(sites1, sites2)] of the
    symmetrized structure of a hop: an external service. *)
Variable are_symmetrically_equivalent :
  SymmetrizedStructure -> list PeriodicSite -> list PeriodicSite -> bool.

(** [d[k] = d[k][::-1]], for a key whose value is a list. *)
Definition flip_key (d : dict) (k : string) : dict :=
  match d !! k with
  | Some (VList l) => <[k := VList (reverse l)]> d
  | _ => d
  end.

(** The loop over [data.keys()] that flips the data of one edge:
<<
    for k in data.keys():
        if isinstance(data[k], (np.ndarray, np.generic)):
            raise Warning(...)
        if not isinstance(data[k], list):
            continue
        d[k] = d[k][::-1]
>>
    The dictionary is mutated in place, so what was flipped before the
    exception stays flipped. *)
Fixpoint flip_data (data : pydict) (d : dict) : dict * option exn :=
  match data with
  | [] => (d, None)
  | (k, v) :: rest =>
      if is_numpy v then (d, Some Warning)
      else if negb (is_list v) then flip_data rest d
      else flip_data rest (flip_key d k)
  end.

(** The body of the loop of [add_data_to_similar_edges] for one edge
    [(u, v, d)]; the edge comes back as the call leaves it, with the
    exception that ended the call if there is one. *)
Definition decorate_edge (target_label : value) (data : pydict)
    (m_path : option MigrationPath) (e : edge) : edge * option exn :=
  match e_data e !! "hop_label" with
  | None => (e, Some KeyError)
  | Some lab =>
      if py_eq lab target_label then
        let d := dict_update (e_data e) data in
        match m_path with
        | None => (set_data e d, None)
        | Some m =>
            match d !! "hop" with
            | None => (set_data e d, Some KeyError)
            | Some (VHop h) =>
                if negb (are_symmetrically_equivalent
                           (symm_structure m) [isite m] [isite h])
                then let '(d', err) := flip_data data d in (set_data e d', err)
                else (set_data e d, None)
            | Some _ => (set_data e d, Some AttributeError)
            end
        end
      else (e, None)
  end.

(** The loop over [self.s_graph.graph.edges(data=True)]: it stops at the
    first exception, the edges after it untouched. *)
Fixpoint decorate_edges (target_label : value) (data : pydict)
    (m_path : option MigrationPath) (es : list edge) : list edge * option exn :=
  match es with
  | [] => ([], None)
  | e :: rest =>
      match decorate_edge target_label data m_path e with
      | (e', Some err) => (e' :: rest, Some err)
      | (e', None) =>
          let '(rest', err) := decorate_edges target_label data m_path rest in
          (e' :: rest', err)
      end
  end.

(** [add_data_to_similar_edges(target_label, data, m_path)]: the object
    after the call and the exception raised, if any. *)
Definition add_data_to_similar_edges (self : FullPathMapper)
    (target_label : value) (data : pydict) (m_path : option MigrationPath)
    : FullPathMapper * option exn :=
  let '(es, err) :=
    decorate_edges target_label data m_path (edges (s_graph self)) in
  (set_edges self es, err).

(** An edge carries the label [target_label]. *)
Definition has_label (e : edge) (target_label : value) : Prop :=
  exists lab, e_data e !! "hop_label" = Some lab /\ py_eq lab target_label = true.

(** The orientation of the hop of an edge dictionary disagrees with the
    reference [m_path]: their initial sites are not symmetrically
    equivalent. *)
Definition disagrees (m_path : option MigrationPath) (d : dict) : bool :=
  match m_path, d !! "hop" with
  | Some m, Some (VHop h) =>
      negb (are_symmetrically_equivalent (symm_structure m) [isite m] [isite h])
  | _, _ => false
  end.

(** [v[::-1]] for a list, any other value as it is. *)
Definition flipped (v : value) : value :=
  match v with
  | VList l => VList (reverse l)
  | _ => v
  end.

(** [d["hop_label"] == target_label], for an edge that has a label. *)
Definition label_matches (e : edge) (target_label : value) : bool :=
  match e_data e !! "hop_label" with
  | Some lab => py_eq lab target_label
  | None => false
  end.

(** The product of a list of numbers, folded from its first element as
    [numpy.multiply.reduce] does; the empty product is one. *)
Definition prod_list (xs : list Q) : Q :=
  match xs with
  | [] => 1%Q
  | x :: rest => foldl Qmult x rest
  end.

(** An int fits in [numpy.int64], and the [int64] an integer wraps
    around to. *)
Definition fits_int64 (n : Z) : bool := (- 2 ^ 63 <=? n) && (n <? 2 ^ 63).

Definition wrap_int64 (n : Z) : Z := (n + 2 ^ 63) mod 2 ^ 64 - 2 ^ 63.

(** An item of the array [np.array(vals)] of a list of numbers: an int
    that fits in 64 bits, or a float. *)
Inductive np_number :=
| NpInt (n : Z)
| NpFloat (x : Q).

Definition np_number_of (v : value) : option np_number :=
  match v with
  | VInt n | VNpInt n => if fits_int64 n then Some (NpInt n) else None
  | VFloat x | VNpFloat x => Some (NpFloat x)
  | _ => None
  end.

Definition int_of (x : np_number) : option Z :=
  match x with
  | NpInt n => Some n
  | NpFloat _ => None
  end.

Definition float_of (x : np_number) : Q :=
  match x with
  | NpInt n => inject_Z n
  | NpFloat x => x
  end.

(** [np.prod(vals)] for a list of numbers, where a C long has 64 bits.
    The array [np.array(vals)] has the dtype [int64] when every value is
    an int, and its product is computed in [int64]: it wraps around.
    The array has the dtype [float64] when a value is a float, and for
    the empty list, whose product is [1.0].  The result is a numpy
    scalar.  An int that does not fit in 64 bits (numpy then takes
    another dtype) and a value that is not a number are outside the
    model and reported as [TypeError]. *)
Definition np_prod (vals : list value) : result value :=
  match mapM np_number_of vals with
  | None => Raise TypeError
  | Some xs =>
      match mapM int_of xs with
      | Some (n :: ns) =>
          Ok (VNpInt (foldl (fun a b => wrap_int64 (a * b)) n ns))
      | _ => Ok (VNpFloat (prod_list (float_of <$> xs)))
      end
  end.

(** [[v[ik] for ik in cost_keys]] *)
Fixpoint getitems (d : dict) (ks : list string) : result (list value) :=
  match ks with
  | [] => Ok []
  | k :: rest =>
      v ← getitem d k;
      vs ← getitems d rest;
      Ok (v :: vs)
  end.

(** The dictionary a value of [unique_hops] refers to. *)
Definition hop_dict (es : list edge) (ref : nat) : dict :=
  match es !! ref with
  | Some e => e_data e
  | None => ∅
  end.

(** [assign_cost_to_graph(cost_keys)]:
<<
    for k, v in self.unique_hops.items():
        cost_val = np.prod([v[ik] for ik in cost_keys])
        self.add_data_to_similar_edges(k, {"cost": cost_val})
>>
    [v] is read from the graph as it is when its label comes up. *)
Fixpoint assign_cost_loop (cost_keys : list string)
    (items : list (value * nat)) (self : FullPathMapper)
    : FullPathMapper * option exn :=
  match items with
  | [] => (self, None)
  | (k, ref) :: rest =>
      let v := hop_dict (edges (s_graph self)) ref in
      match vals ← getitems v cost_keys; np_prod vals with
      | Raise err => (self, Some err)
      | Ok cost_val =>
          match add_data_to_similar_edges self k
                  [("cost"%string, cost_val)] None with
          | (self', Some err) => (self', Some err)
          | (self', None) => assign_cost_loop cost_keys rest self'
          end
      end
  end.

Definition assign_cost_to_graph (self : FullPathMapper)
    (cost_keys : list string) : FullPathMapper * option exn :=
  assign_cost_loop cost_keys (unique_hops self) self.

(** The float a value is, when it is one. *)
Definition float_value (v : value) : option Q :=
  match v with
  | VFloat x | VNpFloat x => Some x
  | _ => None
  end.

(** What [np.prod] computes from the floats an edge dictionary holds
    under [cost_keys], when it holds a float under each. *)
Definition cost_product (d : dict) (cost_keys : list string) : option Q :=
  xs ← mapM (fun ik => d !! ik ≫= float_value) cost_keys;
  Some (prod_list xs).



(** The keys of a dictionary are pairwise different. *)
Definition distinct_keys (items : list (value * nat)) : Prop :=
  forall i j ki kj ri rj,
    items !! i = Some (ki, ri) -> items !! j = Some (kj, rj) ->
    py_eq ki kj = true -> i = j.

(** The same, by induction on the list: no key is equal to a later one. *)
Inductive fresh_keys : list (value * nat) -> Prop :=
| fresh_nil : fresh_keys []
| fresh_cons k ref items :
    (forall k' r', (k', r') ∈ items -> py_eq k k' = false) ->
    fresh_keys items -> fresh_keys ((k, ref) :: items).

(** The invariant of [unique_hops] that [_populate_unique_hops_dict]
    sets up: the keys are pairwise different, and the edge that stands for
    a label carries that label. *)
Definition unique_hops_wf (self : FullPathMapper) : Prop :=
  distinct_keys (unique_hops self) /\
  (forall k ref, (k, ref) ∈ unique_hops self ->
     exists e, edges (s_graph self) !! ref = Some e /\ has_label e k).

(** Every key of [items] stands for an edge of [seen] that carries it. *)
Definition represented (seen : list (nat * edge)) (items : list (value * nat)) : Prop :=
  forall k ref, (k, ref) ∈ items -> exists e, (ref, e) ∈ seen /\ has_label e k.

(** Every edge of [seen] carries a key of [items]. *)
Definition covered (seen : list (nat * edge)) (items : list (value * nat)) : Prop :=
  forall ref e, (ref, e) ∈ seen -> exists k r, (k, r) ∈ items /\ has_label e k.

(** A label of the kinds [group_and_label_hops] gives: [None], a number,
    a string or a tuple. *)
Definition plain_label (v : value) : bool :=
  match v with
  | VList _ | VNdarray _ | VHop _ => false
  | _ => true
  end.

(** What the loop body does to one edge. *)
Record edge_effect (target_label : value) (data : pydict)
    (m_path : option MigrationPath) (e e' : edge) (err : option exn) : Prop := {
  eff_ends : (e_u e', e_v e', e_key e') = (e_u e, e_v e, e_key e);
  eff_other : ~ has_label e target_label -> e' = e;
  eff_keys : forall k, k ∉ data.*1 -> e_data e' !! k = e_data e !! k;
  eff_data : forall k v, has_label e target_label -> (k, v) ∈ data ->
    e_data e' !! k = Some v \/
    (is_list v = true /\ disagrees m_path (e_data e') = true /\
     e_data e' !! k = Some (flipped v));
  eff_done : forall k v, err = None -> has_label e target_label -> (k, v) ∈ data ->
    e_data e' !! k =
      Some (if disagrees m_path (e_data e') then flipped v else v)
}.

(** The edge after [d.update({"cost": c})] when it carries the label. *)
Definition set_cost (target_label c : value) (e : edge) : edge :=
  if label_matches e target_label
  then set_data e (<["cost" := c]> (e_data e)) else e.

(** How an edge of the graph stands to what it was before the call, once
    the labels of [done] have come up. *)
Record costed (cost_keys : list string) (self0 : FullPathMapper)
    (done : list (value * nat)) (e e' : edge) : Prop := {
  costed_ends : (e_u e', e_v e', e_key e') = (e_u e, e_v e, e_key e);
  costed_keys : forall key, key <> "cost"%string -> e_data e' !! key = e_data e !! key;
  costed_same : (forall k ref, (k, ref) ∈ done -> ~ has_label e k) -> e' = e;
  costed_cost : forall k ref, (k, ref) ∈ done -> has_label e k ->
    exists c, cost_product (hop_dict (edges (s_graph self0)) ref) cost_keys = Some c /\
              e_data e' !! "cost" = Some (VNpFloat c)
}.

End decoration.

(** * [get_intercollating_path] *)

(** An image of the cell, and a state of the periodic search: a node with
    the image it is reached in. *)
Definition jimage : Type := Z * Z * Z.
Definition pstate : Type := nat * jimage.

Definition jzero : jimage := (0, 0, 0).

(** [np.subtract(a, b)] and [-a] on images. *)
Definition jsub (a b : jimage) : jimage :=
  let '(a1, a2, a3) := a in
  let '(b1, b2, b3) := b in
  (a1 - b1, a2 - b2, a3 - b3).

Definition jneg (a : jimage) : jimage :=
  let '(a1, a2, a3) := a in (- a1, - a2, - a3).

(** [tuple(a)] *)
Definition jtuple (a : jimage) : list Z :=
  let '(a1, a2, a3) := a in [a1; a2; a3].

(** The [to_jimage] of an edge dictionary.  The graph builder stores it as
    a tuple of ints; any other value is outside the model and reported as
    [TypeError]. *)
Definition to_jimage (d : dict) : result (list Z) :=
  v ← getitem d "to_jimage";
  match v with
  | VTuple t => Ok t
  | _ => Raise TypeError
  end.

(** What [logger.error] receives: the two counts and the name. *)
Inductive log_record := LogError (n_sc n_uc : nat) (name : option string).

(** What a generator does when it is run to its end: the values it
    yields, in order, and the exception that ends it, if any; the calls to
    the logger on the way. *)
Record generated (A : Type) := mkGenerated {
  logged : list log_record;
  yielded : list A;
  raised : option exn
}.
Arguments mkGenerated {A} _ _ _.
Arguments logged {A} _.
Arguments yielded {A} _.
Arguments raised {A} _.

(** The diagnostic that opens [get_intercollating_path]:
<<
    if len(self.unique_hops) != len(self.unique_hops):
        logger.error(f"There are {len(self.unique_hops)} SC hops but "
                     f"{len(self.unique_hops)} UC hops in {self.name}")
>> *)
Definition hop_count_check (self : FullPathMapper) : list log_record :=
  if negb (length (unique_hops self) =? length (unique_hops self))%nat
  then [LogError (length (unique_hops self)) (length (unique_hops self))
                 (name self)]
  else [].

(** [tmp_d["cost"] > max_val]; a cost that is not a number is outside the
    model and reported as [TypeError]. *)
Definition cost_exceeds (d : dict) (max_val : Q) : result bool :=
  v ← getitem d "cost";
  match num_of v with
  | Some x => Ok (Qgt_bool x max_val)
  | None => Raise TypeError
  end.

(** The edges to cut, by their [(u, v, key)]. *)
Fixpoint cut_edges (es : list edge) (max_val : Q)
    : result (list (nat * nat * nat)) :=
  match es with
  | [] => Ok []
  | e :: rest =>
      b ← cost_exceeds (e_data e) max_val;
      cut ← cut_edges rest max_val;
      Ok (if (b : bool) then (e_u e, e_v e, e_key e) :: cut else cut)
  end.

(** [GG.remove_edge(u, v, key=k)] *)
Definition remove_edge (g : graph) (uvk : nat * nat * nat) : graph :=
  mkGraph (nodes g)
          (filter (fun e => (e_u e, e_v e, e_key e) ≠ uvk) (edges g)).

(** The copy [GG] of the graph once trimmed of the edges whose cost
    exceeds [max_val]. *)
Definition trimmed (g : graph) (max_val : Q) : result graph :=
  cut ← cut_edges (edges g) max_val;
  Ok (foldl remove_edge g cut).

(** [GG.get_edge_data(u, v, default={}).items()]: the edges from [u] to
    [v], by key. *)
Definition get_edge_data (g : graph) (u v : nat) : list (nat * dict) :=
  (fun e => (e_key e, e_data e)) <$>
  filter (fun e => e_u e = u ∧ e_v e = v) (edges g).

(** The scan of [all_edge_data]:
<<
    for k, tmp_d in all_edge_data:
        if tmp_d["to_jimage"] in {tuple(image_diff), tuple(-image_diff)}:
            path_hops.append(tmp_d)
            found_ += 1
>> *)
Fixpoint scan_edge_data (all_edge_data : list (nat * dict))
    (image_diff : jimage) (path_hops : list dict) (found_ : nat)
    : result (list dict * nat) :=
  match all_edge_data with
  | [] => Ok (path_hops, found_)
  | (k, tmp_d) :: rest =>
      t ← to_jimage tmp_d;
      if bool_decide (t = jtuple image_diff ∨ t = jtuple (jneg image_diff))
      then scan_edge_data rest image_diff (path_hops ++ [tmp_d]) (S found_)
      else scan_edge_data rest image_diff path_hops found_
  end.

(** The body of the reconstruction loop for one pair of consecutive
    states of the path. *)
Definition reconstruct_step (GG : graph) (path_hops : list dict)
    (s1 s2 : pstate) : result (list dict) :=
  let '(idx1, jimage1) := s1 in
  let '(idx2, jimage2) := s2 in
  let i1_ := Nat.min idx1 idx2 in
  let i2_ := Nat.max idx1 idx2 in
  let all_edge_data := get_edge_data GG i1_ i2_ in
  let image_diff := jsub jimage2 jimage1 in
  '(path_hops', found_) ← scan_edge_data all_edge_data image_diff path_hops 0;
  if bool_decide (found_ ≠ 1%nat) then Raise RuntimeError else Ok path_hops'.

(** The reconstruction loop over [zip(path[:-1], path[1:])]. *)
Fixpoint reconstruct_loop (GG : graph) (path_hops : list dict)
    (pairs : list (pstate * pstate)) : result (list dict) :=
  match pairs with
  | [] => Ok path_hops
  | (s1, s2) :: rest =>
      path_hops' ← reconstruct_step GG path_hops s1 s2;
      reconstruct_loop GG path_hops' rest
  end.

(** The pairs [zip(path[:-1], path[1:])]. *)
Definition consecutive (path : list pstate) : list (pstate * pstate) :=
  zip (removelast path) (tail path).

Definition reconstruct (GG : graph) (path : list pstate) : result (list dict) :=
  reconstruct_loop GG [] (consecutive path).

(** The image of an edge dictionary is [image_diff] or its opposite. *)
Definition image_matches (image_diff : jimage) (d : dict) : bool :=
  match d !! "to_jimage" with
  | Some (VTuple t) =>
      bool_decide (t = jtuple image_diff ∨ t = jtuple (jneg image_diff))
  | _ => false
  end.

(** The edges of the graph between the sorted pair of the nodes of two
    states. *)
Definition edges_between (GG : graph) (s1 s2 : pstate) : list dict :=
  snd <$> get_edge_data GG (Nat.min s1.1 s2.1) (Nat.max s1.1 s2.1).

(** Those whose image is plus or minus the difference of the images of
    the two states. *)
Definition matching_edges (GG : graph) (s1 s2 : pstate) : list dict :=
  filter (fun d => image_matches (jsub s2.2 s1.2) d = true)
         (edges_between GG s1 s2).

(** Every edge between the two nodes holds a tuple under ["to_jimage"],
    as the edges of a structure graph do. *)
Definition images_present (GG : graph) (s1 s2 : pstate) : Prop :=
  Forall (fun d => exists t, d !! "to_jimage" = Some (VTuple t))
         (edges_between GG s1 s2).

(** The count of the claim, written from its words and not with the
    operations of the loop.  The cost of an edge does not exceed
    [max_val]: the edge is in the pruned copy of the graph. *)
Definition cost_within (max_val : Q) (e : edge) : bool :=
  match e_data e !! "cost" with
  | Some v =>
      match num_of v with
      | Some x => Qle_bool x max_val
      | None => false
      end
  | None => false
  end.

Definition pruned_edges (self : FullPathMapper) (max_val : Q) : list edge :=
  filter (fun e => cost_within max_val e = true) (edges_of self).

(** [t] is plus or minus [jimage2 - jimage1], coordinate by
    coordinate. *)
Definition plus_or_minus_difference (jimage1 jimage2 : jimage) (t : list Z)
    : Prop :=
  let '(a1, b1, c1) := jimage1 in
  let '(a2, b2, c2) := jimage2 in
  t = [a2 - a1; b2 - b1; c2 - c1] \/
  t = [- (a2 - a1); - (b2 - b1); - (c2 - c1)].

(** An edge goes from the smaller to the larger of the nodes of two
    states and its [to_jimage] is plus or minus the difference of their
    images. *)
Definition joins_states (s1 s2 : pstate) (e : edge) : Prop :=
  e_u e = Nat.min s1.1 s2.1 /\ e_v e = Nat.max s1.1 s2.1 /\
  exists t, e_data e !! "to_jimage" = Some (VTuple t) /\
            plus_or_minus_difference s1.2 s2.2 t.

#[global] Instance plus_or_minus_difference_dec jimage1 jimage2 t :
  Decision (plus_or_minus_difference jimage1 jimage2 t).
Proof.
  destruct jimage1 as [[a1 b1] c1], jimage2 as [[a2 b2] c2]. simpl. apply _.
Defined.

#[global] Instance joins_states_dec s1 s2 e : Decision (joins_states s1 s2 e).
Proof.
  unfold Decision, joins_states.
  destruct (e_data e !! "to_jimage") as [v|] eqn:Hv.
  - destruct v as [| | | |t| | | | |];
      try (right; by intros (_ & _ & t' & [=] & _)).
    destruct (decide (e_u e = Nat.min s1.1 s2.1 /\ e_v e = Nat.max s1.1 s2.1 /\
                      plus_or_minus_difference s1.2 s2.2 t)) as [H|H].
    + left. destruct H as (? & ? & ?). eauto.
    + right. intros (? & ? & t' & [= <-] & ?). apply H. auto.
  - right. intros (_ & _ & t' & [=] & _).
Defined.

(** The edges among [es] that join two states. *)
Definition joining_edges (es : list edge) (s1 s2 : pstate) : list edge :=
  filter (joins_states s1 s2) es.

(** The multigraph holds one edge for each [(u, v, key)]. *)
Definition keyed (g : graph) : Prop :=
  NoDup ((fun e => (e_u e, e_v e, e_key e)) <$> edges g).

Section intercollating_path.

(** The periodic search of [periodic_dijkstra.py], which is not part of
    this module: [periodic_dijkstra(GG, sources={u}, weight="cost",
    max_image=1)] gives the best distance of each state it reaches and the
    map of their parents, and [get_optimal_pathway_rev] walks that map
    back from a state. *)
Variable parent_map : Type.
Variable parent_keys : parent_map -> list pstate.
Variable periodic_dijkstra : graph -> nat -> (pstate -> option Q) * parent_map.
Variable get_optimal_pathway_rev : parent_map -> pstate -> list pstate.

(** The paths that come back to [u] in another image:
<<
    for idx, jimage in path_parent.keys():
        if idx == u and jimage != (0, 0, 0):
            path = [*get_optimal_pathway_rev(path_parent, (idx, jimage))][::-1]
            assert path[-1][0] == u
            all_paths.append(path)
>> *)
Fixpoint collect_paths (u : nat) (path_parent : parent_map)
    (keys : list pstate) : result (list (list pstate)) :=
  match keys with
  | [] => Ok []
  | (idx, jimage) :: rest =>
      if bool_decide (idx = u) && negb (bool_decide (jimage = jzero)) then
        let path := reverse (get_optimal_pathway_rev path_parent (idx, jimage)) in
        match last path with
        | None => Raise IndexError
        | Some (i, _) =>
            if bool_decide (i = u)
            then all_paths ← collect_paths u path_parent rest;
                 Ok (path :: all_paths)
            else Raise AssertionError
        end
      else collect_paths u path_parent rest
  end.

(** The key of [min]: [best_ans[x[-1]]]. *)
Definition path_key (best_ans : pstate -> option Q) (x : list pstate)
    : result Q :=
  match last x with
  | None => Raise IndexError
  | Some s =>
      match best_ans s with
      | Some q => Ok q
      | None => Raise KeyError
      end
  end.

(** [min(all_paths, key=...)] below the current best [(kb, b)]: a later
    path replaces it only when its key is strictly smaller. *)
Fixpoint min_path (best_ans : pstate -> option Q) (kb : Q) (b : list pstate)
    (all_paths : list (list pstate)) : result (list pstate) :=
  match all_paths with
  | [] => Ok b
  | x :: rest =>
      kx ← path_key best_ans x;
      if Qgt_bool kb kx then min_path best_ans kx x rest
      else min_path best_ans kb b rest
  end.

(** The body of the loop over the nodes, for the node [u]: [None] when the
    loop continues without a yield. *)
Definition path_from_node (self : FullPathMapper) (max_val : Q) (u : nat)
    : result (option (nat * list dict)) :=
  GG ← trimmed (s_graph self) max_val;
  let '(best_ans, path_parent) := periodic_dijkstra GG u in
  all_paths ← collect_paths u path_parent (parent_keys path_parent);
  match all_paths with
  | [] => Ok None
  | x :: rest =>
      kx ← path_key best_ans x;
      path ← min_path best_ans kx x rest;
      path_hops ← reconstruct GG path;
      Ok (Some (u, path_hops))
  end.

(** The loop over [self.s_graph.graph.nodes()]. *)
Fixpoint paths_from_nodes (self : FullPathMapper) (max_val : Q)
    (us : list nat) : list (nat * list dict) * option exn :=
  match us with
  | [] => ([], None)
  | u :: rest =>
      match path_from_node self max_val u with
      | Raise err => ([], Some err)
      | Ok None => paths_from_nodes self max_val rest
      | Ok (Some y) =>
          let '(ys, err) := paths_from_nodes self max_val rest in
          (y :: ys, err)
      end
  end.

Definition get_intercollating_path (self : FullPathMapper) (max_val : Q)
    : generated (nat * list dict) :=
  let '(ys, err) := paths_from_nodes self max_val (nodes (s_graph self)) in
  mkGenerated (hop_count_check self) ys err.

End intercollating_path.

(** * [modify_path] *)

(** A hop of a path: the tuple [(u, v, info)]. *)
Definition hop : Type := nat * nat * dict.

(** [info["to_jimage"] != (0, 0, 0)] *)
Definition leaves_cell (info : dict) : result bool :=
  t ← to_jimage info;
  Ok (bool_decide (t ≠ [0; 0; 0])).

(** [set(one_hop[0:2])] *)
Definition endpoints (h : hop) : gset nat := {[ h.1.1; h.1.2 ]}.

(** [one_path[i]] *)
Definition item {A} (l : list A) (i : nat) : result A :=
  match l !! i with
  | Some x => Ok x
  | None => Raise IndexError
  end.

(** The hop [(i_point, e_point, new_info)] that reverses a hop:
<<
    new_info = copy.deepcopy(info)
    new_info["to_jimage"] = tuple([-u for u in info["to_jimage"]])
>> *)
Definition reversed_hop (h : hop) : result hop :=
  let '(u, v, info) := h in
  t ← to_jimage info;
  Ok (v, u, <["to_jimage" := VTuple (Z.opp <$> t)]> info).

(** The walk of the general case, from [previous_point]:
<<
    for one_hop_info in one_path:
        one_hop = one_hop_info[0:2]
        if one_hop[0] == previous_point:
            m_path.append(one_hop_info)
        if one_hop[1] == previous_point:
            ...
            m_path.append(new_hop)
        previous_point = m_path[-1][1]
>> *)
Fixpoint walk (previous_point : nat) (m_path : list hop)
    (one_path : list hop) : result (list hop) :=
  match one_path with
  | [] => Ok m_path
  | one_hop_info :: rest =>
      let m1 :=
        if bool_decide (one_hop_info.1.1 = previous_point)
        then m_path ++ [one_hop_info] else m_path in
      m2 ← (if bool_decide (one_hop_info.1.2 = previous_point)
            then new_hop ← reversed_hop one_hop_info; Ok (m1 ++ [new_hop])
            else Ok m1);
      match last (m2 : list hop) with
      | None => Raise IndexError
      | Some h => walk h.1.2 m2 rest
      end
  end.

(** A hop stays in the cell, or crosses its boundary. *)
Definition staysb (h : hop) : bool :=
  match h.2 !! "to_jimage" with
  | Some (VTuple t) => bool_decide (t = [0; 0; 0])
  | _ => false
  end.

Definition crossesb (h : hop) : bool :=
  match h.2 !! "to_jimage" with
  | Some (VTuple t) => bool_decide (t ≠ [0; 0; 0])
  | _ => false
  end.

Definition stays (h : hop) : Prop := staysb h = true.
Definition crosses (h : hop) : Prop := crossesb h = true.

(** The last hop of a path crosses the boundary of the cell and every
    hop before it stays in the cell. *)
Definition boundary_last (m_path : list hop) : Prop :=
  exists front h, m_path = front ++ [h] /\ Forall stays front /\ crosses h.

(** The only hop of a path that crosses the boundary is its first or its
    last hop. *)
Definition boundary_at_end (one_path : list hop) : Prop :=
  boundary_last one_path \/
  exists h rest, one_path = h :: rest /\ crosses h /\ Forall stays rest.

(** The path once its crossing hop is last: [one_path[::-1]] when the
    first hop crosses. *)
Definition normalized (one_path : list hop) : list hop :=
  match one_path with
  | h :: _ => if crossesb h then reverse one_path else one_path
  | [] => []
  end.

(** The hops chain from [start]: each one has exactly one end at the
    point the walk has reached, and the walk goes on from its other end. *)
Fixpoint chained (start : nat) (one_path : list hop) : Prop :=
  match one_path with
  | [] => True
  | h :: rest =>
      (h.1.1 = start /\ h.1.2 ≠ start /\ chained h.1.2 rest) \/
      (h.1.2 = start /\ h.1.1 ≠ start /\ chained h.1.1 rest)
  end.

(** A path is ordered from [start]: each hop leaves from the node the
    hop before it arrives at. *)
Fixpoint ordered (start : nat) (m_path : list hop) : Prop :=
  match m_path with
  | [] => True
  | h :: rest => h.1.1 = start /\ ordered h.1.2 rest
  end.

(** A hop and the hop the walk puts in its place are of one kind. *)
Definition same_kind (h h' : hop) : Prop :=
  staysb h' = staysb h /\ crossesb h' = crossesb h.

Section modify_path.

(** [list(s)] for a set of node indices: the order in which Python
    iterates over a set is not specified, so it is a parameter. *)
Variable set_order : gset nat -> list nat.

(** The body of the loop of [modify_path] for one path. *)
Definition modify_one (one_path : list hop) : result (list hop) :=
  first ← item one_path 0;
  out ← leaves_cell first.2;
  let one_path := if (out : bool) then reverse one_path else one_path in
  h0 ← item one_path 0;
  h1 ← item one_path 1;
  if bool_decide (endpoints h0 = endpoints h1) then
    if bool_decide (h0.1.1 = h1.1.1)
    then Ok [(h0.1.2, h0.1.1, h0.2); h1]
    else Ok []
  else
    hl ← item one_path (length one_path - 1);
    start ← item (set_order (endpoints h0 ∩ endpoints hl)) 0;
    walk start [] one_path.

(** The generator: one path yielded for each input path, until one of
    them raises. *)
Fixpoint modify_loop (paths : list (list hop))
    : list (list hop) * option exn :=
  match paths with
  | [] => ([], None)
  | one_path :: rest =>
      match modify_one one_path with
      | Raise err => ([], Some err)
      | Ok m_path =>
          let '(ys, err) := modify_loop rest in (m_path :: ys, err)
      end
  end.

Definition modify_path (paths : list (list hop)) : generated (list hop) :=
  let '(ys, err) := modify_loop paths in mkGenerated [] ys err.

(** The paths [modify_path] is written for, once normalized: two hops over
    the same pair of nodes that start at the same node, or a path whose
    first two hops do not share both nodes and whose hops chain from the
    node its first and last hops share. *)
Definition well_chained (q : list hop) : Prop :=
  (exists h0 h1, q = [h0; h1] /\ endpoints h0 = endpoints h1 /\
                 h0.1.1 = h1.1.1) \/
  (exists h0 h1 hl start,
     q !! 0%nat = Some h0 /\ q !! 1%nat = Some h1 /\ last q = Some hl /\
     endpoints h0 ≠ endpoints h1 /\
     set_order (endpoints h0 ∩ endpoints hl) !! 0%nat = Some start /\
     chained start q).

Definition canonical_input (one_path : list hop) : Prop :=
  boundary_at_end one_path /\ well_chained (normalized one_path).

End modify_path.

(** A path [modify_path] cannot walk: it has fewer than two hops, or,
    once its crossing hop is last, its first two hops do not share both
    nodes and its first and last hops share none. *)
Definition unwalkable (one_path : list hop) : Prop :=
  (length one_path < 2)%nat \/
  exists h0 h1 hl,
    normalized one_path !! 0%nat = Some h0 /\
    normalized one_path !! 1%nat = Some h1 /\
    last (normalized one_path) = Some hl /\
    endpoints h0 <> endpoints h1 /\
    endpoints h0 ∩ endpoints hl = ∅.


(** * [ComputedEntryPath._get_avg_chg_at_max] *)

(** The attribute of a [ComputedEntryPath] the routine reads, next to the
    charge density: [_tube_radius], [None] until
    [populate_edges_with_chg_density_info] sets it. *)
Record ComputedEntryPath := mkEntryPath {
  mapper : FullPathMapper;
  _tube_radius : value
}.

(** What the routine returns, by its two flags. *)
Inductive avg_chg_result :=
| MaxChg (m : Q)
| MaxChgAlong (m : Q) (avg_chg : list Q)
| MaxChgPositions (m : Q) (avg_chg : list Q) (centers : list (list Q)).

(** [max(avg_chg)] *)
Definition max_list (xs : list Q) : result Q :=
  match xs with
  | [] => Raise ValueError
  | x :: rest => Ok (foldl (fun m y => if Qgt_bool y m then y else m) x rest)
  end.

Section avg_chg.

(** The average charge in a sphere of radius [rr] around each image of the
    hop, with the centres of the spheres: the numerical work on the charge
    grid (the pathfinder, the distance matrix and the masks). *)
Variable sphere_averages :
  ComputedEntryPath -> MigrationPath -> Q -> list Q * list (list Q).

(** [_get_avg_chg_at_max(migration_path, radius, chg_along_path,
    output_positions)].  The local [rr] is bound by the one assignment
<<
    if radius is None:
        rr = self._tube_radius
>>
    and read right after it: [None] below stands for the unbound local. *)
Definition _get_avg_chg_at_max (self : ComputedEntryPath)
    (migration_path : MigrationPath) (radius : value)
    (chg_along_path output_positions : bool) : result avg_chg_result :=
  let rr : option value :=
    match radius with
    | VNone => Some (_tube_radius self)
    | _ => None
    end in
  match rr with
  | None => Raise UnboundLocalError
  | Some rr =>
      match num_of rr with
      | None => Raise TypeError
      | Some r =>
          if negb (Qgt_bool r 0) then Raise ValueError
          else
            let '(avg_chg, centers) :=
              sphere_averages self migration_path r in
            m ← max_list avg_chg;
            if output_positions then Ok (MaxChgPositions m avg_chg centers)
            else if chg_along_path then Ok (MaxChgAlong m avg_chg)
            else Ok (MaxChg m)
      end
  end.

End avg_chg.

(** * Construction of a [FullPathMapper] *)

(** A structure: its sites and the matrix of its lattice. *)
Record Structure := mkStructure {
  sites : list PeriodicSite;
  lattice_matrix : list (list Q)
}.

(** [np.dot(frac_coords, matrix)] *)
Definition vec_mat (x : list Q) (m : list (list Q)) : list Q :=
  foldr (fun xr acc => zip_with Qplus ((Qmult xr.1) <$> xr.2) acc)
        (replicate (length (default [] (head m))) 0%Q)
        (zip x m).

(** [frac_coords + np.array(to_jimage)], for operands of one length. *)
Definition shift_coords (x : list Q) (t : list Z) : result (list Q) :=
  if bool_decide (length x = length t)
  then Ok (zip_with Qplus x (inject_Z <$> t))
  else Raise ValueError.

(** The dictionary [unique_hops] after [unique_hops[k] = ref]: the value of
    a key already present is replaced where the key stands. *)
Fixpoint dict_set (items : list (value * nat)) (k : value) (ref : nat)
    : list (value * nat) :=
  match items with
  | [] => [(k, ref)]
  | (k', ref') :: rest =>
      if py_eq k' k then (k', ref) :: rest
      else (k', ref') :: dict_set rest k ref
  end.

(** A hop label as a key of [unique_hops]: a list or an array cannot be
    hashed. *)
Definition hashable (v : value) : result value :=
  match v with
  | VList _ | VNdarray _ => Raise TypeError
  | _ => Ok v
  end.

Section construction.

(** The services of the libraries the constructor calls: the parser of
    species, the symmetry analysis, the constructor of structures, the
    neighbour search that builds the graph (with its node attributes), and
    the constructor and the equality of [MigrationPath]. *)
Variable get_el_sp : value -> result string.
Variable analyzer : Type.
Variable SpacegroupAnalyzer : Structure -> Q -> result analyzer.
Variable get_symmetrized_structure : analyzer -> result SymmetrizedStructure.
Variable Structure_from_sites :
  list PeriodicSite -> list (list Q) -> result Structure.
Variable with_local_env_strategy : Structure -> Q -> result graph.
Variable new_MigrationPath :
  PeriodicSite -> PeriodicSite -> SymmetrizedStructure -> result MigrationPath.
Variable hop_eq : MigrationPath -> MigrationPath -> bool.

(** [get_only_sites]: the sites of the migrating species. *)
Definition get_only_sites (structure : Structure) (migrating_specie : string)
    : result Structure :=
  Structure_from_sites
    (filter (fun site => species site = migrating_specie) (sites structure))
    (lattice_matrix structure).

(** [_get_pos_and_migration_path(u, v, w)] on the edge it names. *)
Definition _get_pos_and_migration_path (only_sites : Structure)
    (symm : SymmetrizedStructure) (e : edge) : result edge :=
  let d := e_data e in
  i_site ← item (sites only_sites) (e_u e);
  v_site ← item (sites only_sites) (e_v e);
  t ← to_jimage d;
  f_coords ← shift_coords (frac_coords v_site) t;
  let f_site := mkSite (species v_site) f_coords in
  let m := lattice_matrix only_sites in
  let d := <["ipos" := VNdarray (frac_coords i_site)]> d in
  let d := <["epos" := VNdarray (frac_coords f_site)]> d in
  let d := <["ipos_cart" := VNdarray (vec_mat (frac_coords i_site) m)]> d in
  let d := <["epos_cart" := VNdarray (vec_mat (frac_coords f_site) m)]> d in
  h ← new_MigrationPath i_site f_site symm;
  Ok (set_data e (<["hop" := VHop h]> d)).

(** [populate_edges_with_migration_paths] *)
Fixpoint populate_edges_with_migration_paths (only_sites : Structure)
    (symm : SymmetrizedStructure) (es : list edge) : result (list edge) :=
  match es with
  | [] => Ok []
  | e :: rest =>
      e' ← _get_pos_and_migration_path only_sites symm e;
      rest' ← populate_edges_with_migration_paths only_sites symm rest;
      Ok (e' :: rest')
  end.

(** The comparator [lambda x, y: x[1] == y[1]] on the values under
    ["hop"]: [MigrationPath.__eq__] between two hops. *)
Definition hop_value_eq (x y : value) : bool :=
  match x, y with
  | VHop a, VHop b => hop_eq a b
  | _, _ => py_eq x y
  end.

(** A label of [generic_groupby] as a value. *)
Definition label_value (l : option Z) : value :=
  match l with
  | Some n => VInt n
  | None => VNone
  end.

(** The edges that carry the labels [labs], given in the order of the
    edges that have a ["hop"]. *)
Fixpoint set_hop_labels (es : list edge) (labs : list (option Z))
    : list edge :=
  match es with
  | [] => []
  | e :: rest =>
      match e_data e !! "hop", labs with
      | Some _, l :: labs' =>
          set_data e (<["hop_label" := label_value l]> (e_data e))
          :: set_hop_labels rest labs'
      | _, _ => e :: set_hop_labels rest labs
      end
  end.

(** [group_and_label_hops] *)
Definition group_and_label_hops (es : list edge) : list edge :=
  let hops := omap (fun e => e_data e !! "hop") es in
  let labs := Groupby.generic_groupby hop_value_eq hops in
  set_hop_labels es labs.

(** The first loop of [_populate_unique_hops_dict], on one edge:
<<
    d["iindex"] = u
    d["eindex"] = v
    d["hop_distance"] = d["hop"].length
>> *)
Definition index_edge (e : edge) : result edge :=
  let d := <["iindex" := VInt (Z.of_nat (e_u e))]> (e_data e) in
  let d := <["eindex" := VInt (Z.of_nat (e_v e))]> d in
  h ← getitem d "hop";
  match h with
  | VHop m => Ok (set_data e (<["hop_distance" := VFloat (hop_length m)]> d))
  | _ => Raise AttributeError
  end.

Fixpoint index_edges (ihop_data : list (nat * edge))
    : result (list (nat * edge)) :=
  match ihop_data with
  | [] => Ok []
  | (ref, e) :: rest =>
      e' ← index_edge e;
      rest' ← index_edges rest;
      Ok ((ref, e') :: rest')
  end.

(** The comprehension [{d["hop_label"]: d for u, v, d in ihop_data}]. *)
Fixpoint collect_unique_hops (ihop_data : list (nat * edge))
    (items : list (value * nat)) : result (list (value * nat)) :=
  match ihop_data with
  | [] => Ok items
  | (ref, e) :: rest =>
      lab ← getitem (e_data e) "hop_label";
      k ← hashable lab;
      collect_unique_hops rest (dict_set items k ref)
  end.

(** [_populate_unique_hops_dict]: the edges and [unique_hops].
    [ihop_data] lists the edges in reversed order, each with its position
    in the graph, so the hop that stands for a label is the first edge of
    the graph with that label. *)
Definition _populate_unique_hops_dict (es : list edge)
    : result (list edge * list (value * nat)) :=
  let ihop_data := reverse (imap (fun i e => (i, e)) es) in
  ihop_data' ← index_edges ihop_data;
  items ← collect_unique_hops ihop_data' [];
  Ok (reverse (snd <$> ihop_data'), items).

(** [FullPathMapper.__init__] *)
Definition __init__ (structure : Structure) (migrating_specie : value)
    (max_path_length symprec : Q) (vac_mode : bool) (name : option string)
    : result FullPathMapper :=
  specie ← get_el_sp migrating_specie;
  a ← SpacegroupAnalyzer structure symprec;
  symm_structure ← get_symmetrized_structure a;
  only_sites ← get_only_sites structure specie;
  if vac_mode then Raise NotImplementedError
  else
    g ← with_local_env_strategy only_sites max_path_length;
    es ← populate_edges_with_migration_paths only_sites symm_structure (edges g);
    '(es', unique_hops) ← _populate_unique_hops_dict (group_and_label_hops es);
    Ok (mkMapper name (mkGraph (nodes g) es') unique_hops).

End construction.

(** The keys the constructor writes on an edge. *)
Definition constructor_keys : list string :=
  ["ipos"; "epos"; "ipos_cart"; "epos_cart"; "hop"; "hop_label";
   "iindex"; "eindex"; "hop_distance"]%string.

(** How an edge [e] of a constructed mapper stands to the edge [e0] of the
    graph of the neighbour search it comes from: the same end nodes and
    key, the positions of the two ends ([epos] in the image the edge leads
    to), a hop with its label, its length and the indices of its end nodes,
    and every other key as the search left it. *)
Definition decorated (only_sites : Structure) (e0 e : edge) : Prop :=
  (e_u e, e_v e, e_key e) = (e_u e0, e_v e0, e_key e0) /\
  exists i_site v_site t h l,
    sites only_sites !! e_u e = Some i_site /\
    sites only_sites !! e_v e = Some v_site /\
    length (frac_coords v_site) = length t /\
    let f_coords := zip_with Qplus (frac_coords v_site) (inject_Z <$> t) in
    let m := lattice_matrix only_sites in
    e_data e !! "to_jimage" = Some (VTuple t) /\
    e_data e !! "ipos" = Some (VNdarray (frac_coords i_site)) /\
    e_data e !! "epos" = Some (VNdarray f_coords) /\
    e_data e !! "ipos_cart" = Some (VNdarray (vec_mat (frac_coords i_site) m)) /\
    e_data e !! "epos_cart" = Some (VNdarray (vec_mat f_coords m)) /\
    e_data e !! "hop" = Some (VHop h) /\
    e_data e !! "hop_label" = Some (VInt l) /\
    e_data e !! "iindex" = Some (VInt (Z.of_nat (e_u e))) /\
    e_data e !! "eindex" = Some (VInt (Z.of_nat (e_v e))) /\
    e_data e !! "hop_distance" = Some (VFloat (hop_length h)) /\
    forall k, k ∉ constructor_keys -> e_data e !! k = e_data e0 !! k.

(** * [get_hop_site_sequence] *)

(** How a call ends that reads an iterator with [next]: with the
    [StopIteration] of an iterator that has run out, or as any other
    call. *)
Inductive iterated (A : Type) :=
| StopIteration
| Done (r : result A).
Arguments StopIteration {A}.
Arguments Done {A} r.

(** [site_seq[-1]] *)
Definition last_item {A} (l : list A) : result A :=
  match last l with
  | Some x => Ok x
  | None => Raise IndexError
  end.

(** The first two sites, from the first hop.  A site index is an int or
    a string, and [==] on them is [py_eq].
<<
    if ihop["eindex"] == start_u:
        site_seq = [ihop["eindex"], ihop["iindex"]]
    else:
        site_seq = [ihop["iindex"], ihop["eindex"]]
>> *)
Definition first_sites (ihop : dict) (start_u : value) : result (list value) :=
  e ← getitem ihop "eindex";
  if py_eq e start_u then
    e ← getitem ihop "eindex";
    i ← getitem ihop "iindex";
    Ok [e; i]
  else
    i ← getitem ihop "iindex";
    e ← getitem ihop "eindex";
    Ok [i; e].

(** The loop over the hops that are left:
<<
    for ihop in hops:
        if ihop["iindex"] == site_seq[-1]:
            site_seq.append(ihop["eindex"])
        elif ihop["eindex"] == site_seq[-1]:
            site_seq.append(ihop["iindex"])
        else:
            raise RuntimeError("The sequence of sites for the path is invalid.")
>> *)
Fixpoint extend_sites (hops : list dict) (site_seq : list value)
    : result (list value) :=
  match hops with
  | [] => Ok site_seq
  | ihop :: rest =>
      i ← getitem ihop "iindex";
      s ← last_item site_seq;
      if py_eq i s then
        e ← getitem ihop "eindex";
        extend_sites rest (site_seq ++ [e])
      else
        e ← getitem ihop "eindex";
        s ← last_item site_seq;
        if py_eq e s then
          i ← getitem ihop "iindex";
          extend_sites rest (site_seq ++ [i])
        else Raise RuntimeError
  end.

(** [get_hop_site_sequence(hop_list, start_u)] *)
Definition get_hop_site_sequence (hop_list : list dict) (start_u : value)
    : iterated (list value) :=
  match hop_list with
  | [] => StopIteration
  | ihop :: hops =>
      Done (site_seq ← first_sites ihop start_u; extend_sites hops site_seq)
  end.

(** A hop dictionary joins two sites: they are its two indices, in one
    order or the other. *)
Definition joins (d : dict) (a b : value) : Prop :=
  (d !! "iindex" = Some a /\ d !! "eindex" = Some b) \/
  (d !! "iindex" = Some b /\ d !! "eindex" = Some a).

(** The pairs of neighbours of a sequence of sites. *)
Definition neighbours_of {A} (site_seq : list A) : list (A * A) :=
  zip site_seq (tail site_seq).

(** The index of a node as the constructor writes it on an edge. *)
Definition node_index (u : nat) : value := VInt (Z.of_nat u).

(** A hop dictionary holds the indices of two nodes. *)
Definition has_indices (d : dict) : Prop :=
  exists a b, d !! "iindex" = Some (node_index a) /\
              d !! "eindex" = Some (node_index b).

(** An edge carries the indices of its end nodes, as
    [_populate_unique_hops_dict] leaves it. *)
Definition indexed (e : edge) : Prop :=
  e_data e !! "iindex" = Some (node_index (e_u e)) /\
  e_data e !! "eindex" = Some (node_index (e_v e)).

(** * Hops of a supercell and hops of the unit cell *)

(** What [almost] compares: a number (a float or an int; a numpy float is
    a float), a sequence (a list, a tuple or an array) of such values, or
    an object of another kind, which is neither a float nor an int nor
    iterable, as a numpy integer is. *)
#[local] Unset Elimination Schemes.
Inductive nested :=
| Num (x : Q)
| Seq (items : list nested)
| Obj.
#[local] Set Elimination Schemes.

(** [SMALL_VAL = 1e-4] *)
Definition SMALL_VAL : Q := 1 # 10000.

(** [almost(a, b)]:
<<
    try:
        return all([almost(i, j) for i, j in zip(list(a), list(b))])
    except BaseException:
        if (isinstance(a, float) or isinstance(a, int)) and (
            isinstance(b, float) or isinstance(b, int)):
            return abs(a - b) < SMALL_VAL
        else:
            raise NotImplementedError
>>
    [list] refuses a number and an object that is not iterable, and every
    exception raised between [try] and [except], that of a comparison of
    two items too, leads to the second branch. *)
Fixpoint almost (a b : nested) : result bool :=
  match a, b with
  | Seq xs, Seq ys =>
      match mapM id (zip_with almost xs ys) with
      | Ok bs => Ok (forallb id bs)
      | Raise _ => Raise NotImplementedError
      end
  | Num x, Num y => Ok (Qgt_bool SMALL_VAL (Qabs (x - y)))
  | _, _ => Raise NotImplementedError
  end.

(** A vector of coordinates as [almost] sees it. *)
Definition vec (x : list Q) : nested := Seq (Num <$> x).

(** Two vectors agree, coordinate by coordinate, within [SMALL_VAL]. *)
Definition close (x y : list Q) : Prop :=
  Forall2 (fun a b => (Qabs (a - b) < SMALL_VAL)%Q) x y.

(** The same as a test: the terms [almost] computes for two vectors. *)
Definition close_bool (x y : list Q) : bool :=
  forallb id (zip_with (fun a b => Qgt_bool SMALL_VAL (Qabs (a - b))) x y).

(** A position moved by an image, and a position of the supercell in the
    coordinates of the unit cell. *)
Definition shifted (x : list Q) (idir : list Z) : list Q :=
  zip_with Qplus x (inject_Z <$> idir).

Definition doubled (x : list Q) : list Q := (fun icoord => icoord * 2)%Q <$> x.

(** The eight images [check_uc_hop] tries, in order. *)
Definition directions : list (list Z) :=
  [[0; 0; 0]; [1; 0; 0]; [0; 1; 0]; [0; 0; 1];
   [0; 1; 1]; [1; 0; 1]; [1; 1; 0]; [1; 1; 1]].

(** [x + idir] on arrays: numpy adds two arrays of one length term by
    term, stretches an array of length one to the length of the other, and
    refuses any other pair of lengths. *)
Definition np_add (x : list Q) (idir : list Z) : result (list Q) :=
  if bool_decide (length x = length idir)
  then Ok (shifted x idir)
  else
    match x, idir with
    | [a], _ => Ok ((fun d => a + inject_Z d)%Q <$> idir)
    | _, [d] => Ok ((fun a => a + inject_Z d)%Q <$> x)
    | _, _ => Raise ValueError
    end.

(** The coordinates of a site as Python holds them: a numpy array, or
    the list of its items.  The items of an array of dtype [float64] are
    numpy floats, which are floats; the items of an array of an integer
    dtype are numpy integers, which are neither floats nor ints. *)
Record coords := mkCoords {
  int_items : bool;
  c_items : list Q
}.

(** The coordinates as [almost] sees them. *)
Definition seen (x : coords) : nested :=
  if int_items x then Seq ((fun _ => Obj) <$> c_items x) else vec (c_items x).

(** [[icoord * 2 for icoord in x]] and [x + idir], for the array [idir]
    of ints: the items keep their type. *)
Definition doubled_coords (x : coords) : coords :=
  mkCoords (int_items x) (doubled (c_items x)).

Definition add_image (x : coords) (idir : list Z) : result coords :=
  items ← np_add (c_items x) idir;
  Ok (mkCoords (int_items x) items).

(** What [check_uc_hop] returns: [None], or the image with the flag that
    tells whether the hop of the unit cell is the flip of the other. *)
Definition uc_check : Type := option (list Z * bool).

Section supercell.

(** [MigrationPath.msite], the site at the middle of a hop: a property of
    the class in [pathfinder.py]. *)
Variable msite : MigrationPath -> PeriodicSite.

(** The dtype of the array [frac_coords] of a site, which [PeriodicSite]
    above does not hold: an integer dtype for a site that was built from
    int coordinates, [float64] otherwise. *)
Variable int_dtype : PeriodicSite -> bool.

Definition coords_of (site : PeriodicSite) : coords :=
  mkCoords (int_dtype site) (frac_coords site).

(** The body of the loop of [check_uc_hop] for the image [idir]:
<<
    tmp_m = uc_mpos + idir
    if almost(tmp_m, sc_mpos):
        tmp_i = uc_ipos + idir
        tmp_e = uc_epos + idir
        if almost(tmp_i, sc_ipos) and almost(tmp_e, sc_epos):
            return idir, False
        elif almost(tmp_e, sc_ipos) and almost(tmp_i, sc_epos):
            return idir, True
>> *)
Definition check_direction (sc_ipos sc_epos sc_mpos uc_ipos uc_epos uc_mpos : coords)
    (idir : list Z) : result uc_check :=
  tmp_m ← add_image uc_mpos idir;
  m ← almost (seen tmp_m) (seen sc_mpos);
  if (m : bool) then
    tmp_i ← add_image uc_ipos idir;
    tmp_e ← add_image uc_epos idir;
    ii ← almost (seen tmp_i) (seen sc_ipos);
    ee ← (if (ii : bool) then almost (seen tmp_e) (seen sc_epos) else Ok false);
    if (ee : bool) then Ok (Some (idir, false))
    else
      ei ← almost (seen tmp_e) (seen sc_ipos);
      ie ← (if (ei : bool) then almost (seen tmp_i) (seen sc_epos) else Ok false);
      if (ie : bool) then Ok (Some (idir, true)) else Ok None
  else Ok None.

Fixpoint check_directions (sc_ipos sc_epos sc_mpos uc_ipos uc_epos uc_mpos : coords)
    (dirs : list (list Z)) : result uc_check :=
  match dirs with
  | [] => Ok None
  | idir :: rest =>
      r ← check_direction sc_ipos sc_epos sc_mpos uc_ipos uc_epos uc_mpos idir;
      match r with
      | Some found => Ok (Some found)
      | None =>
          check_directions sc_ipos sc_epos sc_mpos uc_ipos uc_epos uc_mpos rest
      end
  end.

(** [check_uc_hop(sc_hop, uc_hop)]: the positions of the hop of the
    supercell are doubled, [[icoord * 2 for icoord in ...]]. *)
Definition check_uc_hop (sc_hop uc_hop : MigrationPath) : result uc_check :=
  let sc_ipos := doubled_coords (coords_of (isite sc_hop)) in
  let sc_epos := doubled_coords (coords_of (esite sc_hop)) in
  let sc_mpos := doubled_coords (coords_of (msite sc_hop)) in
  let uc_ipos := coords_of (isite uc_hop) in
  let uc_epos := coords_of (esite uc_hop) in
  let uc_mpos := coords_of (msite uc_hop) in
  check_directions sc_ipos sc_epos sc_mpos uc_ipos uc_epos uc_mpos directions.

(** The dictionary [map_hop_sc2uc] returns. *)
Record uc_match := mkMatch {
  uc_u : nat;
  uc_v : nat;
  uc_hop : MigrationPath;
  uc_shift : list Z;
  uc_flip : bool;
  uc_hop_label : value
}.

(** The loop of [map_hop_sc2uc] over the edges of the graph of the unit
    cell, and the [AssertionError] that ends the function when no edge
    has matched:
<<
    for u, v, d in fpm_uc.s_graph.graph.edges(data=True):
        chk_res = check_uc_hop(sc_hop=sc_hop, uc_hop=d["hop"])
        if chk_res is not None:
            assert almost(d["hop"].length, sc_hop.length)
            return dict(uc_u=u, uc_v=v, hop=d["hop"], shift=chk_res[0],
                        flip=chk_res[1], hop_label=d["hop_label"])
    raise AssertionError("Looking for a SC hop without a matching UC hop")
>> *)
Fixpoint map_hop_edges (sc_hop : MigrationPath) (es : list edge)
    : result uc_match :=
  match es with
  | [] => Raise AssertionError
  | e :: rest =>
      h ← getitem (e_data e) "hop";
      match h with
      | VHop uc_hop =>
          chk_res ← check_uc_hop sc_hop uc_hop;
          match chk_res with
          | Some (shift, flip) =>
              same ← almost (Num (hop_length uc_hop)) (Num (hop_length sc_hop));
              if (same : bool) then
                hop_label ← getitem (e_data e) "hop_label";
                Ok (mkMatch (e_u e) (e_v e) uc_hop shift flip hop_label)
              else Raise AssertionError
          | None => map_hop_edges sc_hop rest
          end
      | _ => Raise AttributeError
      end
  end.

(** [map_hop_sc2uc(sc_hop, fpm_uc)] *)
Definition map_hop_sc2uc (sc_hop : MigrationPath) (fpm_uc : FullPathMapper)
    : result uc_match :=
  map_hop_edges sc_hop (edges_of fpm_uc).

End supercell.

(** * [ComputedEntryPath.get_least_chg_path] *)

(** What [for hop in path] binds when [path] is an item of
    [get_intercollating_path], the tuple [(u, path_hops)]: the node [u],
    an int, and then the list [path_hops]. *)
Inductive path_item :=
| NodeItem (u : nat)
| HopsItem (path_hops : list dict).

Definition items_of (path : nat * list dict) : list path_item :=
  [NodeItem path.1; HopsItem path.2].

(** [hop[2]]: an int cannot be subscripted, a list gives its third
    item. *)
Definition third (hop : path_item) : result dict :=
  match hop with
  | NodeItem _ => Raise TypeError
  | HopsItem path_hops => item path_hops 2
  end.

(** [np.sum(vals)] for a list of numbers; a value that is not a number is
    outside the model and reported as [TypeError]. *)
Definition np_sum (vals : list value) : result Q :=
  match mapM num_of vals with
  | Some xs => Ok (foldr Qplus 0%Q xs)
  | None => Raise TypeError
  end.

(** [d["hop"].length] *)
Definition hop_length_of (d : dict) : result value :=
  h ← getitem d "hop";
  match h with
  | VHop m => Ok (VFloat (hop_length m))
  | _ => Raise AttributeError
  end.

(** [x / y < z] for numpy floats [x] and [y]: a division by zero raises
    nothing and gives an infinity of the sign of [x], or [nan] for
    [0 / 0]; of these only the negative infinity is below [z]. *)
Definition quotient_below (x y z : Q) : bool :=
  if Qeq_bool y 0 then Qgt_bool 0 x else Qgt_bool z (x / y).

(** The loop of [get_least_chg_path] over the generator: the paths it
    yields, one turn for each, and then the exception that ended it, if
    any.
<<
    for path in all_paths:
        sum_chg = np.sum([hop[2]["chg_total"] for hop in path])
        sum_length = np.sum([hop[2]["hop"].length for hop in path])
        avg_chg = sum_chg / sum_length
        if avg_chg < min_chg:
            min_chg = sum_chg
            min_path = path
    return min_path
>>
    [min_path] is the empty list until a path replaces it: [None]
    below. *)
Fixpoint least_chg_loop (paths : list (nat * list dict)) (ended : option exn)
    (min_chg : Q) (min_path : option (nat * list dict))
    : result (option (nat * list dict)) :=
  match paths with
  | [] =>
      match ended with
      | Some err => Raise err
      | None => Ok min_path
      end
  | path :: rest =>
      chgs ← mapM (fun hop => d ← third hop; getitem d "chg_total") (items_of path);
      sum_chg ← np_sum chgs;
      lengths ← mapM (fun hop => d ← third hop; hop_length_of d) (items_of path);
      sum_length ← np_sum lengths;
      if quotient_below sum_chg sum_length min_chg
      then least_chg_loop rest ended sum_chg (Some path)
      else least_chg_loop rest ended min_chg min_path
  end.

Section least_chg.

Variable parent_map : Type.
Variable parent_keys : parent_map -> list pstate.
Variable periodic_dijkstra : graph -> nat -> (pstate -> option Q) * parent_map.
Variable get_optimal_pathway_rev : parent_map -> pstate -> list pstate.

(** [get_least_chg_path()], with [get_intercollating_path()] called on
    its default [max_val=100000]. *)
Definition get_least_chg_path (self : ComputedEntryPath)
    : result (option (nat * list dict)) :=
  let all_paths :=
    get_intercollating_path parent_map parent_keys periodic_dijkstra
      get_optimal_pathway_rev (mapper self) 100000 in
  least_chg_loop (yielded all_paths) (raised all_paths) 100000000 None.

End least_chg.

(** * [ComputedEntryPath.get_summary_dict] *)

(** [dd[k]] for [dd = defaultdict(lambda: None)] once [dd.update(d)]. *)
Definition or_none (d : dict) (k : string) : value := default VNone (d !! k).

(** The entry of [hops] for the edge [(u, v, d)]. *)
Definition summary_hop (e : edge) : dict :=
  let dd := or_none (e_data e) in
  list_to_map
    [("hop_label"%string, dd "hop_label"%string);
     ("iinddex"%string, node_index (e_u e));
     ("einddex"%string, node_index (e_v e));
     ("to_jimage"%string, dd "to_jimage"%string);
     ("ipos"%string, dd "ipos"%string);
     ("epos"%string, dd "epos"%string);
     ("ipos_cart"%string, dd "ipos_cart"%string);
     ("epos_cart"%string, dd "epos_cart"%string);
     ("max_avg_chg"%string, dd "max_avg_chg"%string);
     ("chg_total"%string, dd "chg_total"%string)].

(** The entry of [unique_hops] for a value [d] of [self.unique_hops]. *)
Definition summary_unique_hop (d : dict) : dict :=
  let dd := or_none d in
  list_to_map
    [("hop_label"%string, dd "hop_label"%string);
     ("iinddex"%string, dd "iinddex"%string);
     ("einddex"%string, dd "einddex"%string);
     ("to_jimage"%string, dd "to_jimage"%string);
     ("ipos"%string, dd "ipos"%string);
     ("epos"%string, dd "epos"%string);
     ("ipos_cart"%string, dd "ipos_cart"%string);
     ("epos_cart"%string, dd "epos_cart"%string);
     ("max_avg_chg"%string, dd "max_avg_chg"%string);
     ("chg_total"%string, dd "chg_total"%string);
     ("images"%string, dd "images"%string)].

(** The dictionary [get_summary_dict] returns: the two lists of hops, and
    the entries that are read from the attributes of the object. *)
Record summary (A : Type) := mkSummary {
  summary_attributes : A;
  summary_hops : list dict;
  summary_unique_hops : list dict
}.
Arguments mkSummary {A} _ _ _.
Arguments summary_attributes {A} _.
Arguments summary_hops {A} _.
Arguments summary_unique_hops {A} _.

Section summary_dict.

(** The entries [base_task_id], [base_structure], [inserted_ids],
    [migrating_specie], [max_path_length], [ltol], [stol],
    [full_sites_struct] and [angle_tol], read from the entries and the
    structures the object holds; and [sorted(l, key=...)] of Python. *)
Variable A : Type.
Variable entry_attributes : ComputedEntryPath -> result A.
Variable sorted_by : (dict -> value) -> list dict -> result (list dict).

(** [get_summary_dict()] *)
Definition get_summary_dict (self : ComputedEntryPath) : result (summary A) :=
  let hops := summary_hop <$> edges_of (mapper self) in
  let unique_hops :=
    (fun kd => summary_unique_hop (hop_dict (edges_of (mapper self)) kd.2))
      <$> unique_hops (mapper self) in
  unique_hops ← sorted_by (fun x => or_none x "hop_label") unique_hops;
  attributes ← entry_attributes self;
  Ok (mkSummary attributes hops unique_hops).

End summary_dict.

(** * The grids of the charge density *)

(** [_shift_grid(vv)]:
<<
    step = vv[1] - vv[0]
    return vv + step / 2.0
>> *)
Definition _shift_grid (vv : list Q) : result (list Q) :=
  v1 ← item vv 1;
  v0 ← item vv 0;
  let step := (v1 - v0)%Q in
  Ok ((fun v => v + step / 2)%Q <$> vv).

(** [np.linspace(0, 1, n, endpoint=False)]: the [n] points [i / n]. *)
Definition linspace (n : nat) : list Q :=
  (fun i => inject_Z (Z.of_nat i) / inject_Z (Z.of_nat n))%Q <$> seq 0 n.

(** The rows of [np.vstack([AA.flatten(), BB.flatten(), CC.flatten()]).T]
    for [AA, BB, CC = np.meshgrid(aa, bb, cc, indexing="ij")]: the
    triples of a point of each axis, the last axis running fastest. *)
Definition mesh_rows {A} (aa bb cc : list A) : list (list A) :=
  a ← aa; b ← bb; c ← cc; [[a; b; c]].

(** What [_setup_grids] stores on the object. *)
Record grids := mkGrids {
  _uc_grid_shape : nat * nat * nat;
  _fcoords : list (list Q);
  _images : list (list Z)
}.

(** [_setup_grids()], for a charge density with [n0], [n1] and [n2] grid
    points along its axes ([len(self.base_aeccar.get_axis_grid(i))]):
<<
    aa = np.linspace(0, 1, n0, endpoint=False)
    bb = np.linspace(0, 1, n1, endpoint=False)
    cc = np.linspace(0, 1, n2, endpoint=False)
    aa, bb, dd = map(_shift_grid, [aa, bb, cc])
    AA, BB, CC = np.meshgrid(aa, bb, cc, indexing="ij")
    IMA, IMB, IMC = np.meshgrid([-1, 0, 1], [-1, 0, 1], [-1, 0, 1], indexing="ij")
>>
    The third shifted axis is bound to [dd], and [cc] stays as
    [np.linspace] gave it. *)
Definition _setup_grids (n0 n1 n2 : nat) : result grids :=
  let aa := linspace n0 in
  let bb := linspace n1 in
  let cc := linspace n2 in
  aa ← _shift_grid aa;
  bb ← _shift_grid bb;
  dd ← _shift_grid cc;
  Ok (mkGrids (length aa, length bb, length cc)
              (mesh_rows aa bb cc)
              (mesh_rows [-1; 0; 1] [-1; 0; 1] [-1; 0; 1])).

(** The points [_dist_mat] measures the distances from: here the three
    axes are shifted.
<<
    aa, bb, cc = map(_shift_grid, [aa, bb, cc])
    AA, BB, CC = np.meshgrid(aa, bb, cc, indexing="ij")
>> *)
Definition _dist_mat_points (n0 n1 n2 : nat) : result (list (list Q)) :=
  aa ← _shift_grid (linspace n0);
  bb ← _shift_grid (linspace n1);
  cc ← _shift_grid (linspace n2);
  Ok (mesh_rows aa bb cc).


(** * A small mapper for the examples *)

Module Example.

(** Two lithium sites in the cell. *)
Definition site_a : PeriodicSite := mkSite "Li" [0; 0; 0]%Q.
Definition site_b : PeriodicSite := mkSite "Li" [1 # 2; 0; 0]%Q.
Definition site_b' : PeriodicSite := mkSite "Li" [3 # 2; 0; 0]%Q.

Definition symm : SymmetrizedStructure := SymmHandle 0.

(** The symmetry service of a structure with no symmetry but the
    identity: two sites are equivalent when they coincide. *)
Definition coords_eqb (x y : list Q) : bool :=
  bool_decide (length x = length y) &&
  forallb (fun p => Qeq_bool p.1 p.2) (zip x y).

Definition same_position (_ : SymmetrizedStructure)
    (s1 s2 : list PeriodicSite) : bool :=
  match s1, s2 with
  | [a], [b] => coords_eqb (frac_coords a) (frac_coords b)
  | _, _ => false
  end.

Definition hop_ab : MigrationPath := mkHop site_a site_b symm 2.
Definition hop_ab' : MigrationPath := mkHop site_a site_b' symm 3.
Definition hop_ba : MigrationPath := mkHop site_b site_a symm 2.

Definition edge_data (jimage : list Z) (label : Z) (h : MigrationPath) : dict :=
  list_to_map
    [("to_jimage"%string, VTuple jimage); ("hop_label"%string, VInt label);
     ("hop"%string, VHop h); ("hop_distance"%string, VFloat (hop_length h))].

(** Three hops between two nodes: one inside the cell and its reverse,
    both of label 0, and one that leaves the cell, of label 1. *)
Definition e0 : edge := mkEdge 0 1 0 (edge_data [0; 0; 0] 0 hop_ab).
Definition e1 : edge := mkEdge 0 1 1 (edge_data [1; 0; 0] 1 hop_ab').
Definition e2 : edge := mkEdge 1 0 0 (edge_data [0; 1; 0] 0 hop_ba).

Definition mapper : FullPathMapper :=
  mkMapper (Some "example"%string) (mkGraph [0; 1]%nat [e0; e1; e2])
           [(VInt 0, 0%nat); (VInt 1, 1%nat)].

(** The mapper once its costs are assigned from the hop distances. *)
Definition costed_mapper : FullPathMapper :=
  (assign_cost_to_graph same_position mapper ["hop_distance"%string]).1.

(** A table for the periodic search from node 0 of that graph: the state
    [(0, (1, 0, 0))] is reached at distance 5 through node 1, and the map
    of parents is kept as the path back from it. *)
Definition search_table (GG : graph) (u : nat)
    : (pstate -> option Q) * list (pstate * list pstate) :=
  if bool_decide (u = 0%nat) then
    (fun s => if bool_decide (s = (0%nat, (1, 0, 0))) then Some 5%Q else None,
     [((0%nat, (1, 0, 0)),
       [(0%nat, (1, 0, 0)); (1%nat, jzero); (0%nat, jzero)])])
  else (fun _ => None, []).

Definition table_keys (t : list (pstate * list pstate)) : list pstate := t.*1.

Definition table_path (t : list (pstate * list pstate)) (s : pstate)
    : list pstate :=
  default [] (snd <$> list_find (fun e => e.1 = s) t ≫= (fun x => Some x.2)).

(** Hops of a path: inside the cell, and across its boundary. *)
Definition inside : dict := {[ "to_jimage"%string := VTuple [0; 0; 0] ]}.
Definition across : dict := {[ "to_jimage"%string := VTuple [1; 0; 0] ]}.
Definition back : dict := {[ "to_jimage"%string := VTuple [-1; 0; 0] ]}.

(** A path through three nodes whose crossing hop is in the middle. *)
Definition path_mid : list hop :=
  [(1, 2, inside); (0, 2, across); (0, 1, inside)]%nat.

(** The same hops with the crossing hop first. *)
Definition path_first : list hop :=
  [(0, 2, across); (0, 1, inside); (1, 2, inside)]%nat.


(** Two hops there and back between two nodes. *)
Definition path_two : list hop :=
  [(0, 1, inside); (1, 0, across)]%nat.



(** Services for the constructor: a parser that knows three elements,
    a symmetry analysis that always answers, a constructor of structures
    that refuses an empty list of sites, a neighbour search that finds the
    three hops above, and hops compared by their length. *)
Definition parse_specie (v : value) : result string :=
  match v with
  | VStr s => if bool_decide (s ∈ ["Li"; "Na"; "Mg"]%string) then Ok s
              else Raise ValueError
  | _ => Raise ValueError
  end.

Definition analyze (s : Structure) (symprec : Q) : result Structure := Ok s.

Definition symmetrize (a : Structure) : result SymmetrizedStructure := Ok symm.

Definition from_sites (l : list PeriodicSite) (m : list (list Q))
    : result Structure :=
  match l with
  | [] => Raise ValueError
  | _ => Ok (mkStructure l m)
  end.

Definition neighbours (s : Structure) (cutoff : Q) : result graph :=
  Ok (mkGraph [0; 1]%nat
        [mkEdge 0 1 0 {[ "to_jimage"%string := VTuple [0; 0; 0] ]};
         mkEdge 0 1 1 {[ "to_jimage"%string := VTuple [1; 0; 0] ]};
         mkEdge 0 1 2 {[ "to_jimage"%string := VTuple [-1; 0; 0] ]}]).

(** The hop between two sites, its length measured along the first
    axis. *)
Definition make_hop (i f : PeriodicSite) (s : SymmetrizedStructure)
    : result MigrationPath :=
  match frac_coords i, frac_coords f with
  | x :: _, y :: _ => Ok (mkHop i f s (Qabs (y - x)))
  | _, _ => Raise IndexError
  end.

Definition same_length (a b : MigrationPath) : bool :=
  Qeq_bool (hop_length a) (hop_length b).

(** A chain of lithium sites with a sodium site beside it. *)
Definition chain : Structure :=
  mkStructure [site_a; mkSite "Na" [0; 1 # 2; 0]%Q; site_b]
              [[1; 0; 0]; [0; 1; 0]; [0; 0; 1]]%Q.

(** Two hops between the nodes 0 and 1, as the constructor indexes them:
    one inside the cell and one that leaves it. *)
Definition hop_in : dict :=
  list_to_map
    [("iindex"%string, node_index 0); ("eindex"%string, node_index 1);
     ("to_jimage"%string, VTuple [0; 0; 0])].

Definition hop_out : dict :=
  list_to_map
    [("iindex"%string, node_index 0); ("eindex"%string, node_index 1);
     ("to_jimage"%string, VTuple [1; 0; 0])].

Definition two_nodes : graph :=
  mkGraph [0; 1]%nat [mkEdge 0 1 0 hop_in; mkEdge 0 1 1 hop_out].

(** A path of the periodic search from node 0 to its image in the next
    cell, through node 1. *)
Definition through_one : list pstate :=
  [(0%nat, jzero); (1%nat, jzero); (0%nat, (1, 0, 0))].

(** The site at the middle of a hop, half way between its two ends. *)
Definition middle (h : MigrationPath) : PeriodicSite :=
  mkSite (species (isite h))
         (zip_with (fun a b => (a + b) / 2)%Q
                   (frac_coords (isite h)) (frac_coords (esite h))).

(** The dtype of the coordinates of sites that were all built from
    floats, and of sites of which those with whole coordinates were built
    from ints. *)
Definition from_floats (site : PeriodicSite) : bool := false.

Definition whole_from_ints (site : PeriodicSite) : bool :=
  forallb (fun x => bool_decide (Qden x = 1%positive)) (frac_coords site).

(** The hop [hop_ab] as it lies in a supercell of twice the size,
    in the image [(1, 0, 0)] of the unit cell. *)
Definition sc_hop : MigrationPath :=
  mkHop (mkSite "Li" [1 # 2; 0; 0]%Q) (mkSite "Li" [3 # 4; 0; 0]%Q)
        symm (1 # 2).

(** [sorted(l, key=...)] for keys that are ints: a stable insertion
    sort; any other key is reported as [TypeError]. *)
Fixpoint insert_by (key : dict -> value) (x : dict) (l : list dict)
    : result (list dict) :=
  match l with
  | [] => Ok [x]
  | y :: rest =>
      match key x, key y with
      | VInt a, VInt b =>
          if (a <=? b)%Z then Ok (x :: y :: rest)
          else r ← insert_by key x rest; Ok (y :: r)
      | _, _ => Raise TypeError
      end
  end.

Fixpoint sorted_by (key : dict -> value) (l : list dict) : result (list dict) :=
  match l with
  | [] => Ok []
  | x :: rest => r ← sorted_by key rest; insert_by key x r
  end.






(** Three hops from node 0 to node 1: one along the first axis, and two
    along the second axis in opposite directions, the second of them
    costlier than the threshold 100. *)
Definition step_data (jimage : list Z) (cost : Q) : dict :=
  list_to_map [("to_jimage"%string, VTuple jimage); ("cost"%string, VFloat cost)].

Definition p0 : edge := mkEdge 0 1 0 (step_data [1; 0; 0] 2).
Definition p1 : edge := mkEdge 0 1 1 (step_data [0; -1; 0] 3).
Definition p2 : edge := mkEdge 0 1 2 (step_data [0; 1; 0] 200).

Definition twin_mapper : FullPathMapper :=
  mkMapper None (mkGraph [0; 1]%nat [p0; p1; p2]) [].

(** The table of a search from node 0 of that graph: the state
    [(0, (1, 1, 0))] is reached at distance 5, through node 1 in the
    image [(1, 0, 0)]. *)
Definition twin_table (GG : graph) (u : nat)
    : (pstate -> option Q) * list (pstate * list pstate) :=
  if bool_decide (u = 0%nat) then
    (fun s => if bool_decide (s = (0%nat, (1, 1, 0))) then Some 5%Q else None,
     [((0%nat, (1, 1, 0)),
       [(0%nat, (1, 1, 0)); (1%nat, (1, 0, 0)); (0%nat, jzero)])])
  else (fun _ => None, []).

End Example.

(** * Properties *)

(** In [H : r ≫= k = Ok x], the call [r] has returned. *)
Ltac ok_bind H :=
  match type of H with
  | mbind _ ?r = Ok _ =>
      let E := fresh "E" in
      destruct r eqn:E; simpl in H; [|discriminate H]
  end.

(** ** Grouping *)

Example groupby_example :
  Groupby.generic_groupby Z.eqb [3; 5; 3; 7; 5; 3] =
  [Some 0; Some 1; Some 0; Some 2; Some 1; Some 0].
Proof. reflexivity. Qed.

(** A property that holds at the start of a loop over a range of indices,
    and that each turn carries to the next index, holds after the loop. *)
Lemma foldl_seq_invariant {S : Type} (P : nat -> S -> Prop) (f : S -> nat -> S)
    (len start : nat) (s : S) :
  P start s ->
  (forall i s', (start <= i < start + len)%nat -> P i s' -> P (Datatypes.S i) (f s' i)) ->
  P (start + len)%nat (foldl f s (seq start len)).
Proof.
  revert start s. induction len as [|len IH]; intros start s H0 Hstep; simpl.
  - by rewrite Nat.add_0_r.
  - replace (start + Datatypes.S len)%nat with (Datatypes.S start + len)%nat by lia.
    apply IH.
    + apply Hstep; [lia | done].
    + intros i s' Hi. apply Hstep. lia.
Qed.

Module GroupbyProofs.
Import Groupby.
Section proofs.
Context {A : Type}.
Variable comp : A -> A -> bool.
Variable list_in : list A.
Hypothesis comp_refl : forall a, comp a a = true.
Hypothesis comp_sym : forall a b, comp a b = true -> comp b a = true.
Hypothesis comp_trans :
  forall a b c, comp a b = true -> comp b c = true -> comp a c = true.

Local Abbreviation len_in := (length list_in).
Local Abbreviation linked := (linked comp list_in).
Local Abbreviation Inv := (Inv comp list_in).
Local Abbreviation Scan := (Scan comp list_in).
Local Abbreviation inv_len := (inv_len comp list_in).
Local Abbreviation inv_nonneg := (inv_nonneg comp list_in).
Local Abbreviation inv_bound := (inv_bound comp list_in).
Local Abbreviation inv_done := (inv_done comp list_in).
Local Abbreviation inv_class := (inv_class comp list_in).
Local Abbreviation inv_closed := (inv_closed comp list_in).
Local Abbreviation inv_leader := (inv_leader comp list_in).

Lemma linked_lt i j : linked i j -> (i < len_in)%nat /\ (j < len_in)%nat.
Proof.
  intros (a & b & Ha & Hb & _). split; eapply lookup_lt_Some; eauto.
Qed.

Lemma linked_refl i : (i < len_in)%nat -> linked i i.
Proof.
  intros Hi. destruct (lookup_lt_is_Some_2 list_in i Hi) as [a Ha].
  exists a, a. auto.
Qed.

Lemma linked_sym i j : linked i j -> linked j i.
Proof. intros (a & b & Ha & Hb & H). exists b, a. auto. Qed.

Lemma linked_trans i j k : linked i j -> linked j k -> linked i k.
Proof.
  intros (a & b & Ha & Hb & H) (b' & c & Hb' & Hc & H').
  rewrite Hb in Hb'. injection Hb' as <-.
  exists a, c. eauto.
Qed.

Lemma linked_dec i j : linked i j \/ ~ linked i j.
Proof.
  destruct (list_in !! i) as [a|] eqn:Ha; [|right; intros (? & ? & ? & _); congruence].
  destruct (list_in !! j) as [b|] eqn:Hb; [|right; intros (? & ? & ? & ? & _); congruence].
  destruct (comp a b) eqn:Hc.
  - left. exists a, b. auto.
  - right. intros (a' & b' & Ha' & Hb' & H). congruence.
Qed.

Lemma Inv_init : Inv 0 (replicate len_in None, 0).
Proof.
  split; simpl.
  - apply length_replicate.
  - lia.
  - intros j l H. apply lookup_replicate in H as [? _]. discriminate.
  - lia.
  - intros i j li lj H. apply lookup_replicate in H as [? _]. discriminate.
  - lia.
  - intros j [l H]. apply lookup_replicate in H as [? _]. discriminate.
Qed.

(** An index not labelled yet when its turn comes is linked to no
    labelled index. *)
Lemma fresh_unlinked k out num j :
  Inv k (out, num) -> out !! k = Some None -> labelled out j -> ~ linked k j.
Proof.
  intros HI Hk Hj Hkj.
  destruct (inv_leader _ _ HI j Hj) as (i & Hi & Hij).
  destruct (inv_closed _ _ HI i k Hi) as [l Hl].
  - eapply linked_trans; [exact Hij | by apply linked_sym].
  - simpl in Hl. congruence.
Qed.

Lemma Scan_step k out0 num m st :
  Inv k (out0, num) -> out0 !! k = Some None ->
  (k < m < len_in)%nat ->
  Scan k out0 num m st -> Scan k out0 num (S m) (inner_step comp list_in k st m).
Proof.
  intros HI Hk Hm HS. destruct st as [out num']. destruct HS as [Hn Hl Hs Hh Hmiss].
  simpl in *. subst num'.
  unfold inner_step.
  destruct (lookup_lt_is_Some_2 list_in k) as [a Ha]; [lia|].
  destruct (lookup_lt_is_Some_2 list_in m) as [b Hb]; [lia|].
  rewrite Ha, Hb.
  destruct (comp a b) eqn:Hc.
  - assert (Hkm : linked k m) by (exists a, b; auto).
    assert (Hm0 : out !! m = out0 !! m).
    { apply Hmiss; lia. }
    assert (Hu : out0 !! m = Some None).
    { destruct (lookup_lt_is_Some_2 out0 m) as [[l|] Hl0]; [|exfalso|done].
      - pose proof (inv_len _ _ HI) as Hlen0. simpl in Hlen0. lia.
      - eapply fresh_unlinked; eauto. by exists l. }
    rewrite Hm0, Hu, Hs.
    split; simpl; auto.
    + by rewrite length_insert.
    + rewrite list_lookup_insert_ne by lia. done.
    + intros j Hj Hkj. destruct (decide (j = m)) as [->|Hne].
      * apply list_lookup_insert_eq. lia.
      * rewrite list_lookup_insert_ne by done. apply Hh; [lia|done].
    + intros j Hjk Hnot. rewrite list_lookup_insert_ne.
      * apply Hmiss; [done|]. intros [? ?]. apply Hnot. split; [lia|done].
      * intros <-. apply Hnot. split; [lia|done].
  - split; simpl; auto.
    + intros j Hj Hkj. apply Hh; [|done].
      destruct (decide (j = m)) as [->|]; [|lia].
      destruct Hkj as (a' & b' & Ha' & Hb' & H'). congruence.
    + intros j Hjk Hnot. apply Hmiss; [done|]. intros [? ?]. apply Hnot.
      split; [lia|done].
Qed.

Lemma Inv_step k st :
  (k < len_in)%nat -> Inv k st -> Inv (S k) (outer_step comp list_in st k).
Proof.
  intros Hk HI. destruct st as [out0 num]. unfold outer_step.
  pose proof (inv_len _ _ HI) as Hlen. simpl in Hlen.
  destruct (lookup_lt_is_Some_2 out0 k) as [[l|] Hl]; [lia| |]; rewrite Hl.
  - (* already labelled: continue *)
    destruct HI as [H0 Hnn H1 H2 H3 H4 H5]. split; simpl in *; auto.
    + intros i Hi Hin. destruct (decide (i = k)) as [->|]; [by exists l|].
      apply H2; [lia|done].
    + intros i j Hi Hij. destruct (decide (i = k)) as [->|]; [|apply (H4 i); [lia|done]].
      destruct (H5 k) as (i' & Hi' & Hi'k); [by exists l|].
      apply (H4 i'); [done|]. eapply linked_trans; eauto.
    + intros j Hj. destruct (H5 j Hj) as (i & Hi & Hij). exists i. split; [lia|done].
  - (* a new leader *)
    set (out1 := <[k := Some num]> out0).
    assert (HS : Scan k out0 num (S k + (length out0 - S k))
                   (foldl (inner_step comp list_in k) (out1, num)
                          (seq (S k) (length out0 - S k)))).
    { apply (foldl_seq_invariant (Scan k out0 num)).
      - split; simpl; auto.
        + unfold out1. by rewrite length_insert.
        + apply list_lookup_insert_eq. lia.
        + intros j Hj. lia.
        + intros j Hj _. unfold out1. by rewrite list_lookup_insert_ne.
      - intros i s' Hi. apply Scan_step; auto. lia. }
    replace (S k + (length out0 - S k))%nat with len_in in HS by lia.
    destruct (foldl _ _ _) as [out num'].
    destruct HS as [Hn Hl' Hs Hh Hmiss]. simpl in *. subst num'.
    assert (Hcase : forall j, (j = k \/ ((k < j < len_in)%nat /\ linked k j)) \/
                              (j <> k /\ ~ ((k < j < len_in)%nat /\ linked k j))).
    { intros j. destruct (decide (j = k)); [tauto|].
      destruct (linked_dec k j); [|tauto].
      destruct (decide (k < j < len_in)%nat); tauto. }
    assert (Hnew : forall j, (j = k \/ ((k < j < len_in)%nat /\ linked k j)) ->
                   out !! j = Some (Some num) /\ linked k j).
    { intros j [->|[Hj Hkj]]; [split; [done|by apply linked_refl]|].
      split; [by apply Hh|done]. }
    assert (Hkeep : forall j, labelled out0 j -> out !! j = out0 !! j).
    { intros j Hj. destruct (Hcase j) as [[->|[_ Hkj]]|[? ?]].
      - destruct Hj as [? Hj]. congruence.
      - exfalso. eapply fresh_unlinked; eauto.
      - by apply Hmiss. }
    pose proof (inv_nonneg _ _ HI) as Hnn. simpl in Hnn.
    split; simpl.
    + done.
    + lia.
    + intros j l Hj. destruct (Hcase j) as [Hc|[Hc1 Hc2]].
      * destruct (Hnew j Hc) as [Hjn _]. rewrite Hjn in Hj. injection Hj as <-. lia.
      * rewrite (Hmiss j Hc1 Hc2) in Hj.
        pose proof (inv_bound _ _ HI j l Hj). simpl in *. lia.
    + intros i Hi Hin. destruct (decide (i = k)) as [->|]; [by exists num|].
      destruct (inv_done _ _ HI i) as [l Hl0]; [lia|done|]. simpl in Hl0.
      exists l. rewrite Hkeep; [done|by exists l].
    + intros i j li lj Hi Hj.
      destruct (Hcase i) as [Hci|[Hci1 Hci2]], (Hcase j) as [Hcj|[Hcj1 Hcj2]].
      * destruct (Hnew i Hci) as [Hi' Hki], (Hnew j Hcj) as [Hj' Hkj].
        split; [intros _|congruence].
        eapply linked_trans; [by apply linked_sym|done].
      * destruct (Hnew i Hci) as [Hi' Hki].
        rewrite (Hmiss j Hcj1 Hcj2) in Hj.
        pose proof (inv_bound _ _ HI j lj Hj) as Hb. simpl in Hb.
        split; [intros ->; rewrite Hi' in Hi; injection Hi as ->; lia|].
        intros Hij. exfalso.
        eapply (fresh_unlinked k out0 num j); eauto; [by exists lj|].
        eapply linked_trans; eauto.
      * destruct (Hnew j Hcj) as [Hj' Hkj].
        rewrite (Hmiss i Hci1 Hci2) in Hi.
        pose proof (inv_bound _ _ HI i li Hi) as Hb. simpl in Hb.
        split; [intros ->; rewrite Hj' in Hj; injection Hj as ->; lia|].
        intros Hij. exfalso.
        eapply (fresh_unlinked k out0 num i); eauto; [by exists li|].
        eapply linked_trans; [done|by apply linked_sym].
      * rewrite (Hmiss i Hci1 Hci2) in Hi. rewrite (Hmiss j Hcj1 Hcj2) in Hj.
        by apply (inv_class _ _ HI).
    + intros i j Hi Hij. destruct (decide (i = k)) as [->|].
      * destruct (decide (j = k)) as [->|]; [by exists num|].
        destruct (linked_lt _ _ Hij) as [_ Hjn].
        destruct (decide (k < j)%nat).
        -- exists num. apply Hh; [lia|done].
        -- destruct (inv_done _ _ HI j) as [l Hl0]; [lia|done|]. simpl in Hl0.
           exists l. rewrite Hkeep; [done|by exists l].
      * destruct (inv_closed _ _ HI i j) as [l Hl0]; [lia|done|]. simpl in Hl0.
        exists l. rewrite Hkeep; [done|by exists l].
    + intros j [l Hj]. destruct (Hcase j) as [Hc|[Hc1 Hc2]].
      * exists k. split; [lia|]. by apply Hnew.
      * rewrite (Hmiss j Hc1 Hc2) in Hj.
        destruct (inv_leader _ _ HI j) as (i & Hi & Hij); [by exists l|].
        exists i. split; [lia|done].
Qed.

Lemma Inv_final : Inv len_in (foldl (outer_step comp list_in) (replicate len_in None, 0) (seq 0 len_in)).
Proof.
  apply (foldl_seq_invariant Inv (outer_step comp list_in) len_in 0).
  - apply Inv_init.
  - intros i s' Hi. apply Inv_step. lia.
Qed.

Lemma tc_linked i j : tc linked i j <-> linked i j.
Proof.
  split; [|apply tc_once].
  induction 1 as [|i j k Hij _ IH]; [done|]. eapply linked_trans; eauto.
Qed.

(** C1: for a comparator that is an equivalence relation, [generic_groupby]
    returns one integer label for each item of the input, and two items
    carry the same label exactly when the comparator connects them
    (directly or, what is the same for an equivalence, through a chain of
    items). *)
Theorem generic_groupby_labels :
  let list_out := generic_groupby comp list_in in
  length list_out = length list_in /\
  (forall i, (i < length list_in)%nat -> exists l : Z, list_out !! i = Some (Some l)) /\
  (forall i j, (i < length list_in)%nat -> (j < length list_in)%nat ->
     (list_out !! i = list_out !! j <-> tc linked i j)) /\
  (forall i j a b, list_in !! i = Some a -> list_in !! j = Some b ->
     (list_out !! i = list_out !! j <-> comp a b = true)).
Proof.
  pose proof Inv_final as HI. unfold generic_groupby.
  destruct (foldl _ _ _) as [out num]. simpl.
  assert (Hcls : forall i j, (i < len_in)%nat -> (j < len_in)%nat ->
            (out !! i = out !! j <-> linked i j)).
  { intros i j Hi Hj.
    destruct (inv_done _ _ HI i Hi Hi) as [li Hli].
    destruct (inv_done _ _ HI j Hj Hj) as [lj Hlj]. simpl in *.
    rewrite Hli, Hlj, <- (inv_class _ _ HI i j li lj Hli Hlj).
    split; congruence. }
  split; [exact (inv_len _ _ HI)|]. split; [|split].
  - intros i Hi. exact (inv_done _ _ HI i Hi Hi).
  - intros i j Hi Hj. rewrite tc_linked. by apply Hcls.
  - intros i j a b Ha Hb. rewrite Hcls.
    + split; [intros (a' & b' & Ha' & Hb' & H); congruence|].
      intros H. exists a, b. auto.
    + eapply lookup_lt_Some; eauto.
    + eapply lookup_lt_Some; eauto.
Qed.

End proofs.
End GroupbyProofs.

Lemma generic_groupby_labels_witness :
  let list_in := [3; 5; 3; 7; 5] in
  let list_out := Groupby.generic_groupby Z.eqb list_in in
  length list_out = length list_in /\
  (forall i, (i < length list_in)%nat -> exists l : Z, list_out !! i = Some (Some l)) /\
  (forall i j, (i < length list_in)%nat -> (j < length list_in)%nat ->
     (list_out !! i = list_out !! j <-> tc (Groupby.linked Z.eqb list_in) i j)) /\
  (forall i j a b, list_in !! i = Some a -> list_in !! j = Some b ->
     (list_out !! i = list_out !! j <-> Z.eqb a b = true)).
Proof.
  apply (GroupbyProofs.generic_groupby_labels Z.eqb [3; 5; 3; 7; 5]).
  - intros a. apply Z.eqb_refl.
  - intros a b H. rewrite Z.eqb_sym. exact H.
  - intros a b c H1 H2. apply Z.eqb_eq in H1, H2. apply Z.eqb_eq. lia.
Defined.

(** ** Decoration *)

Lemma py_eq_sym a b : py_eq a b = true -> py_eq b a = true.
Proof.
  unfold py_eq. destruct (num_of a) as [x|] eqn:Ha, (num_of b) as [y|] eqn:Hb; try done.
  - rewrite !Qeq_bool_iff. by intros ->.
  - destruct a, b; try done; rewrite !bool_decide_eq_true; congruence.
Qed.

Lemma py_eq_trans a b c : py_eq a b = true -> py_eq b c = true -> py_eq a c = true.
Proof.
  unfold py_eq.
  destruct (num_of a) as [x|] eqn:Ha, (num_of b) as [y|] eqn:Hb,
           (num_of c) as [z|] eqn:Hc; try done.
  - rewrite !Qeq_bool_iff. intros -> ->. reflexivity.
  - destruct a, b, c; try done; rewrite !bool_decide_eq_true; congruence.
Qed.

Lemma dict_update_notin (data : pydict) (d : dict) (k : string) :
  k ∉ data.*1 -> dict_update d data !! k = d !! k.
Proof.
  revert d. induction data as [|[k' v'] data IH]; intros d Hk; [done|].
  simpl in *. apply not_elem_of_cons in Hk as [Hne Hk].
  unfold dict_update in *. simpl. rewrite IH by done.
  by rewrite lookup_insert_ne.
Qed.

Lemma dict_update_in (data : pydict) (d : dict) (k : string) (v : value) :
  NoDup data.*1 -> (k, v) ∈ data -> dict_update d data !! k = Some v.
Proof.
  revert d. induction data as [|[k' v'] data IH]; intros d Hnd Hin.
  - by apply elem_of_nil in Hin.
  - simpl in Hnd. apply NoDup_cons in Hnd as [Hk' Hnd].
    apply elem_of_cons in Hin as [Heq|Hin].
    + injection Heq as -> ->. unfold dict_update. simpl.
      fold (dict_update (<[k':=v']> d) data).
      rewrite dict_update_notin by done. apply lookup_insert_eq.
    + unfold dict_update. simpl. fold (dict_update (<[k':=v']> d) data).
      by apply IH.
Qed.

Section decoration_proofs.
Variable equiv : SymmetrizedStructure -> list PeriodicSite -> list PeriodicSite -> bool.

Local Abbreviation edge_effect := (edge_effect equiv).

Lemma flip_key_other d k k' : k' <> k -> flip_key d k !! k' = d !! k'.
Proof.
  intros Hne. unfold flip_key. destruct (d !! k) as [[]|]; try done.
  by rewrite lookup_insert_ne.
Qed.

Lemma flip_key_list d k l : d !! k = Some (VList l) -> flip_key d k !! k = Some (VList (reverse l)).
Proof. intros H. unfold flip_key. rewrite H. apply lookup_insert_eq. Qed.

Lemma flip_key_not_list d k k' x :
  d !! k' = Some x -> is_list x = false -> flip_key d k !! k' = Some x.
Proof.
  intros Hx Hl. destruct (decide (k' = k)) as [->|Hne].
  - unfold flip_key. rewrite Hx. by destruct x.
  - by rewrite flip_key_other.
Qed.

(** The flips leave alone the keys that are not in [data]. *)
Lemma flip_data_notin data d d' err k :
  flip_data data d = (d', err) -> k ∉ data.*1 -> d' !! k = d !! k.
Proof.
  revert d. induction data as [|[k' v'] data IH]; intros d H Hk; simpl in *.
  - by injection H as <- _.
  - apply not_elem_of_cons in Hk as [Hne Hk].
    destruct (is_numpy v'); [by injection H as <- _|].
    destruct (is_list v'); simpl in H.
    + rewrite (IH _ H Hk). by apply flip_key_other.
    + by apply (IH _ H Hk).
Qed.

(** They leave alone every value that is not a list. *)
Lemma flip_data_not_list data d d' err k x :
  flip_data data d = (d', err) -> d !! k = Some x -> is_list x = false ->
  d' !! k = Some x.
Proof.
  revert d. induction data as [|[k' v'] data IH]; intros d H Hx Hl; simpl in *.
  - by injection H as <- _.
  - destruct (is_numpy v'); [by injection H as <- _|].
    destruct (is_list v'); simpl in H.
    + eapply IH; [exact H| |done]. by apply flip_key_not_list.
    + by eapply IH.
Qed.

(** A key of [data] keeps the value of [data] or, for a list, takes its
    reversal. *)
Lemma flip_data_in data d d' err k v :
  flip_data data d = (d', err) -> NoDup data.*1 -> (k, v) ∈ data ->
  d !! k = Some v ->
  d' !! k = Some v \/ (is_list v = true /\ d' !! k = Some (flipped v)).
Proof.
  revert d. induction data as [|[k' v'] data IH]; intros d H Hnd Hin Hd; simpl in *.
  - by apply elem_of_nil in Hin.
  - apply NoDup_cons in Hnd as [Hk' Hnd].
    apply elem_of_cons in Hin as [Heq|Hin].
    + injection Heq as -> ->.
      destruct (is_numpy v'); [injection H as <- _; by left|].
      destruct (is_list v') eqn:Hl; simpl in H.
      * right. split; [done|]. rewrite (flip_data_notin _ _ _ _ _ H Hk').
        destruct v'; try discriminate. by apply flip_key_list.
      * left. by rewrite (flip_data_notin _ _ _ _ _ H Hk').
    + assert (k <> k').
      { intros ->. apply Hk'. apply list_elem_of_fmap. by exists (k', v). }
      destruct (is_numpy v'); [injection H as <- _; by left|].
      destruct (is_list v'); simpl in H.
      * eapply IH; eauto. by rewrite flip_key_other.
      * eapply IH; eauto.
Qed.

(** When the loop ends without an exception, every list of [data] is
    reversed and no value of [data] is an array. *)
Lemma flip_data_done data d d' k v :
  flip_data data d = (d', None) -> NoDup data.*1 -> (k, v) ∈ data ->
  d !! k = Some v ->
  d' !! k = Some (flipped v) /\ is_numpy v = false.
Proof.
  revert d. induction data as [|[k' v'] data IH]; intros d H Hnd Hin Hd; simpl in *.
  - by apply elem_of_nil in Hin.
  - apply NoDup_cons in Hnd as [Hk' Hnd].
    apply elem_of_cons in Hin as [Heq|Hin].
    + injection Heq as -> ->.
      destruct (is_numpy v'); [discriminate|]. split; [|done].
      destruct (is_list v') eqn:Hl; simpl in H.
      * rewrite (flip_data_notin _ _ _ _ _ H Hk').
        destruct v'; try discriminate. by apply flip_key_list.
      * rewrite (flip_data_notin _ _ _ _ _ H Hk'). by destruct v'.
    + assert (k <> k').
      { intros ->. apply Hk'. apply list_elem_of_fmap. by exists (k', v). }
      destruct (is_numpy v'); [discriminate|].
      destruct (is_list v'); simpl in H.
      * eapply IH; eauto. by rewrite flip_key_other.
      * eapply IH; eauto.
Qed.

(** An array among the values of [data] ends the loop with the warning. *)
Lemma flip_data_numpy data d k v :
  (k, v) ∈ data -> is_numpy v = true -> exists d', flip_data data d = (d', Some Warning).
Proof.
  revert d. induction data as [|[k' v'] data IH]; intros d Hin Hv; simpl.
  - by apply elem_of_nil in Hin.
  - apply elem_of_cons in Hin as [Heq|Hin].
    + injection Heq as <- <-. rewrite Hv. eauto.
    + destruct (is_numpy v'); [eauto|].
      destruct (is_list v'); simpl; eauto.
Qed.

Lemma has_label_dec e target_label :
  has_label e target_label \/ ~ has_label e target_label.
Proof.
  unfold has_label. destruct (e_data e !! "hop_label") as [lab|]; [|right; intros (? & ? & _); done].
  destruct (py_eq lab target_label) eqn:H; [left; eauto|].
  right. intros (lab' & Hl & Hp). congruence.
Qed.

Lemma decorate_edge_effect target_label data m_path e e' err :
  NoDup data.*1 ->
  decorate_edge equiv target_label data m_path e = (e', err) ->
  edge_effect target_label data m_path e e' err.
Proof.
  intros Hnd H. unfold decorate_edge in H.
  destruct (e_data e !! "hop_label") as [lab|] eqn:Hlab.
  2:{ injection H as <- <-. split; auto.
      - intros k v (lab & Hl & _). congruence.
      - intros k v _ (lab & Hl & _). congruence. }
  destruct (py_eq lab target_label) eqn:Heq.
  2:{ injection H as <- <-. split; auto.
      - intros k v (lab' & Hl & Hpe). congruence.
      - intros k v _ (lab' & Hl & Hpe). congruence. }
  assert (Hhas : has_label e target_label) by (by exists lab).
  set (d := dict_update (e_data e) data) in *.
  assert (Hd : forall k v, (k, v) ∈ data -> d !! k = Some v).
  { intros k v Hin. by apply dict_update_in. }
  assert (Hplain : forall d0, disagrees equiv m_path d0 = false ->
            edge_effect target_label data m_path e (set_data e d0) err ->
            edge_effect target_label data m_path e (set_data e d0) err) by auto.
  destruct m_path as [m|].
  2:{ injection H as <- <-. split; simpl; auto.
      - tauto.
      - intros k Hk. by apply dict_update_notin. }
  destruct (d !! "hop") as [hv|] eqn:Hhop.
  2:{ injection H as <- <-. split; simpl; auto.
      - tauto.
      - intros k Hk. by apply dict_update_notin.
      - discriminate. }
  destruct hv as [| | | | | | | | |h];
    try (injection H as <- <-; split; simpl; auto;
         [tauto | intros k Hk; by apply dict_update_notin | discriminate]).
  destruct (equiv (symm_structure m) [isite m] [isite h]) eqn:Heqv; simpl in H.
  - injection H as <- <-. split; simpl; auto.
    + tauto.
    + intros k Hk. by apply dict_update_notin.
    + intros k v _ _ Hin. unfold disagrees. rewrite Hhop, Heqv. simpl. auto.
  - destruct (flip_data data d) as [d' err'] eqn:Hflip.
    injection H as <- <-.
    assert (Hdis : disagrees equiv (Some m) d' = true).
    { unfold disagrees.
      rewrite (flip_data_not_list _ _ _ _ _ _ Hflip Hhop eq_refl), Heqv. done. }
    split; cbn [e_data e_u e_v e_key set_data]; auto.
    + tauto.
    + intros k Hk. rewrite (flip_data_notin _ _ _ _ _ Hflip Hk).
      by apply dict_update_notin.
    + intros k v _ Hin.
      destruct (flip_data_in _ _ _ _ _ _ Hflip Hnd Hin (Hd _ _ Hin)) as [?|[? ?]];
        [by left|right; auto].
    + intros k v -> _ Hin. rewrite Hdis.
      by destruct (flip_data_done _ _ _ _ _ Hflip Hnd Hin (Hd _ _ Hin)).
Qed.

(** Each edge after the loop is as it was or as the loop body leaves it. *)
Lemma decorate_edges_effect target_label data m_path es es' err :
  decorate_edges equiv target_label data m_path es = (es', err) ->
  length es' = length es /\
  forall i e e', es !! i = Some e -> es' !! i = Some e' ->
    (err <> None /\ e' = e) \/
    exists err', decorate_edge equiv target_label data m_path e = (e', err') /\
                 (err = None -> err' = None).
Proof.
  revert es' err. induction es as [|e0 es IH]; intros es' err H; simpl in H.
  - injection H as <- <-. split; [done|]. intros i e e' Hi. by rewrite lookup_nil in Hi.
  - destruct (decorate_edge equiv target_label data m_path e0) as [e0' [err0|]] eqn:H0.
    + injection H as <- <-. split; [done|].
      intros [|i] e e' Hi Hi'; simpl in *.
      * injection Hi as <-. injection Hi' as <-. right. exists (Some err0). split; [done|discriminate].
      * left. split; [done|congruence].
    + destruct (decorate_edges equiv target_label data m_path es) as [rest' err1] eqn:H1.
      injection H as <- <-. destruct (IH _ _ eq_refl) as [Hlen Hrest].
      split; [simpl; congruence|].
      intros [|i] e e' Hi Hi'; simpl in *.
      * injection Hi as <-. injection Hi' as <-. right. exists None. auto.
      * eapply Hrest; eauto.
Qed.

(** C5: a call of [add_data_to_similar_edges] (with the keys of [data]
    pairwise distinct, as the keys of a dictionary are) leaves every edge
    whose label differs from [target_label] as it is; on an edge of the
    label it changes nothing under a key that is not in [data]; and where
    it changes the value under a key, the new value is the one of [data]
    or, only for a list and only on an edge whose hop disagrees with the
    reference path, its reversal.  When the call returns, every edge of
    the label holds the data, the lists reversed on the edges that
    disagree. *)
Theorem add_data_frame self target_label data m_path self' err :
  NoDup data.*1 ->
  add_data_to_similar_edges equiv self target_label data m_path = (self', err) ->
  name self' = name self /\ unique_hops self' = unique_hops self /\
  nodes (s_graph self') = nodes (s_graph self) /\
  length (edges_of self') = length (edges_of self) /\
  forall i e e', edges_of self !! i = Some e -> edges_of self' !! i = Some e' ->
    (e_u e', e_v e', e_key e') = (e_u e, e_v e, e_key e) /\
    (~ has_label e target_label -> e' = e) /\
    (forall k, k ∉ data.*1 -> e_data e' !! k = e_data e !! k) /\
    (forall k, e_data e' !! k <> e_data e !! k ->
       exists v, (k, v) ∈ data /\
         (e_data e' !! k = Some v \/
          (is_list v = true /\ disagrees equiv m_path (e_data e') = true /\
           e_data e' !! k = Some (flipped v)))) /\
    (err = None -> has_label e target_label -> forall k v, (k, v) ∈ data ->
       e_data e' !! k =
         Some (if disagrees equiv m_path (e_data e') then flipped v else v)).
Proof.
  intros Hnd H. unfold add_data_to_similar_edges in H.
  destruct (decorate_edges _ _ _ _ _) as [es' err'] eqn:Hes.
  injection H as <- <-. simpl.
  destruct (decorate_edges_effect _ _ _ _ _ _ Hes) as [Hlen Heach].
  do 4 (split; [done|]).
  intros i e e' Hi Hi'.
  destruct (Heach i e e' Hi Hi') as [[Herr ->]|(err0 & Hdec & Hnone)].
  - do 3 (split; [done|]). split; [congruence|]. intros ->. done.
  - pose proof (decorate_edge_effect _ _ _ _ _ _ Hnd Hdec) as [H1 H2 H3 H4 H5].
    do 3 (split; [done|]). split.
    + intros k Hk.
      destruct (decide (k ∈ data.*1)) as [Hin|Hnin]; [|by rewrite H3 in Hk].
      apply list_elem_of_fmap in Hin as ([k' v] & -> & Hin). simpl in *.
      exists v. split; [done|]. apply H4; [|done].
      destruct (has_label_dec e target_label) as [|Hno]; [done|].
      rewrite (H2 Hno) in Hk. done.
    + intros Hn Hhas k v Hin. apply H5; auto.
Qed.


Lemma decorate_edges_app target_label data m_path pre pre' rest :
  decorate_edges equiv target_label data m_path pre = (pre', None) ->
  decorate_edges equiv target_label data m_path (pre ++ rest) =
    let '(rest', err) := decorate_edges equiv target_label data m_path rest in
    (pre' ++ rest', err).
Proof.
  revert pre'. induction pre as [|e pre IH]; intros pre' H; simpl in *.
  - injection H as <-. by destruct (decorate_edges _ _ _ _ _).
  - destruct (decorate_edge equiv target_label data m_path e) as [e' [err|]]; [done|].
    destruct (decorate_edges equiv target_label data m_path pre) as [p err] eqn:Hp.
    injection H as <- ->. rewrite (IH p eq_refl).
    by destruct (decorate_edges _ _ _ _ rest).
Qed.

(** C6: when the loop of [add_data_to_similar_edges], called with a
    reference path, reaches an edge of the label whose hop disagrees with
    the reference, a numpy value among the data makes the call raise
    [Warning]: the call does not return. *)
Theorem array_data_raises self target_label data m pre pre' e post h k v :
  edges (s_graph self) = pre ++ e :: post ->
  decorate_edges equiv target_label data (Some m) pre = (pre', None) ->
  has_label e target_label ->
  dict_update (e_data e) data !! "hop" = Some (VHop h) ->
  equiv (symm_structure m) [isite m] [isite h] = false ->
  (k, v) ∈ data -> is_numpy v = true ->
  exists e',
    add_data_to_similar_edges equiv self target_label data (Some m) =
      (set_edges self (pre' ++ e' :: post), Some Warning).
Proof.
  intros Hes Hpre (lab & Hlab & Heq) Hhop Hne Hin Hv.
  destruct (flip_data_numpy data (dict_update (e_data e) data) k v Hin Hv)
    as [d' Hflip].
  exists (set_data e d').
  unfold add_data_to_similar_edges. rewrite Hes.
  rewrite (decorate_edges_app _ _ _ _ _ _ Hpre). simpl.
  unfold decorate_edge. rewrite Hlab, Heq, Hhop, Hne. simpl. rewrite Hflip. done.
Qed.

(** With no reference path and a label on every edge, the call raises
    nothing and sets the cost on the edges of the label. *)
Lemma decorate_edges_cost target_label c es :
  Forall (fun e => is_Some (e_data e !! "hop_label")) es ->
  decorate_edges equiv target_label [("cost"%string, c)] None es =
    (set_cost target_label c <$> es, None).
Proof.
  induction 1 as [|e es [lab Hlab] _ IH]; simpl; [done|].
  rewrite IH. unfold decorate_edge, set_cost, label_matches. rewrite Hlab.
  by destruct (py_eq lab target_label).
Qed.

Lemma has_label_matches e k : has_label e k <-> label_matches e k = true.
Proof.
  unfold has_label, label_matches. split.
  - intros (lab & -> & H). done.
  - destruct (e_data e !! "hop_label") as [lab|]; [eauto|done].
Qed.

Lemma np_prod_floats vals xs :
  mapM float_value vals = Some xs ->
  np_prod vals = Ok (VNpFloat (prod_list xs)).
Proof.
  intros H. unfold np_prod.
  assert (Hn : mapM np_number_of vals = Some (NpFloat <$> xs)).
  { revert xs H. induction vals as [|v vals IH]; intros xs H.
    - injection H as <-. done.
    - simpl in H. destruct (float_value v) as [x|] eqn:Hx; [|done]. simpl in H.
      destruct (mapM float_value vals) as [xs'|]; [|done]. injection H as <-.
      simpl. rewrite (IH _ eq_refl).
      by destruct v; try discriminate; injection Hx as ->. }
  rewrite Hn.
  replace (float_of <$> (NpFloat <$> xs)) with xs.
  - by destruct xs.
  - rewrite <- list_fmap_compose. symmetry. by apply list_fmap_id.
Qed.

Lemma getitems_mapM d ks xs :
  mapM (fun ik => d !! ik ≫= float_value) ks = Some xs ->
  (vals ← getitems d ks; np_prod vals) = Ok (VNpFloat (prod_list xs)).
Proof.
  intros H.
  assert (exists vals, getitems d ks = Ok vals /\ mapM float_value vals = Some xs)
    as (vals & Hg & Hm).
  { revert xs H. induction ks as [|k ks IH]; intros xs H.
    - injection H as <-. by exists [].
    - simpl in H.
      destruct (d !! k) as [v|] eqn:Hv; [|done]. simpl in H.
      destruct (float_value v) as [x|] eqn:Hx; [|done]. simpl in H.
      destruct (mapM _ ks) as [xs'|] eqn:Hxs; [|done]. injection H as <-.
      destruct (IH _ eq_refl) as (vals & Hg & Hm).
      exists (v :: vals). simpl. unfold getitem. rewrite Hv. simpl. rewrite Hg. simpl.
      split; [done|]. rewrite Hx. simpl. by rewrite Hm. }
  rewrite Hg. simpl. by apply np_prod_floats.
Qed.

Lemma has_label_same e e' k :
  e_data e' !! "hop_label" = e_data e !! "hop_label" ->
  has_label e' k <-> has_label e k.
Proof. unfold has_label. by intros ->. Qed.

Lemma has_label_two e k k' :
  has_label e k -> has_label e k' -> py_eq k k' = true.
Proof.
  intros (lab & Hl & H) (lab' & Hl' & H'). rewrite Hl in Hl'. injection Hl' as <-.
  eapply py_eq_trans; [by apply py_eq_sym|done].
Qed.

Section loop.
Variable cost_keys : list string.
Variable self0 : FullPathMapper.
Hypothesis Hwf : unique_hops_wf self0.
Hypothesis Hlabels :
  Forall (fun e => is_Some (e_data e !! "hop_label")) (edges (s_graph self0)).
Hypothesis Hcosts : forall k ref, (k, ref) ∈ unique_hops self0 ->
  is_Some (cost_product (hop_dict (edges (s_graph self0)) ref) cost_keys).

Local Abbreviation costed := (costed cost_keys self0).
Local Abbreviation costed_ends := (costed_ends cost_keys self0).
Local Abbreviation costed_keys := (costed_keys cost_keys self0).
Local Abbreviation costed_same := (costed_same cost_keys self0).
Local Abbreviation costed_cost := (costed_cost cost_keys self0).

Lemma costed_label done e e' k : costed done e e' -> has_label e' k <-> has_label e k.
Proof. intros H. apply has_label_same. by apply (costed_keys _ _ _ H). Qed.

Lemma assign_cost_loop_costed items : forall done cur,
  unique_hops self0 = done ++ items ->
  Forall2 (costed done) (edges (s_graph self0)) (edges (s_graph cur)) ->
  exists self',
    assign_cost_loop equiv cost_keys items cur = (self', None) /\
    name self' = name cur /\ unique_hops self' = unique_hops cur /\
    nodes (s_graph self') = nodes (s_graph cur) /\
    Forall2 (costed (unique_hops self0)) (edges (s_graph self0)) (edges (s_graph self')).
Proof.
  destruct Hwf as [Hdistinct Hrep].
  induction items as [|[k ref] rest IH]; intros done cur Huh Hcur.
  - rewrite app_nil_r in Huh. subst done. exists cur. simpl. auto.
  - simpl.
    assert (Hin : (k, ref) ∈ unique_hops self0).
    { rewrite Huh. apply elem_of_app. right. apply elem_of_cons. by left. }
    assert (Hat : unique_hops self0 !! length done = Some (k, ref)).
    { rewrite Huh. by rewrite list_lookup_middle. }
    assert (Hfresh : forall k' r', (k', r') ∈ done -> py_eq k' k = false).
    { intros k' r' Hd. apply list_elem_of_lookup in Hd as [i Hi].
      destruct (py_eq k' k) eqn:Hpe; [|done]. exfalso.
      pose proof (lookup_lt_Some _ _ _ Hi) as Hlt.
      assert (i = length done); [|lia].
      eapply Hdistinct; [|exact Hat|exact Hpe].
      rewrite Huh. by rewrite lookup_app_l. }
    destruct (Hrep k ref Hin) as (e & He & Hek).
    destruct (Forall2_lookup_l _ _ _ _ _ Hcur He) as (e' & He' & Hee').
    assert (e' = e) as ->.
    { apply (costed_same _ _ _ Hee'). intros k' r' Hd Hek'.
      pose proof (has_label_two _ _ _ Hek' Hek). rewrite (Hfresh _ _ Hd) in H. done. }
    assert (Hdict : hop_dict (edges (s_graph cur)) ref = hop_dict (edges (s_graph self0)) ref).
    { unfold hop_dict. by rewrite He, He'. }
    destruct (Hcosts k ref Hin) as [c Hc].
    rewrite Hdict.
    unfold cost_product in Hc.
    destruct (mapM _ cost_keys) as [xs|] eqn:Hxs; [|done]. simpl in Hc. injection Hc as <-.
    rewrite (getitems_mapM _ _ _ Hxs).
    unfold add_data_to_similar_edges.
    rewrite decorate_edges_cost.
    2:{ apply Forall_forall. intros x Hx. apply list_elem_of_lookup in Hx as [i Hi].
        destruct (Forall2_lookup_r _ _ _ _ _ Hcur Hi) as (x0 & Hx0 & Hxx).
        rewrite (costed_keys _ _ _ Hxx) by done.
        eapply (proj1 (Forall_lookup _ _) Hlabels); eauto. }
    destruct (IH (done ++ [(k, ref)])
                 (set_edges cur (set_cost k (VNpFloat (prod_list xs)) <$> edges (s_graph cur))))
      as (self' & Hloop & Hn & Hu & Hnodes & Hfinal).
    + by rewrite <- app_assoc.
    + cbn [edges s_graph set_edges]. apply Forall2_fmap_r.
      eapply Forall2_impl; [exact Hcur|].
      intros x x' Hxx. unfold compose, set_cost.
      destruct (label_matches x' k) eqn:Hm.
      * apply has_label_matches in Hm. apply (costed_label _ _ _ _ Hxx) in Hm.
        split; simpl.
        -- apply (costed_ends _ _ _ Hxx).
        -- intros key Hkey. rewrite lookup_insert_ne by done. by apply (costed_keys _ _ _ Hxx).
        -- intros Hno. exfalso. apply (Hno k ref); [|done].
           apply elem_of_app. right. by apply list_elem_of_singleton.
        -- intros k' r' Hd Hk'.
           assert ((k', r') = (k, ref)) as [= -> ->].
           { pose proof (has_label_two _ _ _ Hk' Hm) as Hpe.
             apply elem_of_app in Hd as [Hd|Hd].
             - rewrite (Hfresh _ _ Hd) in Hpe. done.
             - by apply list_elem_of_singleton in Hd. }
           exists (prod_list xs). unfold cost_product. rewrite Hxs. simpl.
           split; [done|]. apply lookup_insert_eq.
      * assert (Hnot : ~ has_label x k).
        { rewrite <- (costed_label _ _ _ _ Hxx), has_label_matches. congruence. }
        split.
        -- apply (costed_ends _ _ _ Hxx).
        -- apply (costed_keys _ _ _ Hxx).
        -- intros Hno. apply (costed_same _ _ _ Hxx). intros k' r' Hd. apply (Hno k' r').
           apply elem_of_app. by left.
        -- intros k' r' Hd Hk'. apply elem_of_app in Hd as [Hd|Hd].
           ++ by apply (costed_cost _ _ _ Hxx k' r').
           ++ apply list_elem_of_singleton in Hd. injection Hd as -> ->. done.
    + exists self'. rewrite Hloop. auto.
Qed.
End loop.

Lemma Forall2_costed_nil self cost_keys :
  Forall2 (costed cost_keys self []) (edges_of self) (edges_of self).
Proof.
  apply Forall_Forall2_diag, Forall_forall. intros e _. split; auto.
  intros k ref Hin. by apply elem_of_nil in Hin.
Qed.

(** On a well-formed mapper the call returns, and each edge stands to
    what it was as [costed] says for all the labels. *)
Lemma assign_cost_costed self cost_keys :
  unique_hops_wf self ->
  Forall (fun e => is_Some (e_data e !! "hop_label")) (edges_of self) ->
  (forall k ref, (k, ref) ∈ unique_hops self ->
     is_Some (cost_product (hop_dict (edges_of self) ref) cost_keys)) ->
  exists self',
    assign_cost_to_graph equiv self cost_keys = (self', None) /\
    unique_hops self' = unique_hops self /\
    Forall2 (costed cost_keys self (unique_hops self))
            (edges_of self) (edges_of self').
Proof.
  intros Hwf Hlab Hcost.
  destruct (assign_cost_loop_costed cost_keys self Hwf Hlab Hcost
              (unique_hops self) [] self eq_refl (Forall2_costed_nil _ _))
    as (self' & Hrun & _ & Huh & _ & Hall).
  exists self'. auto.
Qed.






End decoration_proofs.

Lemma add_data_frame_witness :
  let data := [("chg"%string, VList [1; 2; 3]%Q); ("note"%string, VStr "x")] in
  let r := add_data_to_similar_edges Example.same_position Example.mapper
             (VInt 0) data (Some Example.hop_ab) in
  r.2 = None /\
  edges_of r.1 !! 2%nat ≫= (fun e => e_data e !! "chg") = Some (VList [3; 2; 1]%Q) /\
  forall i e e', edges_of Example.mapper !! i = Some e -> edges_of r.1 !! i = Some e' ->
    (~ has_label e (VInt 0) -> e' = e) /\
    (forall k, k ∉ data.*1 -> e_data e' !! k = e_data e !! k).
Proof.
  intros data r. split; [reflexivity|]. split; [reflexivity|].
  intros i e e' Hi Hi'.
  destruct (add_data_frame Example.same_position Example.mapper (VInt 0) data
              (Some Example.hop_ab) r.1 r.2) as (_ & _ & _ & _ & H).
  - apply NoDup_cons. split; [|apply NoDup_singleton].
    intros H'. apply list_elem_of_singleton in H'. discriminate H'.
  - apply surjective_pairing.
  - destruct (H i e e' Hi Hi') as (_ & H1 & H2 & _). split; assumption.
Defined.

Lemma array_data_raises_witness :
  exists e',
    add_data_to_similar_edges Example.same_position Example.mapper (VInt 0)
      [("chg"%string, VNdarray [1; 2; 3]%Q)] (Some Example.hop_ab) =
    (set_edges Example.mapper
       ([set_data Example.e0
           (<["chg" := VNdarray [1; 2; 3]%Q]> (e_data Example.e0));
         Example.e1] ++ e' :: []),
     Some Warning).
Proof.
  apply (array_data_raises Example.same_position Example.mapper (VInt 0)
           [("chg"%string, VNdarray [1; 2; 3]%Q)] Example.hop_ab
           [Example.e0; Example.e1] _ Example.e2 [] Example.hop_ba
           "chg"%string (VNdarray [1; 2; 3]%Q)).
  - reflexivity.
  - reflexivity.
  - exists (VInt 0). split; reflexivity.
  - reflexivity.
  - reflexivity.
  - apply list_elem_of_singleton. reflexivity.
  - reflexivity.
Defined.



(** ** The dictionary of unique hops *)

Lemma py_eq_refl v : plain_label v = true -> py_eq v v = true.
Proof.
  destruct v; try done; intros _; unfold py_eq; simpl;
    first [apply Qeq_bool_refl | by apply bool_decide_eq_true_2 | done].
Qed.

Lemma fresh_keys_distinct items : fresh_keys items -> distinct_keys items.
Proof.
  induction 1 as [|k ref items Hk _ IH]; intros i j ki kj ri rj Hi Hj Hp.
  - by rewrite lookup_nil in Hi.
  - destruct i as [|i], j as [|j]; simpl in *.
    + done.
    + injection Hi as <- <-. rewrite (Hk kj rj) in Hp; [done|].
      apply list_elem_of_lookup. eauto.
    + injection Hj as <- <-. apply py_eq_sym in Hp.
      rewrite (Hk ki ri) in Hp; [done|]. apply list_elem_of_lookup. eauto.
    + f_equal. eapply IH; eauto.
Qed.

Lemma dict_set_elem items k ref k' r' :
  py_eq k k = true ->
  (k', r') ∈ dict_set items k ref ->
  (py_eq k' k = true /\ r' = ref) \/ (k', r') ∈ items.
Proof.
  intros Hk. induction items as [|[k0 r0] items IH]; simpl.
  - intros [= -> ->]%list_elem_of_singleton. by left.
  - destruct (py_eq k0 k) eqn:H0.
    + intros [[= -> ->]|Hin]%elem_of_cons; [by left|].
      right. apply elem_of_cons. by right.
    + intros [[= -> ->]|Hin]%elem_of_cons.
      * right. apply elem_of_cons. by left.
      * destruct (IH Hin) as [?|?]; [by left|]. right. apply elem_of_cons. by right.
Qed.

Lemma dict_set_has items k ref :
  py_eq k k = true ->
  exists k', (k', ref) ∈ dict_set items k ref /\ py_eq k' k = true.
Proof.
  intros Hk. induction items as [|[k0 r0] items (k' & Hin & Hp)]; simpl.
  - exists k. split; [by apply list_elem_of_singleton|done].
  - destruct (py_eq k0 k) eqn:H0.
    + exists k0. split; [apply elem_of_cons; by left|done].
    + exists k'. split; [apply elem_of_cons; by right|done].
Qed.

Lemma dict_set_keeps items k ref k' r' :
  (k', r') ∈ items -> exists r'', (k', r'') ∈ dict_set items k ref.
Proof.
  induction items as [|[k0 r0] items IH]; simpl; [by intros ?%elem_of_nil|].
  intros [[= -> ->]|Hin]%elem_of_cons.
  - destruct (py_eq k0 k); eexists; apply elem_of_cons; by left.
  - destruct (py_eq k0 k).
    + exists r'. apply elem_of_cons. by right.
    + destruct (IH Hin) as [r'' ?]. exists r''. apply elem_of_cons. by right.
Qed.

Lemma dict_set_fresh items k ref :
  py_eq k k = true -> fresh_keys items -> fresh_keys (dict_set items k ref).
Proof.
  intros Hk. induction 1 as [|k0 r0 items H0 Hf IH]; simpl.
  - constructor; [|constructor]. intros k' r' Hin. by apply elem_of_nil in Hin.
  - destruct (py_eq k0 k) eqn:Hp.
    + by constructor.
    + constructor; [|done]. intros k' r' Hin.
      destruct (dict_set_elem _ _ _ _ _ Hk Hin) as [[Hk' _]|Hin']; [|by apply (H0 k' r')].
      destruct (py_eq k0 k') eqn:H0'; [|done].
      rewrite (py_eq_trans _ _ _ H0' Hk') in Hp. done.
Qed.

(** What [collect_unique_hops] builds from the edges it is given. *)
Lemma collect_unique_hops_spec rest : forall seen items uh,
  Forall (fun re => forall lab, e_data re.2 !! "hop_label" = Some lab ->
                      plain_label lab = true) rest ->
  collect_unique_hops rest items = Ok uh ->
  fresh_keys items -> represented seen items -> covered seen items ->
  fresh_keys uh /\ represented (seen ++ rest) uh /\ covered (seen ++ rest) uh.
Proof.
  induction rest as [|[ref e] rest IH]; intros seen items uh Hplain Hrun Hfresh Hrep Hcov;
    simpl in Hrun.
  - injection Hrun as <-. by rewrite app_nil_r.
  - apply Forall_cons in Hplain as [Hp Hplain]. simpl in Hp.
    unfold getitem in Hrun. destruct (e_data e !! "hop_label") as [lab|] eqn:Hlab; [|done].
    simpl in Hrun. pose proof (Hp lab eq_refl) as Hpl.
    assert (Hh : hashable lab = Ok lab) by (by destruct lab).
    rewrite Hh in Hrun. simpl in Hrun.
    pose proof (py_eq_refl lab Hpl) as Hrefl.
    assert (Hlabel : forall k', py_eq k' lab = true -> has_label e k').
    { intros k' Hk'. exists lab. split; [done|]. by apply py_eq_sym. }
    replace (seen ++ (ref, e) :: rest) with ((seen ++ [(ref, e)]) ++ rest)
      by (by rewrite <- app_assoc).
    apply (IH _ (dict_set items lab ref)); [done|done|by apply dict_set_fresh| |].
    + intros k r Hin. destruct (dict_set_elem _ _ _ _ _ Hrefl Hin) as [[Hk ->]|Hold].
      * exists e. split; [|by apply Hlabel]. apply elem_of_app. right.
        by apply list_elem_of_singleton.
      * destruct (Hrep k r Hold) as (e' & He' & Hl). exists e'.
        split; [apply elem_of_app; by left|done].
    + intros ref' e' [Hin|[= -> ->]%list_elem_of_singleton]%elem_of_app.
      * destruct (Hcov _ _ Hin) as (k & r & Hkr & Hl).
        destruct (dict_set_keeps _ lab ref _ _ Hkr) as [r'' Hr'']. eauto.
      * destruct (dict_set_has items lab ref Hrefl) as (k' & Hin' & Hp'). eauto.
Qed.

Lemma index_edge_spec e e' :
  index_edge e = Ok e' ->
  (e_u e', e_v e', e_key e') = (e_u e, e_v e, e_key e) /\
  e_data e' !! "hop_label" = e_data e !! "hop_label" /\
  exists m, e_data e !! "hop" = Some (VHop m) /\
            e_data e' !! "hop" = Some (VHop m) /\
            e_data e' !! "hop_distance" = Some (VFloat (hop_length m)).
Proof.
  unfold index_edge, getitem. rewrite !lookup_insert_ne by done.
  destruct (e_data e !! "hop") as [[| | | | | | | | |m]|] eqn:Hhop; try done.
  simpl. intros [= <-]. simpl. split; [done|]. split.
  - by rewrite !lookup_insert_ne.
  - exists m. split; [done|]. split.
    + by rewrite !lookup_insert_ne.
    + by rewrite lookup_insert_eq.
Qed.

Lemma index_edges_Forall2 l l' :
  index_edges l = Ok l' ->
  Forall2 (fun re re' => re'.1 = re.1 /\ index_edge re.2 = Ok re'.2) l l'.
Proof.
  revert l'. induction l as [|[ref e] l IH]; intros l' H; simpl in H.
  - injection H as <-. constructor.
  - destruct (index_edge e) as [e'|] eqn:He; [|done]. simpl in H.
    destruct (index_edges l) as [l0|] eqn:Hl; [|done]. simpl in H.
    injection H as <-. constructor; [done|]. by apply IH.
Qed.

Lemma populate_unique_hops_spec es es' uh :
  _populate_unique_hops_dict es = Ok (es', uh) ->
  Forall (fun e => forall lab, e_data e !! "hop_label" = Some lab ->
                     plain_label lab = true) es ->
  Forall2 (fun e e' => index_edge e = Ok e') es es' /\
  fresh_keys uh /\
  (forall k ref, (k, ref) ∈ uh ->
     exists e', es' !! ref = Some e' /\ has_label e' k) /\
  (forall e', e' ∈ es' -> exists k r, (k, r) ∈ uh /\ has_label e' k).
Proof.
  unfold _populate_unique_hops_dict. intros H Hplain.
  destruct (index_edges _) as [ihop_data'|] eqn:Hix; [|done]. simpl in H.
  destruct (collect_unique_hops _ _) as [items|] eqn:Hcol; [|done]. simpl in H.
  injection H as <- <-.
  apply index_edges_Forall2 in Hix.
  apply Forall2_reverse in Hix. rewrite reverse_involutive in Hix.
  rewrite <- fmap_reverse.
  set (L := reverse ihop_data') in *.
  assert (Hpoint : forall i e, es !! i = Some e ->
            exists e', L !! i = Some (i, e') /\ index_edge e = Ok e').
  { intros i e He.
    assert (Hi : imap (fun i e => (i, e)) es !! i = Some (i, e)).
    { rewrite list_lookup_imap, He. done. }
    destruct (Forall2_lookup_l _ _ _ _ _ Hix Hi) as ([r e'] & HL & Hr & He').
    simpl in *. subst r. eauto. }
  assert (Hlen : length L = length es).
  { rewrite <- (Forall2_length _ _ _ Hix). by rewrite length_imap. }
  assert (Hmem : forall ref e', (ref, e') ∈ ihop_data' <-> (snd <$> L) !! ref = Some e').
  { intros ref e'. rewrite <- (elem_of_reverse _ ihop_data'). fold L. split.
    - intros [i Hi]%list_elem_of_lookup.
      pose proof (lookup_lt_Some _ _ _ Hi) as Hlt. rewrite Hlen in Hlt.
      destruct (lookup_lt_is_Some_2 es i Hlt) as [e He].
      destruct (Hpoint i e He) as (e0 & HL & _). rewrite HL in Hi.
      injection Hi as <- <-. by rewrite list_lookup_fmap, HL.
    - rewrite list_lookup_fmap. destruct (L !! ref) as [[r e0]|] eqn:HL; [|done].
      simpl. intros [= <-].
      pose proof (lookup_lt_Some _ _ _ HL) as Hlt. rewrite Hlen in Hlt.
      destruct (lookup_lt_is_Some_2 es ref Hlt) as [e He].
      destruct (Hpoint ref e He) as (e1 & HL' & _). rewrite HL' in HL.
      injection HL as <- <-. apply list_elem_of_lookup. eauto. }
  assert (Hes' : Forall2 (fun e e' => index_edge e = Ok e') es (snd <$> L)).
  { apply Forall2_same_length_lookup. split; [by rewrite length_fmap|].
    intros i e e' He He'. destruct (Hpoint i e He) as (e0 & HL & Hi).
    rewrite list_lookup_fmap, HL in He'. by injection He' as <-. }
  split; [done|].
  destruct (collect_unique_hops_spec ihop_data' [] [] items) as (Hf & Hrep & Hcov).
  - apply Forall_forall. intros [ref e'] Hin lab Hlab. simpl in Hlab.
    apply Hmem in Hin. destruct (Forall2_lookup_r _ _ _ _ _ Hes' Hin) as (e & He & Hi).
    apply index_edge_spec in Hi as (_ & Hl & _). rewrite Hl in Hlab.
    eapply (proj1 (Forall_lookup _ _) Hplain); eauto.
  - done.
  - constructor.
  - intros k ref Hin. by apply elem_of_nil in Hin.
  - intros ref e Hin. by apply elem_of_nil in Hin.
  - simpl in *. split; [done|]. split.
    + intros k ref Hin. destruct (Hrep k ref Hin) as (e' & He' & Hl).
      exists e'. split; [by apply Hmem|done].
    + intros e' [i Hi]%list_elem_of_lookup. apply (Hcov i e'). by apply Hmem.
Qed.

Section populated.
Variable equiv : SymmetrizedStructure -> list PeriodicSite -> list PeriodicSite -> bool.

Lemma cost_product_distance d x :
  d !! "hop_distance" = Some (VFloat x) ->
  cost_product d ["hop_distance"%string] = Some x.
Proof. intros H. unfold cost_product. simpl. by rewrite H. Qed.

Lemma populated_costs name ns es es' uh :
  _populate_unique_hops_dict es = Ok (es', uh) ->
  Forall (fun e => forall lab, e_data e !! "hop_label" = Some lab ->
                     plain_label lab = true) es ->
  let self := mkMapper name (mkGraph ns es') uh in
  unique_hops_wf self /\
  exists self',
    assign_cost_to_graph equiv self ["hop_distance"%string] = (self', None) /\
    length (edges_of self') = length es /\
    forall e', e' ∈ edges_of self' ->
      exists k ref rep m,
        (k, ref) ∈ uh /\ has_label e' k /\ es' !! ref = Some rep /\
        e_data rep !! "hop" = Some (VHop m) /\
        e_data e' !! "cost" = Some (VNpFloat (hop_length m)).
Proof.
  intros Hrun Hplain self.
  destruct (populate_unique_hops_spec _ _ _ Hrun Hplain) as (Hix & Hfresh & Hrep & Hcov).
  assert (Hwf : unique_hops_wf self).
  { split; [by apply fresh_keys_distinct|exact Hrep]. }
  assert (Hdist : forall k ref, (k, ref) ∈ uh ->
            exists rep m, es' !! ref = Some rep /\ has_label rep k /\
              e_data rep !! "hop" = Some (VHop m) /\
              cost_product (hop_dict es' ref) ["hop_distance"%string] = Some (hop_length m)).
  { intros k ref Hin. destruct (Hrep k ref Hin) as (rep & Hr & Hl).
    destruct (Forall2_lookup_r _ _ _ _ _ Hix Hr) as (e & He & Hi).
    apply index_edge_spec in Hi as (_ & _ & m & _ & Hhop & Hd).
    exists rep, m. repeat split; try done.
    apply cost_product_distance. unfold hop_dict. by rewrite Hr. }
  split; [exact Hwf|].
  destruct (assign_cost_costed equiv self ["hop_distance"%string] Hwf)
    as (self' & Hcall & _ & Hall).
  { apply Forall_forall. intros e' He'.
    destruct (Hcov e' He') as (k & r & _ & lab & Hlab & _). by exists lab. }
  { intros k ref Hin. destruct (Hdist k ref Hin) as (rep & m & _ & _ & _ & Hc).
    simpl. rewrite Hc. eauto. }
  exists self'. split; [exact Hcall|]. split.
  { rewrite <- (Forall2_length _ _ _ Hall). simpl. symmetry. by eapply Forall2_length. }
  intros e'' [i Hi]%list_elem_of_lookup.
  destruct (Forall2_lookup_r _ _ _ _ _ Hall Hi) as (e' & He' & Hee).
  simpl in He'.
  destruct (Hcov e') as (k & r & Hkr & Hl); [apply list_elem_of_lookup; eauto|].
  destruct (Hdist k r Hkr) as (rep & m & Hr & _ & Hhop & Hc).
  destruct (costed_cost _ _ _ _ _ Hee k r Hkr Hl) as (c & Hc' & Hcost).
  simpl in Hc'. rewrite Hc in Hc'. injection Hc' as <-.
  exists k, r, rep, m. repeat split; try done.
  by apply (costed_label _ _ _ _ _ _ Hee).
Qed.

(** Once [_populate_unique_hops_dict] has returned (on edges whose labels
    are of the kinds [group_and_label_hops] gives), [unique_hops] is well
    formed, and [assign_cost_to_graph] with its default key raises nothing
    and gives every edge, for its cost, the length of the hop of the edge
    that stands for its label. *)
Theorem populated_mapper_costs name ns es es' uh :
  _populate_unique_hops_dict es = Ok (es', uh) ->
  Forall (fun e => forall lab, e_data e !! "hop_label" = Some lab ->
                     plain_label lab = true) es ->
  let self := mkMapper name (mkGraph ns es') uh in
  unique_hops_wf self /\
  exists self',
    assign_cost_to_graph equiv self ["hop_distance"%string] = (self', None) /\
    length (edges_of self') = length es /\
    forall e', e' ∈ edges_of self' ->
      exists k ref rep m,
        (k, ref) ∈ uh /\ has_label e' k /\ es' !! ref = Some rep /\
        e_data rep !! "hop" = Some (VHop m) /\
        e_data e' !! "cost" = Some (VNpFloat (hop_length m)).
Proof. exact (populated_costs name ns es es' uh). Qed.

End populated.

(** ** The constructor *)


Lemma inner_step_length {A} (comp : A -> A -> bool) list_in i1 st i2 :
  length (Groupby.inner_step comp list_in i1 st i2).1 = length st.1.
Proof.
  destruct st as [out num]. unfold Groupby.inner_step.
  destruct (list_in !! i1), (list_in !! i2); try done.
  destruct (comp _ _); [|done].
  destruct (out !! i2) as [[|]|]; try done; simpl.
  - by rewrite length_insert.
  - destruct (out !! i1); [|done]. simpl. by rewrite length_insert.
Qed.

Lemma foldl_length_preserved {S B} (f : S -> B -> S) (len : S -> nat) l s :
  (forall s x, len (f s x) = len s) -> len (foldl f s l) = len s.
Proof.
  intros Hf. revert s. induction l as [|x l IH]; intros s; simpl; [done|].
  by rewrite IH.
Qed.

Lemma outer_step_length {A} (comp : A -> A -> bool) list_in st i1 :
  length (Groupby.outer_step comp list_in st i1).1 = length st.1.
Proof.
  destruct st as [out num]. unfold Groupby.outer_step.
  destruct (out !! i1) as [[|]|]; try done.
  pose proof (foldl_length_preserved (Groupby.inner_step comp list_in i1)
                (fun st => length st.1) (seq (S i1) (length out - S i1))
                (<[i1 := Some num]> out, num)
                (fun s x => inner_step_length comp list_in i1 s x)) as H.
  destruct (foldl _ _ _) as [out' num']. simpl in *.
  by rewrite H, length_insert.
Qed.

(** [generic_groupby] returns one slot for each item, whatever the
    comparator. *)
Lemma generic_groupby_length {A} (comp : A -> A -> bool) list_in :
  length (Groupby.generic_groupby comp list_in) = length list_in.
Proof.
  unfold Groupby.generic_groupby.
  pose proof (foldl_length_preserved (Groupby.outer_step comp list_in)
                (fun st => length st.1) (seq 0 (length list_in))
                (replicate (length list_in) None, 0)
                (fun s x => outer_step_length comp list_in s x)) as H.
  simpl in H. rewrite H. apply length_replicate.
Qed.

Lemma plain_label_value l : plain_label (label_value l) = true.
Proof. by destruct l. Qed.

Lemma set_hop_labels_plain es : forall labs,
  Forall (fun e => is_Some (e_data e !! "hop")) es ->
  (length es <= length labs)%nat ->
  Forall (fun e => exists l, e_data e !! "hop_label" = Some (label_value l) /\
                             is_Some (e_data e !! "hop"))
         (set_hop_labels es labs).
Proof.
  induction es as [|e es IH]; intros labs Hall Hlen; simpl; [constructor|].
  apply Forall_cons in Hall as [[h Hh] Hall]. rewrite Hh.
  destruct labs as [|l labs]; [simpl in Hlen; lia|].
  constructor.
  - exists l. simpl. rewrite lookup_insert_eq. split; [done|].
    rewrite lookup_insert_ne by done. by rewrite Hh.
  - apply IH; [done|]. simpl in Hlen. lia.
Qed.

Section construction_wf.
Variable equiv : SymmetrizedStructure -> list PeriodicSite -> list PeriodicSite -> bool.
Variable get_el_sp : value -> result string.
Variable analyzer : Type.
Variable SpacegroupAnalyzer : Structure -> Q -> result analyzer.
Variable get_symmetrized_structure : analyzer -> result SymmetrizedStructure.
Variable Structure_from_sites :
  list PeriodicSite -> list (list Q) -> result Structure.
Variable with_local_env_strategy : Structure -> Q -> result graph.
Variable new_MigrationPath :
  PeriodicSite -> PeriodicSite -> SymmetrizedStructure -> result MigrationPath.
Variable hop_eq : MigrationPath -> MigrationPath -> bool.

Lemma populate_edges_hops only_sites symm es es1 :
  populate_edges_with_migration_paths new_MigrationPath only_sites symm es = Ok es1 ->
  Forall (fun e => is_Some (e_data e !! "hop")) es1.
Proof.
  revert es1. induction es as [|e es IH]; intros es1 H; simpl in H.
  - injection H as <-. constructor.
  - destruct (_get_pos_and_migration_path _ _ _ e) as [e'|] eqn:He; [|done].
    simpl in H.
    destruct (populate_edges_with_migration_paths _ _ _ es) as [es'|] eqn:Hes; [|done].
    simpl in H. injection H as <-. constructor; [|by apply IH].
    unfold _get_pos_and_migration_path in He.
    repeat ok_bind He.
    injection He as <-. simpl. rewrite lookup_insert_eq. eauto.
Qed.

Lemma group_and_label_hops_plain es :
  Forall (fun e => is_Some (e_data e !! "hop")) es ->
  Forall (fun e => forall lab, e_data e !! "hop_label" = Some lab ->
                     plain_label lab = true)
         (group_and_label_hops hop_eq es).
Proof.
  intros Hall. unfold group_and_label_hops.
  eapply Forall_impl.
  - apply set_hop_labels_plain; [done|].
    rewrite generic_groupby_length.
    clear -Hall. induction Hall as [|e es [h Hh] _ IH]; simpl; [done|].
    rewrite Hh. simpl. apply le_n_S. exact IH.
  - intros e (l & Hl & _) lab Hlab. rewrite Hl in Hlab. injection Hlab as <-.
    apply plain_label_value.
Qed.

(** The same for a mapper as the constructor returns it. *)
Theorem constructed_mapper_costs structure migrating_specie max_path_length
    symprec name self :
  __init__ get_el_sp analyzer SpacegroupAnalyzer get_symmetrized_structure
    Structure_from_sites with_local_env_strategy new_MigrationPath hop_eq
    structure migrating_specie max_path_length symprec false name = Ok self ->
  unique_hops_wf self /\
  exists self',
    assign_cost_to_graph equiv self ["hop_distance"%string] = (self', None) /\
    length (edges_of self') = length (edges_of self) /\
    forall e', e' ∈ edges_of self' ->
      exists k ref rep m,
        (k, ref) ∈ unique_hops self /\ has_label e' k /\
        edges_of self !! ref = Some rep /\
        e_data rep !! "hop" = Some (VHop m) /\
        e_data e' !! "cost" = Some (VNpFloat (hop_length m)).
Proof.
  unfold __init__. intros H.
  destruct (get_el_sp _) as [specie|]; [|done]. simpl in H.
  destruct (SpacegroupAnalyzer _ _) as [a|]; [|done]. simpl in H.
  destruct (get_symmetrized_structure _) as [symm|]; [|done]. simpl in H.
  destruct (get_only_sites _ _ _) as [only_sites|]; [|done]. simpl in H.
  destruct (with_local_env_strategy _ _) as [g|]; [|done]. simpl in H.
  destruct (populate_edges_with_migration_paths _ _ _ _) as [es1|] eqn:Hpop; [|done].
  simpl in H.
  destruct (_populate_unique_hops_dict _) as [[es' uh]|] eqn:Hun; [|done].
  simpl in H. injection H as <-.
  pose proof (group_and_label_hops_plain es1 (populate_edges_hops _ _ _ _ Hpop)) as Hplain.
  destruct (populated_costs equiv name (nodes g) _ es' uh Hun Hplain)
    as (Hwf & self' & Hcall & Hlen & Hall).
  split; [exact Hwf|]. exists self'. split; [exact Hcall|]. split; [|exact Hall].
  rewrite Hlen. simpl.
  destruct (populate_unique_hops_spec _ _ _ Hun Hplain) as (Hix & _).
  by eapply Forall2_length.
Qed.

End construction_wf.

Lemma populated_mapper_costs_witness :
  exists es' uh self',
    _populate_unique_hops_dict (edges_of Example.mapper) = Ok (es', uh) /\
    unique_hops_wf (mkMapper None (mkGraph [0; 1]%nat es') uh) /\
    assign_cost_to_graph Example.same_position
      (mkMapper None (mkGraph [0; 1]%nat es') uh) ["hop_distance"%string]
    = (self', None).
Proof.
  eexists _, _.
  assert (H : _populate_unique_hops_dict (edges_of Example.mapper) = Ok (_, _))
    by reflexivity.
  destruct (populated_mapper_costs Example.same_position None [0; 1]%nat
              _ _ _ H) as (Hwf & self' & Hcall & _).
  - repeat constructor; intros lab Hlab; vm_compute in Hlab;
      injection Hlab as <-; reflexivity.
  - exists self'. split; [exact H|]. split; [exact Hwf|exact Hcall].
Defined.

Lemma constructed_mapper_costs_witness :
  exists self self',
    __init__ Example.parse_specie Structure Example.analyze Example.symmetrize
      Example.from_sites Example.neighbours Example.make_hop
      Example.same_length Example.chain (VStr "Li") 10 (1 # 10) false None
    = Ok self /\
    unique_hops self = [(VInt 0, 0%nat); (VInt 1, 1%nat)] /\
    assign_cost_to_graph Example.same_position self ["hop_distance"%string]
    = (self', None).
Proof.
  eexists.
  assert (H : __init__ Example.parse_specie Structure Example.analyze
                Example.symmetrize Example.from_sites Example.neighbours
                Example.make_hop Example.same_length Example.chain (VStr "Li")
                10 (1 # 10) false None = Ok _) by reflexivity.
  destruct (constructed_mapper_costs Example.same_position _ _ _ _ _ _ _ _
              _ _ _ _ _ _ H) as (_ & self' & Hcall & _).
  exists self'. split; [exact H|]. split; [reflexivity|exact Hcall].
Defined.

(** ** Path reconstruction *)

Lemma scan_edge_data_filter (cands : list (nat * dict)) image_diff path_hops found_ :
  Forall (fun d => exists t, d !! "to_jimage" = Some (VTuple t)) (snd <$> cands) ->
  let hits := filter (fun d => image_matches image_diff d = true) (snd <$> cands) in
  scan_edge_data cands image_diff path_hops found_ =
    Ok (path_hops ++ hits, (found_ + length hits)%nat).
Proof.
  revert path_hops found_.
  induction cands as [|[k d] cands IH]; intros path_hops found_ Hall; simpl.
  - by rewrite app_nil_r, Nat.add_0_r.
  - simpl in Hall. apply Forall_cons in Hall as [[t Ht] Hall].
    assert (Him : image_matches image_diff d =
              bool_decide (t = jtuple image_diff ∨ t = jtuple (jneg image_diff))).
    { unfold image_matches. by rewrite Ht. }
    unfold to_jimage, getitem. rewrite Ht. simpl.
    destruct (bool_decide _) eqn:Hb.
    + rewrite filter_cons_True by done. rewrite IH by done. simpl.
      rewrite <- app_assoc. simpl. do 2 f_equal. symmetry. apply Nat.add_succ_r.
    + rewrite filter_cons_False by (rewrite Him; done). by rewrite IH.
Qed.

Lemma reconstruct_step_matching GG path_hops s1 s2 :
  images_present GG s1 s2 ->
  reconstruct_step GG path_hops s1 s2 =
    if bool_decide (length (matching_edges GG s1 s2) ≠ 1%nat)
    then Raise RuntimeError
    else Ok (path_hops ++ matching_edges GG s1 s2).
Proof.
  intros Hall. destruct s1 as [idx1 jimage1], s2 as [idx2 jimage2].
  unfold reconstruct_step. unfold images_present, edges_between in Hall. simpl in Hall.
  rewrite (scan_edge_data_filter _ _ _ _ Hall). simpl. done.
Qed.

Lemma reconstruct_loop_matching GG pairs : forall path_hops,
  Forall (fun p => images_present GG p.1 p.2) pairs ->
  (reconstruct_loop GG path_hops pairs = Raise RuntimeError <->
   Exists (fun p => length (matching_edges GG p.1 p.2) ≠ 1%nat) pairs) /\
  (Forall (fun p => length (matching_edges GG p.1 p.2) = 1%nat) pairs ->
   reconstruct_loop GG path_hops pairs =
     Ok (path_hops ++ concat ((fun p => matching_edges GG p.1 p.2) <$> pairs))).
Proof.
  induction pairs as [|[s1 s2] pairs IH]; intros path_hops Hall.
  - simpl. split.
    + split; [done|]. intros H. by apply Exists_nil in H.
    + intros _. by rewrite app_nil_r.
  - apply Forall_cons in Hall as [H1 Hall]. simpl in H1. simpl.
    rewrite (reconstruct_step_matching _ _ _ _ H1).
    case_bool_decide as Hlen; simpl.
    + split.
      * split; [intros _|done]. apply Exists_cons. by left.
      * intros HF. apply Forall_cons in HF as [HF _]. done.
    + destruct (IH (path_hops ++ matching_edges GG s1 s2) Hall) as [IH1 IH2].
      split.
      * rewrite IH1. rewrite Exists_cons. simpl. tauto.
      * intros HF. apply Forall_cons in HF as [_ HF].
        rewrite (IH2 HF). by rewrite app_assoc.
Qed.

(** ** Path reconstruction on the pruned copy *)

Lemma cut_edges_filter es max_val cut :
  cut_edges es max_val = Ok cut ->
  cut = (fun e => (e_u e, e_v e, e_key e)) <$>
          filter (fun e => cost_within max_val e = false) es /\
  Forall (fun e => cost_exceeds (e_data e) max_val =
                     Ok (negb (cost_within max_val e))) es.
Proof.
  revert cut. induction es as [|e es IH]; intros cut H; simpl in H.
  - injection H as <-. by split.
  - ok_bind H. ok_bind H. injection H as <-.
    destruct (IH _ eq_refl) as [-> Hall].
    assert (He : a = negb (cost_within max_val e)).
    { unfold cost_exceeds, getitem in E. unfold cost_within.
      destruct (e_data e !! "cost") as [v|]; [|done]. simpl in E.
      destruct (num_of v) as [x|]; [|done]. injection E as <-.
      unfold Qgt_bool. done. }
    split.
    + subst a. destruct (cost_within max_val e) eqn:Hc; simpl.
      * by rewrite filter_cons_False by (rewrite Hc; done).
      * by rewrite filter_cons_True by done.
    + constructor; [by rewrite E, He|done].
Qed.

Lemma filter_iff_in {A} (P1 P2 : A -> Prop) `{!forall x, Decision (P1 x)}
    `{!forall x, Decision (P2 x)} (l : list A) :
  (forall x, x ∈ l -> P1 x <-> P2 x) -> filter P1 l = filter P2 l.
Proof.
  induction l as [|a l IH]; intros Hiff; [done|].
  assert (Ha : P1 a <-> P2 a) by (apply Hiff, elem_of_cons; by left).
  assert (Hl : filter P1 l = filter P2 l).
  { apply IH. intros x Hx. apply Hiff, elem_of_cons. by right. }
  destruct (decide (P1 a)) as [H1|H1].
  - rewrite !filter_cons_True by tauto. by rewrite Hl.
  - rewrite !filter_cons_False by tauto. exact Hl.
Qed.

Lemma remove_edges_filter cut : forall g,
  edges (foldl remove_edge g cut) =
    filter (fun e => (e_u e, e_v e, e_key e) ∉ cut) (edges g).
Proof.
  induction cut as [|uvk cut IH]; intros g; simpl.
  - induction (edges g) as [|e es IHes]; [done|].
    rewrite filter_cons_True by apply not_elem_of_nil. by rewrite <- IHes.
  - rewrite IH. simpl. rewrite list_filter_filter.
    apply list_filter_iff. intros e. rewrite not_elem_of_cons. tauto.
Qed.

Lemma keyed_inj (es : list edge) e e' :
  NoDup ((fun e => (e_u e, e_v e, e_key e)) <$> es) ->
  e ∈ es -> e' ∈ es ->
  (e_u e, e_v e, e_key e) = (e_u e', e_v e', e_key e') -> e = e'.
Proof.
  intros Hnd He He' Heq.
  apply list_elem_of_lookup in He as [i Hi], He' as [j Hj].
  assert (i = j) as ->.
  { eapply NoDup_lookup; [exact Hnd| |].
    - rewrite list_lookup_fmap, Hi. reflexivity.
    - rewrite list_lookup_fmap, Hj. simpl. by rewrite Heq. }
  congruence.
Qed.

(** The edges of the copy the search runs on are the edges of the graph
    whose cost does not exceed [max_val], in their order. *)
Lemma trimmed_pruned self max_val GG :
  keyed (s_graph self) ->
  trimmed (s_graph self) max_val = Ok GG ->
  edges GG = pruned_edges self max_val.
Proof.
  intros Hnd H. unfold trimmed in H. ok_bind H. injection H as <-.
  destruct (cut_edges_filter _ _ _ E) as [-> _].
  rewrite remove_edges_filter. unfold pruned_edges.
  apply filter_iff_in. intros e He. split.
  - intros Hnot. destruct (cost_within max_val e) eqn:Hc; [done|].
    exfalso. apply Hnot. apply list_elem_of_fmap. exists e. split; [done|].
    apply list_elem_of_filter. by split.
  - intros Hc (e' & Heq & He')%list_elem_of_fmap.
    apply list_elem_of_filter in He' as [Hc' He'].
    assert (e = e') as <- by (by eapply keyed_inj).
    congruence.
Qed.

Lemma jtuple_difference jimage1 jimage2 t :
  (t = jtuple (jsub jimage2 jimage1) \/ t = jtuple (jneg (jsub jimage2 jimage1))) <->
  plus_or_minus_difference jimage1 jimage2 t.
Proof.
  destruct jimage1 as [[a1 b1] c1], jimage2 as [[a2 b2] c2]. simpl. done.
Qed.

(** The edges the loop matches are the edges of the count. *)
Lemma matching_edges_joining GG s1 s2 :
  matching_edges GG s1 s2 = e_data <$> joining_edges (edges GG) s1 s2.
Proof.
  unfold matching_edges, edges_between, get_edge_data, joining_edges.
  rewrite <- list_fmap_compose.
  induction (edges GG) as [|e es IH]; [done|].
  destruct (decide (e_u e = Nat.min s1.1 s2.1 /\ e_v e = Nat.max s1.1 s2.1))
    as [Hends|Hends].
  - rewrite (filter_cons_True (fun e => e_u e = _ ∧ e_v e = _)) by done.
    rewrite fmap_cons. unfold compose at 1. simpl.
    assert (Hiff : image_matches (jsub s2.2 s1.2) (e_data e) = true <->
                   joins_states s1 s2 e).
    { unfold image_matches, joins_states.
      destruct (e_data e !! "to_jimage") as [v|] eqn:Hv.
      - destruct v as [| | | |t| | | | |];
          try (split; [done|by intros (_ & _ & t' & [=] & _)]).
        rewrite bool_decide_eq_true, jtuple_difference. split.
        + intros H. destruct Hends. eauto.
        + by intros (_ & _ & t' & [= <-] & H).
      - split; [done|intros (_ & _ & t' & [=] & _)]. }
    destruct (decide (joins_states s1 s2 e)) as [Hj|Hj].
    + rewrite filter_cons_True by (by apply Hiff).
      rewrite (filter_cons_True (joins_states s1 s2)) by done.
      rewrite fmap_cons. f_equal. exact IH.
    + rewrite filter_cons_False by (by rewrite Hiff).
      rewrite (filter_cons_False (joins_states s1 s2)) by done. exact IH.
  - rewrite (filter_cons_False (fun e => e_u e = _ ∧ e_v e = _)) by done.
    rewrite (filter_cons_False (joins_states s1 s2)).
    + exact IH.
    + intros (? & ? & _). by apply Hends.
Qed.

Lemma images_present_all GG s1 s2 :
  Forall (fun e => exists t, e_data e !! "to_jimage" = Some (VTuple t)) (edges GG) ->
  images_present GG s1 s2.
Proof.
  intros Hall. unfold images_present, edges_between, get_edge_data.
  rewrite <- list_fmap_compose. apply Forall_fmap, Forall_forall.
  intros e He. apply list_elem_of_filter in He as [_ He].
  by apply (proj1 (Forall_forall _ _) Hall).
Qed.

Lemma fmap_concat {A B} (f : A -> B) (ls : list (list A)) :
  f <$> concat ls = concat ((fun l : list A => f <$> l) <$> ls).
Proof.
  induction ls as [|l ls IH]; [done|]. simpl. by rewrite fmap_app, IH.
Qed.

Section pruned_copy.
Variable parent_map : Type.
Variable parent_keys : parent_map -> list pstate.
Variable periodic_dijkstra : graph -> nat -> (pstate -> option Q) * parent_map.
Variable get_optimal_pathway_rev : parent_map -> pstate -> list pstate.

(** C3, as amended.  The graph holds one edge for each [(u, v, key)] and
    a tuple under ["to_jimage"] on each edge, and for the node [u] the
    body of the loop of [get_intercollating_path] has pruned the copy
    [GG] and selected [path].  Then for every pair of consecutive states
    the reconstruction raises [RuntimeError] exactly when the number of
    edges of the pruned copy (the edges whose cost does not exceed
    [max_val]) from the smaller to the larger node whose [to_jimage] is
    plus or minus the difference of the images is not one, and with
    exactly one such edge its dictionary is appended to the hops; for
    the node, [RuntimeError] is raised exactly when some pair of the
    path has not exactly one such edge, and otherwise the hops are the
    dictionaries of those edges, in order. *)
Theorem reconstruct_raises_iff_not_one self max_val u GG best_ans path_parent
    x rest kx path :
  keyed (s_graph self) ->
  Forall (fun e => exists t, e_data e !! "to_jimage" = Some (VTuple t))
         (edges_of self) ->
  trimmed (s_graph self) max_val = Ok GG ->
  periodic_dijkstra GG u = (best_ans, path_parent) ->
  collect_paths parent_map get_optimal_pathway_rev u path_parent
    (parent_keys path_parent) = Ok (x :: rest) ->
  path_key best_ans x = Ok kx ->
  min_path best_ans kx x rest = Ok path ->
  let count s1 s2 := length (joining_edges (pruned_edges self max_val) s1 s2) in
  (forall path_hops s1 s2,
     (reconstruct_step GG path_hops s1 s2 = Raise RuntimeError <->
      count s1 s2 <> 1%nat) /\
     (forall e, joining_edges (pruned_edges self max_val) s1 s2 = [e] ->
        reconstruct_step GG path_hops s1 s2 = Ok (path_hops ++ [e_data e]))) /\
  (path_from_node parent_map parent_keys periodic_dijkstra
     get_optimal_pathway_rev self max_val u = Raise RuntimeError <->
   Exists (fun p => count p.1 p.2 <> 1%nat) (consecutive path)) /\
  (Forall (fun p => count p.1 p.2 = 1%nat) (consecutive path) ->
   path_from_node parent_map parent_keys periodic_dijkstra
     get_optimal_pathway_rev self max_val u =
     Ok (Some (u, e_data <$> concat ((fun p =>
                  joining_edges (pruned_edges self max_val) p.1 p.2)
                <$> consecutive path)))).
Proof.
  intros Hkeyed Himg Htrim Hsearch Hcollect Hkey Hmin count.
  pose proof (trimmed_pruned _ _ _ Hkeyed Htrim) as Hedges.
  assert (HimgGG : Forall (fun e => exists t, e_data e !! "to_jimage" = Some (VTuple t))
                          (edges GG)).
  { rewrite Hedges. unfold pruned_edges. apply Forall_forall. intros e He.
    apply list_elem_of_filter in He as [_ He].
    by apply (proj1 (Forall_forall _ _) Himg). }
  assert (Hcount : forall s1 s2,
            length (matching_edges GG s1 s2) = count s1 s2).
  { intros s1 s2. unfold count. rewrite matching_edges_joining, Hedges.
    apply length_fmap. }
  assert (Hrun : path_from_node parent_map parent_keys periodic_dijkstra
                   get_optimal_pathway_rev self max_val u =
                 (path_hops ← reconstruct GG path; Ok (Some (u, path_hops)))).
  { unfold path_from_node. rewrite Htrim. simpl. rewrite Hsearch.
    rewrite Hcollect. simpl. rewrite Hkey. simpl. by rewrite Hmin. }
  destruct (reconstruct_loop_matching GG (consecutive path) [])
    as [Hraise Hok].
  { apply Forall_forall. intros p _. by apply images_present_all. }
  split; [|split].
  - intros path_hops s1 s2.
    rewrite (reconstruct_step_matching GG path_hops s1 s2)
      by (by apply images_present_all).
    rewrite Hcount. split.
    + case_bool_decide; [done|]. split; [done|]. intros; done.
    + intros e He. rewrite matching_edges_joining, Hedges, He. simpl.
      rewrite bool_decide_eq_false_2; [done|].
      unfold count. rewrite He. simpl. intros H. by apply H.
  - rewrite Hrun. unfold reconstruct.
    destruct (reconstruct_loop GG [] (consecutive path)) as [hops|err] eqn:Hloop;
      simpl.
    + split; [done|]. intros Hex. exfalso.
      assert (Hr : @Ok (list dict) hops = Raise RuntimeError); [|done].
      apply Hraise. eapply Exists_impl; [exact Hex|].
      intros p Hp. simpl in Hp. by rewrite Hcount.
    + split.
      * intros [= ->]. destruct Hraise as [Hraise _].
        eapply Exists_impl; [by apply Hraise|].
        intros p Hp. simpl in Hp. by rewrite <- Hcount.
      * intros Hex. f_equal.
        assert (Hr : @Raise (list dict) err = Raise RuntimeError); [|congruence].
        apply Hraise. eapply Exists_impl; [exact Hex|].
        intros p Hp. simpl in Hp. by rewrite Hcount.
  - intros Hall. rewrite Hrun. unfold reconstruct. rewrite Hok.
    + simpl. do 3 f_equal.
      rewrite fmap_concat. f_equal.
      rewrite <- list_fmap_compose. apply list_fmap_ext.
      intros i p _. simpl. by rewrite matching_edges_joining, Hedges.
    + eapply Forall_impl; [exact Hall|]. intros p Hp. simpl in Hp.
      by rewrite Hcount.
Qed.

End pruned_copy.

Lemma twin_mapper_keyed : keyed (s_graph Example.twin_mapper).
Proof.
  unfold keyed. simpl.
  repeat (apply NoDup_cons; split;
          [rewrite ?not_elem_of_cons; repeat split;
           (discriminate || apply not_elem_of_nil)|]).
  apply NoDup_nil. done.
Qed.

Lemma reconstruct_raises_iff_not_one_witness :
  path_from_node _ Example.table_keys Example.twin_table Example.table_path
    Example.twin_mapper 100 0 =
  Ok (Some (0%nat, [e_data Example.p0; e_data Example.p1])).
Proof.
  destruct (reconstruct_raises_iff_not_one _ Example.table_keys Example.twin_table
              Example.table_path Example.twin_mapper 100 0%nat
              (mkGraph [0; 1]%nat [Example.p0; Example.p1])
              (fun s => if bool_decide (s = (0%nat, (1, 1, 0))) then Some 5%Q else None)
              [((0%nat, (1, 1, 0)),
                [(0%nat, (1, 1, 0)); (1%nat, (1, 0, 0)); (0%nat, jzero)])]
              [(0%nat, jzero); (1%nat, (1, 0, 0)); (0%nat, (1, 1, 0))] [] 5%Q
              [(0%nat, jzero); (1%nat, (1, 0, 0)); (0%nat, (1, 1, 0))])
    as (_ & _ & H).
  - exact twin_mapper_keyed.
  - repeat constructor; eexists; reflexivity.
  - reflexivity.
  - reflexivity.
  - reflexivity.
  - reflexivity.
  - reflexivity.
  - rewrite H; [reflexivity|]. repeat constructor.
Defined.

(** The claim C3 as the specification states it counts the edges of the
    graph of the mapper.  Here two edges of that graph join the last two
    states of the path with plus or minus the difference of their
    images, so the count is two; the costlier one is cut from the copy
    for [max_val = 100], and the generator raises nothing and yields the
    path.  With [max_val = 100000] both edges stay in the copy and the
    generator raises [RuntimeError]. *)
Lemma reconstruct_counts_pruned_copy :
  let run := get_intercollating_path _ Example.table_keys Example.twin_table
               Example.table_path Example.twin_mapper in
  let s1 : pstate := (1%nat, (1, 0, 0)) in
  let s2 : pstate := (0%nat, (1, 1, 0)) in
  joining_edges (edges_of Example.twin_mapper) s1 s2 = [Example.p1; Example.p2] /\
  joining_edges (pruned_edges Example.twin_mapper 100) s1 s2 = [Example.p1] /\
  raised (run 100%Q) = None /\
  yielded (run 100%Q) = [(0%nat, [e_data Example.p0; e_data Example.p1])] /\
  raised (run 100000%Q) = Some RuntimeError /\
  yielded (run 100000%Q) = [].
Proof. repeat split; reflexivity. Qed.

(** C9: the diagnostic that opens [get_intercollating_path] compares
    [len(self.unique_hops)] with itself: whatever the mapper, it logs
    nothing, and the generator goes on to the search. *)
Theorem hop_count_check_silent self :
  hop_count_check self = [] /\
  forall parent_map parent_keys periodic_dijkstra get_optimal_pathway_rev max_val,
    logged (get_intercollating_path parent_map parent_keys periodic_dijkstra
              get_optimal_pathway_rev self max_val) = [] /\
    (yielded (get_intercollating_path parent_map parent_keys periodic_dijkstra
                get_optimal_pathway_rev self max_val),
     raised (get_intercollating_path parent_map parent_keys periodic_dijkstra
               get_optimal_pathway_rev self max_val)) =
    paths_from_nodes parent_map parent_keys periodic_dijkstra
      get_optimal_pathway_rev self max_val (nodes (s_graph self)).
Proof.
  assert (H : hop_count_check self = []).
  { unfold hop_count_check. by rewrite Nat.eqb_refl. }
  split; [exact H|]. intros. unfold get_intercollating_path.
  destruct (paths_from_nodes _ _ _ _ _ _ _) as [ys err]. simpl. by rewrite H.
Qed.

(** ** The hops of a yielded path *)

Lemma scan_edge_data_subset cands : forall image_diff path_hops found_ hops' found',
  scan_edge_data cands image_diff path_hops found_ = Ok (hops', found') ->
  forall d, d ∈ hops' -> d ∈ path_hops \/ d ∈ cands.*2.
Proof.
  induction cands as [|[k tmp_d] cands IH]; intros image_diff path_hops found_ hops' found' H d Hd;
    simpl in H.
  - injection H as <- <-. by left.
  - ok_bind H. destruct (bool_decide _).
    + destruct (IH _ _ _ _ _ H d Hd) as [Hin|Hin].
      * apply elem_of_app in Hin as [?|Hin]; [by left|].
        apply list_elem_of_singleton in Hin as ->. right. simpl. apply elem_of_cons. by left.
      * right. simpl. apply elem_of_cons. by right.
    + destruct (IH _ _ _ _ _ H d Hd) as [Hin|Hin]; [by left|].
      right. simpl. apply elem_of_cons. by right.
Qed.

Lemma get_edge_data_edges GG u v d :
  d ∈ (get_edge_data GG u v).*2 -> exists e, e ∈ edges GG /\ e_data e = d.
Proof.
  unfold get_edge_data. rewrite <- list_fmap_compose.
  intros (e & -> & He)%list_elem_of_fmap. apply list_elem_of_filter in He as [_ He].
  by exists e.
Qed.

Lemma reconstruct_step_subset GG path_hops s1 s2 hops' :
  reconstruct_step GG path_hops s1 s2 = Ok hops' ->
  forall d, d ∈ hops' -> d ∈ path_hops \/ exists e, e ∈ edges GG /\ e_data e = d.
Proof.
  destruct s1 as [idx1 jimage1], s2 as [idx2 jimage2]. unfold reconstruct_step.
  intros H d Hd. ok_bind H. destruct a as [hops found_].
  destruct (bool_decide _); [done|]. injection H as <-.
  destruct (scan_edge_data_subset _ _ _ _ _ _ E d Hd) as [?|Hin]; [by left|].
  right. by eapply get_edge_data_edges.
Qed.

Lemma reconstruct_loop_subset GG pairs : forall path_hops hops',
  reconstruct_loop GG path_hops pairs = Ok hops' ->
  forall d, d ∈ hops' -> d ∈ path_hops \/ exists e, e ∈ edges GG /\ e_data e = d.
Proof.
  induction pairs as [|[s1 s2] pairs IH]; intros path_hops hops' H d Hd; simpl in H.
  - injection H as <-. by left.
  - ok_bind H. destruct (IH _ _ H d Hd) as [Hin|?]; [|by right].
    by eapply reconstruct_step_subset.
Qed.

Lemma cut_edges_spec es max_val cut :
  cut_edges es max_val = Ok cut ->
  forall e, e ∈ es ->
    (cost_exceeds (e_data e) max_val = Ok true /\ (e_u e, e_v e, e_key e) ∈ cut) \/
    cost_exceeds (e_data e) max_val = Ok false.
Proof.
  revert cut. induction es as [|e0 es IH]; intros cut H e He; simpl in H.
  - by apply elem_of_nil in He.
  - ok_bind H. ok_bind H. injection H as <-.
    apply elem_of_cons in He as [->|He].
    + destruct a; [left|by right]. split; [done|]. apply elem_of_cons. by left.
    + destruct (IH _ eq_refl e He) as [[? ?]|?]; [left|by right].
      split; [done|]. destruct a; [apply elem_of_cons; by right|done].
Qed.

Lemma remove_edges_spec cut : forall g e,
  e ∈ edges (foldl remove_edge g cut) ->
  e ∈ edges g /\ (e_u e, e_v e, e_key e) ∉ cut.
Proof.
  induction cut as [|c cut IH]; intros g e He; simpl in He.
  - split; [done|]. by intros ?%elem_of_nil.
  - destruct (IH _ _ He) as [Hin Hcut]. simpl in Hin.
    apply list_elem_of_filter in Hin as [Hne Hin]. split; [done|].
    intros [?|?]%elem_of_cons; [by apply Hne|by apply Hcut].
Qed.

Lemma remove_edges_nodes cut : forall g, nodes (foldl remove_edge g cut) = nodes g.
Proof.
  induction cut as [|c cut IH]; intros g; simpl; [done|]. by rewrite IH.
Qed.

(** The trimmed copy keeps the nodes, and keeps of the edges only some
    whose cost does not exceed [max_val]. *)
Lemma trimmed_spec g max_val GG :
  trimmed g max_val = Ok GG ->
  nodes GG = nodes g /\
  forall e, e ∈ edges GG ->
    e ∈ edges g /\ cost_exceeds (e_data e) max_val = Ok false.
Proof.
  unfold trimmed. intros H. ok_bind H. injection H as <-.
  split; [apply remove_edges_nodes|]. intros e He.
  destruct (remove_edges_spec _ _ _ He) as [Hin Hcut]. split; [done|].
  destruct (cut_edges_spec _ _ _ E e Hin) as [[_ ?]|?]; done.
Qed.

Section intercollating_proofs.
Variable parent_map : Type.
Variable parent_keys : parent_map -> list pstate.
Variable periodic_dijkstra : graph -> nat -> (pstate -> option Q) * parent_map.
Variable get_optimal_pathway_rev : parent_map -> pstate -> list pstate.

Local Abbreviation from_nodes :=
  (paths_from_nodes parent_map parent_keys periodic_dijkstra
     get_optimal_pathway_rev).
Local Abbreviation from_node :=
  (path_from_node parent_map parent_keys periodic_dijkstra
     get_optimal_pathway_rev).

Lemma path_from_node_hops self max_val u y :
  from_node self max_val u = Ok (Some y) ->
  y.1 = u /\
  forall d, d ∈ y.2 ->
    exists e, e ∈ edges_of self /\ e_data e = d /\
              cost_exceeds d max_val = Ok false.
Proof.
  unfold path_from_node. intros H. ok_bind H.
  destruct (periodic_dijkstra a u) as [best_ans path_parent].
  ok_bind H. destruct a0 as [|x rest]; [done|].
  ok_bind H. ok_bind H. ok_bind H. injection H as <-. simpl.
  split; [done|]. intros d Hd.
  destruct (reconstruct_loop_subset _ _ _ _ E3 d Hd) as [Hin|(e & He & <-)].
  - by apply elem_of_nil in Hin.
  - destruct (trimmed_spec _ _ _ E) as [_ Hsub].
    destruct (Hsub e He) as [Hin Hc]. eauto.
Qed.

(** Every path [get_intercollating_path] yields starts at a node of the
    graph, and each of its hops is the dictionary of an edge of the graph
    whose cost does not exceed [max_val]. *)
Theorem yielded_hops_are_edges self max_val u path_hops :
  (u, path_hops) ∈
    yielded (get_intercollating_path parent_map parent_keys periodic_dijkstra
               get_optimal_pathway_rev self max_val) ->
  u ∈ nodes (s_graph self) /\
  forall d, d ∈ path_hops ->
    exists e, e ∈ edges_of self /\ e_data e = d /\
              cost_exceeds d max_val = Ok false.
Proof.
  unfold get_intercollating_path.
  destruct (from_nodes self max_val (nodes (s_graph self))) as [ys err] eqn:Hys.
  simpl. revert ys err Hys.
  induction (nodes (s_graph self)) as [|u0 us IH]; intros ys err Hys Hin; simpl in Hys.
  - injection Hys as <- _. by apply elem_of_nil in Hin.
  - destruct (from_node self max_val u0) as [[y|]|] eqn:Hy.
    + destruct (from_nodes self max_val us) as [ys' err'] eqn:Hrest.
      injection Hys as <- <-. apply elem_of_cons in Hin as [<-|Hin].
      * destruct (path_from_node_hops _ _ _ _ Hy) as [Hu Hd]. simpl in *. subst u0.
        split; [apply elem_of_cons; by left|done].
      * destruct (IH _ _ eq_refl Hin) as [? ?]. split; [apply elem_of_cons; by right|done].
    + destruct (IH _ _ Hys Hin) as [? ?]. split; [apply elem_of_cons; by right|done].
    + injection Hys as <- _. by apply elem_of_nil in Hin.
Qed.

End intercollating_proofs.

Example get_intercollating_path_example :
  yielded (get_intercollating_path _ Example.table_keys Example.search_table
             Example.table_path Example.costed_mapper 100) =
  [(0%nat, [<["cost" := VNpFloat 2]> (e_data Example.e0);
            <["cost" := VNpFloat 3]> (e_data Example.e1)])].
Proof. reflexivity. Qed.

Lemma yielded_hops_are_edges_witness :
  0%nat ∈ nodes (s_graph Example.costed_mapper) /\
  forall d,
    d ∈ [<["cost" := VNpFloat 2]> (e_data Example.e0);
         <["cost" := VNpFloat 3]> (e_data Example.e1)] ->
    exists e, e ∈ edges_of Example.costed_mapper /\ e_data e = d /\
              cost_exceeds d 100 = Ok false.
Proof.
  apply (yielded_hops_are_edges _ Example.table_keys Example.search_table
           Example.table_path Example.costed_mapper 100 0%nat).
  apply list_elem_of_singleton. reflexivity.
Defined.

(** ** Re-ordering of a path *)

Example modify_one_mid :
  modify_one elements Example.path_mid =
  Ok [(1, 2, Example.inside); (2, 0, Example.back); (0, 1, Example.inside)]%nat.
Proof. reflexivity. Qed.

Example modify_one_first :
  modify_one elements Example.path_first =
  Ok [(2, 1, Example.inside); (1, 0, Example.inside); (0, 2, Example.across)]%nat.
Proof. reflexivity. Qed.

Lemma opp_zero (t : list Z) : Z.opp <$> t = [0; 0; 0] <-> t = [0; 0; 0].
Proof.
  split.
  - destruct t as [|a [|b [|c [|]]]]; try discriminate.
    intros [= Ha Hb Hc]. f_equal; [lia|]. f_equal; [lia|]. f_equal; lia.
  - by intros ->.
Qed.

Lemma reversed_hop_kind h t :
  h.2 !! "to_jimage" = Some (VTuple t) ->
  exists h', reversed_hop h = Ok h' /\ h'.1.1 = h.1.2 /\ h'.1.2 = h.1.1 /\ same_kind h h'.
Proof.
  destruct h as [[u v] info]. simpl. intros Ht.
  unfold reversed_hop, to_jimage, getitem. rewrite Ht. simpl.
  eexists. split; [done|]. split; [done|]. split; [done|].
  unfold same_kind, staysb, crossesb. simpl. rewrite lookup_insert_eq, Ht.
  split; apply bool_decide_ext; [|apply not_iff_compat]; apply opp_zero.
Qed.

Lemma kind_image (h : hop) :
  staysb h = true \/ crossesb h = true -> exists t, h.2 !! "to_jimage" = Some (VTuple t).
Proof.
  unfold staysb, crossesb. destruct (h.2 !! "to_jimage") as [[]|]; intros [?|?]; try done; eauto.
Qed.

(** The walk over a chain puts each hop, or its reversal, where the hop
    was; the hops it puts down are of the kind of the hops they come from,
    and are ordered from the start. *)
Lemma walk_chained q : forall start m_path,
  chained start q ->
  Forall (fun h => stays h \/ crosses h) q ->
  exists q', walk start m_path q = Ok (m_path ++ q') /\
             Forall2 same_kind q q' /\ ordered start q' /\
             Forall2 (fun h h' => h' = h \/ reversed_hop h = Ok h') q q'.
Proof.
  induction q as [|h q IH]; intros start m_path Hch Hall; simpl.
  - exists []. by rewrite app_nil_r.
  - apply Forall_cons in Hall as [Hh Hall].
    destruct (kind_image h Hh) as [t Ht].
    destruct Hch as [(Hu & Hv & Hch)|(Hv & Hu & Hch)].
    + rewrite (bool_decide_eq_true_2 _ Hu), (bool_decide_eq_false_2 _ Hv). simpl.
      rewrite last_snoc.
      destruct (IH _ (m_path ++ [h]) Hch Hall) as (q' & Hw & Hq' & Hord & Hrev).
      exists (h :: q'). rewrite Hw, <- app_assoc. split; [done|].
      split; [by constructor|]. split; [done|].
      constructor; [by left|done].
    + rewrite (bool_decide_eq_false_2 _ Hu), (bool_decide_eq_true_2 _ Hv).
      destruct (reversed_hop_kind h t Ht) as (h' & Hr & H1 & H2 & Hk).
      rewrite Hr. simpl. rewrite last_snoc. rewrite H2.
      destruct (IH _ (m_path ++ [h']) Hch Hall) as (q' & Hw & Hq' & Hord & Hrev).
      exists (h' :: q'). rewrite Hw, <- app_assoc. split; [done|].
      split; [by constructor|]. split; [simpl; rewrite H1, H2; done|].
      constructor; [by right|done].
Qed.

Lemma boundary_last_kind q q' :
  Forall2 same_kind q q' -> boundary_last q -> boundary_last q'.
Proof.
  intros HF (front & h & -> & Hfront & Hh).
  apply Forall2_app_inv_l in HF as (front' & l' & HF1 & HF2 & ->).
  apply Forall2_cons_inv_l in HF2 as (h' & nil' & [_ Hk] & Hnil & ->).
  apply Forall2_nil_inv_l in Hnil as ->.
  exists front', h'. split; [done|]. split.
  - clear -HF1 Hfront. induction HF1 as [|x y l l' [Hs _] _ IH]; [done|].
    apply Forall_cons in Hfront as [Hx Hl]. constructor; [|by apply IH].
    unfold stays in *. congruence.
  - unfold crosses in *. congruence.
Qed.

Lemma boundary_last_all q :
  boundary_last q -> Forall (fun h => stays h \/ crosses h) q.
Proof.
  intros (front & h & -> & Hfront & Hh). apply Forall_app. split.
  - eapply Forall_impl; [exact Hfront|]. auto.
  - constructor; auto.
Qed.

Lemma stays_not_crosses h : stays h -> crossesb h = false.
Proof.
  unfold stays, staysb, crossesb. destruct (h.2 !! "to_jimage") as [[]|]; try done.
  intros Ht%bool_decide_eq_true. by apply bool_decide_eq_false_2; intros Hn.
Qed.

(** Once normalized, a path whose crossing hop is at an end has it last. *)
Lemma normalized_boundary_last p :
  boundary_at_end p -> length p ≠ 1%nat -> boundary_last (normalized p).
Proof.
  intros [Hl|(h & rest & -> & Hh & Hrest)] Hlen.
  - destruct Hl as (front & h & -> & Hfront & Hh).
    destruct front as [|f front]; [done|]. simpl.
    apply Forall_cons in Hfront as [Hf Hfront].
    rewrite (stays_not_crosses _ Hf). exists (f :: front), h. by repeat split; try constructor.
  - simpl. unfold crosses in Hh. rewrite Hh. exists (reverse rest), h. split; [apply reverse_cons|].
    split; [|done]. apply Forall_forall. intros x Hx.
    rewrite elem_of_reverse in Hx.
    exact (proj1 (Forall_forall _ _) Hrest x Hx).
Qed.

Lemma leaves_cell_crossesb (h : hop) :
  stays h \/ crosses h -> leaves_cell h.2 = Ok (crossesb h).
Proof.
  intros Hk. destruct (kind_image h Hk) as [t Ht].
  unfold leaves_cell, to_jimage, getitem, crossesb. by rewrite Ht.
Qed.

Section modify_proofs.
Variable set_order : gset nat -> list nat.

(** On a path it is written for, [modify_one] returns a path of the same
    length whose crossing hop is last and whose hops are ordered. *)
Lemma modify_one_canonical p :
  canonical_input set_order p ->
  exists m_path start,
    modify_one set_order p = Ok m_path /\ boundary_last m_path /\
    length m_path = length p /\ ordered start m_path.
Proof.
  intros [Hend Hch].
  assert (Hlen : length p ≠ 1%nat).
  { intros Hl. destruct p as [|h [|]]; try done. simpl in Hch.
    destruct (crossesb h); simpl in Hch;
      destruct Hch as [(? & ? & ? & _)|(? & ? & ? & ? & _ & ? & _)]; done. }
  pose proof (normalized_boundary_last p Hend Hlen) as Hq.
  assert (exists first p', p = first :: p') as (first & p' & Hp).
  { destruct p as [|first p']; [|eauto].
    destruct Hq as (front & h & Hnil & _). by destruct front. }
  assert (Hfirst : stays first \/ crosses first).
  { destruct Hend as [Hl|(h & rest & He & Hh & _)].
    - apply boundary_last_all in Hl. rewrite Hp in Hl. by apply Forall_cons in Hl as [? _].
    - rewrite Hp in He. injection He as -> _. by right. }
  assert (H0 : item p 0 = Ok first) by (by rewrite Hp).
  assert (Hn : (if crossesb first then reverse p else p) = normalized p).
  { by rewrite Hp. }
  assert (Hnl : length (normalized p) = length p).
  { rewrite <- Hn. destruct (crossesb first); [apply length_reverse|done]. }
  unfold modify_one. rewrite H0. simpl.
  rewrite (leaves_cell_crossesb _ Hfirst). simpl.
  rewrite Hn. clear Hn H0. rewrite <- Hnl.
  set (q := normalized p) in *.
  destruct Hch as [(h0 & h1 & Hq2 & Hends & Hsame)|
                   (h0 & h1 & hl & start & H0 & H1 & Hlast & Hends & Hstart & Hchain)].
  - rewrite Hq2. simpl.
    rewrite (bool_decide_eq_true_2 _ Hends), (bool_decide_eq_true_2 _ Hsame).
    eexists _, (h0.1.2). split; [done|]. split; [|simpl; auto].
    destruct Hq as (front & h & Hq & Hfront & Hh). rewrite Hq2 in Hq.
    destruct front as [|f [|]]; try done.
    2:{ simpl in Hq. injection Hq as _ _ Hq. by destruct l. }
    injection Hq as <- <-.
    exists [(h0.1.2, h0.1.1, h0.2)], h1. split; [done|]. split; [|done].
    constructor; [|done]. apply Forall_cons in Hfront as [Hf _].
    unfold stays, staysb in *. done.
  - unfold item. rewrite H0, H1. simpl.
    rewrite (bool_decide_eq_false_2 _ Hends).
    assert (Hl : q !! (length q - 1)%nat = Some hl).
    { rewrite last_lookup in Hlast. rewrite <- Hlast. f_equal. lia. }
    rewrite Hl. simpl. rewrite Hstart. simpl.
    destruct (walk_chained q start [] Hchain (boundary_last_all _ Hq))
      as (q' & Hw & Hk & Hord & _).
    exists q', start. split; [exact Hw|]. split; [by apply (boundary_last_kind q)|].
    split; [|done]. symmetry. by eapply Forall2_length.
Qed.


(** On the same input paths (the only crossing hop first or last and,
    once it is last, exactly two hops over one pair of nodes that start
    at the same node, or first two hops that are not over the same pair
    of nodes and hops that chain from the first element of the set of
    nodes shared by the first and last hops), [modify_path] yields paths
    that are ordered: each path has the length of the path it comes
    from, and each of its hops leaves from the node the hop before it
    arrives at. *)
Theorem modify_path_ordered paths :
  Forall (canonical_input set_order) paths ->
  Forall2 (fun p m_path => length m_path = length p /\
                           exists start, ordered start m_path)
          paths (yielded (modify_path set_order paths)).
Proof.
  intros Hall. unfold modify_path.
  destruct (modify_loop set_order paths) as [ys err] eqn:Hys. simpl.
  revert ys err Hys.
  induction Hall as [|p paths Hp _ IH]; intros ys err Hys; simpl in Hys.
  - injection Hys as <- _. constructor.
  - destruct (modify_one_canonical p Hp) as (m_path & start & Hm & _ & Hlen & Hord).
    rewrite Hm in Hys.
    destruct (modify_loop set_order paths) as [ys' err'] eqn:Hrest.
    injection Hys as <- <-. constructor; [eauto|]. by eapply IH.
Qed.

(** Two hops over one pair of nodes whose first nodes differ are both
    dropped: the branch for two hops has no case for them. *)
Lemma modify_one_two_hops_dropped h0 h1 :
  stays h0 -> endpoints h0 = endpoints h1 -> h0.1.1 ≠ h1.1.1 ->
  modify_one set_order [h0; h1] = Ok [].
Proof.
  intros Hs Hends Hne. unfold modify_one. simpl.
  rewrite (leaves_cell_crossesb h0) by (by left).
  rewrite (stays_not_crosses _ Hs). simpl.
  by rewrite (bool_decide_eq_true_2 _ Hends), (bool_decide_eq_false_2 _ Hne).
Qed.

End modify_proofs.


Lemma modify_path_ordered_witness :
  Forall2 (fun p m_path => length m_path = length p /\
                           exists start, ordered start m_path)
          [Example.path_first]
          (yielded (modify_path elements [Example.path_first])).
Proof.
  apply (modify_path_ordered elements [Example.path_first]).
  apply Forall_cons. split; [split|apply Forall_nil; exact I].
  - right. eexists _, _. split; [reflexivity|]. split; [reflexivity|].
    repeat constructor.
  - right. exists (1, 2, Example.inside)%nat, (0, 1, Example.inside)%nat,
             (0, 2, Example.across)%nat, 2%nat.
    repeat split; try reflexivity.
    + intros Heq. assert (H : 2%nat ∈ endpoints (0, 1, Example.inside)%nat).
      { rewrite <- Heq. unfold endpoints. set_solver. }
      unfold endpoints in H. set_solver.
    + simpl. right. split; [done|]. split; [done|]. right. split; [done|]. split; [done|].
      left. done.
Defined.


(** C10: there is a path of exactly two hops, its first hop inside the
    cell (so the path is not reversed), whose hops join the same pair of
    nodes but start at different nodes, for which [modify_path] yields the
    empty list: both hops are dropped. *)
Theorem modify_path_drops_two_hops :
  exists h0 h1 : hop,
    leaves_cell h0.2 = Ok false /\
    endpoints h0 = endpoints h1 /\ h0.1.1 ≠ h1.1.1 /\
    forall set_order,
      modify_path set_order [[h0; h1]] = mkGenerated [] [[]] None.
Proof.
  exists (0, 1, Example.inside)%nat, (1, 0, Example.across)%nat.
  split; [reflexivity|]. split; [|split].
  - unfold endpoints. simpl. set_solver.
  - simpl. lia.
  - intros set_order. unfold modify_path. simpl.
    rewrite modify_one_two_hops_dropped; [done|reflexivity| |simpl; lia].
    unfold endpoints. simpl. set_solver.
Qed.

(** ** The guards *)

(** C4: a radius given by the caller leaves the local [rr] unbound: the
    routine raises [UnboundLocalError] at its first read of [rr], whatever
    the radius, and neither checks it nor computes the averages. *)
Theorem explicit_radius_unbound sphere_averages self migration_path
    (x : Q) chg_along_path output_positions :
  _get_avg_chg_at_max sphere_averages self migration_path (VFloat x)
    chg_along_path output_positions = Raise UnboundLocalError.
Proof. reflexivity. Qed.

(** With the default radius the guard works on the stored tube radius: a
    radius that is not positive raises [ValueError], a positive one goes on
    to the averages. *)
Lemma default_radius_checked sphere_averages self migration_path r
    chg_along_path output_positions :
  num_of (_tube_radius self) = Some r ->
  _get_avg_chg_at_max sphere_averages self migration_path VNone
    chg_along_path output_positions =
  if Qgt_bool r 0 then
    let '(avg_chg, centers) := sphere_averages self migration_path r in
    m ← max_list avg_chg;
    if output_positions then Ok (MaxChgPositions m avg_chg centers)
    else if chg_along_path then Ok (MaxChgAlong m avg_chg)
    else Ok (MaxChg m)
  else Raise ValueError.
Proof.
  intros Hr. unfold _get_avg_chg_at_max. rewrite Hr.
  by destruct (Qgt_bool r 0).
Qed.

Section construction_proofs.
Variable get_el_sp : value -> result string.
Variable analyzer : Type.
Variable SpacegroupAnalyzer : Structure -> Q -> result analyzer.
Variable get_symmetrized_structure : analyzer -> result SymmetrizedStructure.
Variable Structure_from_sites :
  list PeriodicSite -> list (list Q) -> result Structure.
Variable with_local_env_strategy : Structure -> Q -> result graph.
Variable new_MigrationPath :
  PeriodicSite -> PeriodicSite -> SymmetrizedStructure -> result MigrationPath.
Variable hop_eq : MigrationPath -> MigrationPath -> bool.

(** C8, as amended: with [vac_mode=True] the constructor never returns an
    object.  It raises [NotImplementedError] whenever the four calls that
    come before the check return (the parsing of the species, the
    symmetry analysis, the symmetrized structure and the extraction of
    the sites of the migrating species); otherwise it raises the
    exception of the first of those calls that fails. *)
Theorem vac_mode_not_implemented structure migrating_specie max_path_length
    symprec name :
  let call :=
    __init__ get_el_sp analyzer SpacegroupAnalyzer get_symmetrized_structure
      Structure_from_sites with_local_env_strategy new_MigrationPath hop_eq
      structure migrating_specie max_path_length symprec true name in
  (exists e, call = Raise e) /\
  (forall specie a symm only_sites,
     get_el_sp migrating_specie = Ok specie ->
     SpacegroupAnalyzer structure symprec = Ok a ->
     get_symmetrized_structure a = Ok symm ->
     get_only_sites Structure_from_sites structure specie = Ok only_sites ->
     call = Raise NotImplementedError) /\
  (forall e, get_el_sp migrating_specie = Raise e -> call = Raise e) /\
  (forall specie e,
     get_el_sp migrating_specie = Ok specie ->
     SpacegroupAnalyzer structure symprec = Raise e -> call = Raise e) /\
  (forall specie a e,
     get_el_sp migrating_specie = Ok specie ->
     SpacegroupAnalyzer structure symprec = Ok a ->
     get_symmetrized_structure a = Raise e -> call = Raise e) /\
  (forall specie a symm e,
     get_el_sp migrating_specie = Ok specie ->
     SpacegroupAnalyzer structure symprec = Ok a ->
     get_symmetrized_structure a = Ok symm ->
     get_only_sites Structure_from_sites structure specie = Raise e ->
     call = Raise e).
Proof.
  intros call. subst call. unfold __init__.
  split; [|split; [|split; [|split; [|split]]]].
  - destruct (get_el_sp migrating_specie) as [specie|e]; simpl; [|eauto].
    destruct (SpacegroupAnalyzer structure symprec) as [a|e]; simpl; [|eauto].
    destruct (get_symmetrized_structure a) as [symm|e]; simpl; [|eauto].
    destruct (get_only_sites _ structure specie) as [only|e]; simpl; eauto.
  - intros specie a symm only_sites H1 H2 H3 H4.
    rewrite H1. simpl. rewrite H2. simpl. rewrite H3. simpl. by rewrite H4.
  - intros e H1. by rewrite H1.
  - intros specie e H1 H2. rewrite H1. simpl. by rewrite H2.
  - intros specie a e H1 H2 H3. rewrite H1. simpl. rewrite H2. simpl. by rewrite H3.
  - intros specie a symm e H1 H2 H3 H4.
    rewrite H1. simpl. rewrite H2. simpl. rewrite H3. simpl. by rewrite H4.
Qed.

End construction_proofs.

Lemma vac_mode_not_implemented_witness :
  __init__ Example.parse_specie Structure Example.analyze Example.symmetrize
    Example.from_sites Example.neighbours Example.make_hop Example.same_length
    Example.chain (VStr "Li") 10 (1 # 10) true None
  = Raise NotImplementedError /\
  __init__ Example.parse_specie Structure Example.analyze Example.symmetrize
    Example.from_sites Example.neighbours Example.make_hop Example.same_length
    Example.chain (VStr "Xx") 10 (1 # 10) true None
  = Raise ValueError /\
  __init__ Example.parse_specie Structure Example.analyze Example.symmetrize
    Example.from_sites Example.neighbours Example.make_hop Example.same_length
    Example.chain (VStr "Mg") 10 (1 # 10) true None
  = Raise ValueError.
Proof.
  split; [|split].
  - destruct (vac_mode_not_implemented Example.parse_specie Structure
                Example.analyze Example.symmetrize Example.from_sites
                Example.neighbours Example.make_hop Example.same_length
                Example.chain (VStr "Li") 10 (1 # 10) None)
      as (_ & H & _).
    eapply H; reflexivity.
  - destruct (vac_mode_not_implemented Example.parse_specie Structure
                Example.analyze Example.symmetrize Example.from_sites
                Example.neighbours Example.make_hop Example.same_length
                Example.chain (VStr "Xx") 10 (1 # 10) None)
      as (_ & _ & H & _).
    eapply H; reflexivity.
  - destruct (vac_mode_not_implemented Example.parse_specie Structure
                Example.analyze Example.symmetrize Example.from_sites
                Example.neighbours Example.make_hop Example.same_length
                Example.chain (VStr "Mg") 10 (1 # 10) None)
      as (_ & _ & _ & _ & _ & H).
    eapply H; reflexivity.
Defined.

(** The claim C8 as the specification states it fails on an input that an
    earlier step of the constructor refuses: a species symbol the parser
    does not know, or a structure with no site of the migrating species,
    ends the constructor with the exception of that step. *)
Lemma vac_mode_earlier_exception :
  __init__ Example.parse_specie Structure Example.analyze Example.symmetrize
    Example.from_sites Example.neighbours Example.make_hop Example.same_length
    Example.chain (VStr "Xx") 10 (1 # 10) true None
  = Raise ValueError /\
  __init__ Example.parse_specie Structure Example.analyze Example.symmetrize
    Example.from_sites Example.neighbours Example.make_hop Example.same_length
    Example.chain (VStr "Mg") 10 (1 # 10) true None
  = Raise ValueError /\
  ~ (forall get_el_sp analyzer SpacegroupAnalyzer get_symmetrized_structure
       Structure_from_sites with_local_env_strategy new_MigrationPath hop_eq
       structure migrating_specie max_path_length symprec name,
       __init__ get_el_sp analyzer SpacegroupAnalyzer get_symmetrized_structure
         Structure_from_sites with_local_env_strategy new_MigrationPath hop_eq
         structure migrating_specie max_path_length symprec true name
       = Raise NotImplementedError).
Proof.
  split; [reflexivity|]. split; [reflexivity|].
  intros H.
  specialize (H Example.parse_specie Structure Example.analyze
                Example.symmetrize Example.from_sites Example.neighbours
                Example.make_hop Example.same_length Example.chain (VStr "Xx")
                10%Q (1 # 10)%Q None).
  discriminate H.
Qed.

(** ** Labels in order of first appearance *)

Module GroupbyOrder.
Import Groupby.
Section order.
Context {A : Type}.
Variable comp : A -> A -> bool.
Variable list_in : list A.
Hypothesis comp_refl : forall a, comp a a = true.
Hypothesis comp_sym : forall a b, comp a b = true -> comp b a = true.
Hypothesis comp_trans :
  forall a b c, comp a b = true -> comp b c = true -> comp a c = true.

Local Abbreviation len_in := (length list_in).
Local Abbreviation linked := (linked comp list_in).
Local Abbreviation Inv := (Inv comp list_in).

(** What a turn of the outer loop does at an index not labelled yet: the
    index and the later indices linked to it take [label_num], the other
    slots stay, and [label_num] grows by one. *)
Lemma outer_step_leader k out0 num :
  (k < len_in)%nat -> Inv k (out0, num) -> out0 !! k = Some None ->
  exists out,
    outer_step comp list_in (out0, num) k = (out, num + 1) /\
    (forall j, j = k \/ ((k < j < len_in)%nat /\ linked k j) ->
       out !! j = Some (Some num)) /\
    (forall j, j <> k -> ~ ((k < j < len_in)%nat /\ linked k j) ->
       out !! j = out0 !! j).
Proof.
  intros Hk HI Hl. unfold outer_step. rewrite Hl.
  pose proof (inv_len _ _ _ _ HI) as Hlen. simpl in Hlen.
  set (out1 := <[k := Some num]> out0).
  assert (HS : Scan comp list_in k out0 num (S k + (length out0 - S k))
                 (foldl (inner_step comp list_in k) (out1, num)
                        (seq (S k) (length out0 - S k)))).
  { apply (foldl_seq_invariant (Scan comp list_in k out0 num)).
    - split; simpl; auto.
      + unfold out1. by rewrite length_insert.
      + apply list_lookup_insert_eq. lia.
      + intros j Hj. lia.
      + intros j Hj _. unfold out1. by rewrite list_lookup_insert_ne.
    - intros i s' Hi. apply GroupbyProofs.Scan_step; auto. lia. }
  replace (S k + (length out0 - S k))%nat with len_in in HS by lia.
  destruct (foldl _ _ _) as [out num'].
  destruct HS as [Hn Hl' Hs Hh Hmiss]. simpl in *. subst num'.
  exists out. split; [done|]. split.
  - intros j [->|[Hj Hkj]]; [done|]. by apply Hh.
  - exact Hmiss.
Qed.

Lemma first_appearance_step k st :
  (k < len_in)%nat -> Inv k st -> first_appearance k st ->
  first_appearance (S k) (outer_step comp list_in st k).
Proof.
  intros Hk HI (Hle & Hall & Hrg). destruct st as [out0 num].
  pose proof (inv_len _ _ _ _ HI) as Hlen. simpl in Hlen.
  destruct (lookup_lt_is_Some_2 out0 k) as [[l|] Hl]; [lia| |].
  - unfold outer_step. rewrite Hl. unfold first_appearance. cbn [fst snd] in *. split; [lia|]. split.
    + intros l' Hl'. destruct (Hall l' Hl') as (i & Hi & Hil). exists i. split; [lia|done].
    + exact Hrg.
  - destruct (outer_step_leader k out0 num Hk HI Hl) as (out & Heq & Hnew & Hkeep).
    rewrite Heq. unfold first_appearance. cbn [fst snd] in *.
    assert (Hold : forall j l, out0 !! j = Some (Some l) -> out !! j = Some (Some l)).
    { intros j l Hj. rewrite Hkeep; [done| |].
      - intros ->. congruence.
      - intros [_ Hkj]. eapply GroupbyProofs.fresh_unlinked; eauto. by exists l. }
    split; [lia|]. split.
    + intros l Hlr. destruct (decide (l = num)) as [->|Hne].
      * exists k. split; [lia|]. apply Hnew. by left.
      * destruct (Hall l) as (i & Hi & Hil); [lia|].
        exists i. split; [lia|]. by apply Hold.
    + intros j l Hj.
      assert (Hcase : (j = k \/ ((k < j < len_in)%nat /\ linked k j)) \/
                      ~ (j = k \/ ((k < j < len_in)%nat /\ linked k j))).
      { destruct (decide (j = k)); [tauto|].
        destruct (GroupbyProofs.linked_dec comp list_in k j); [|tauto].
        destruct (decide (k < j < len_in)%nat); tauto. }
      destruct Hcase as [Hc|Hc].
      * rewrite (Hnew j Hc) in Hj. injection Hj as <-.
        destruct (decide (num = 0)) as [|Hnz]; [by left|right].
        pose proof (inv_nonneg _ _ _ _ HI) as Hnn. simpl in Hnn.
        destruct (Hall (num - 1)) as (i & Hi & Hil); [lia|].
        exists i. split; [|by apply Hold]. destruct Hc as [->|[? _]]; lia.
      * rewrite Hkeep in Hj by tauto.
        destruct (Hrg j l Hj) as [->|(j' & Hj' & Hjl)]; [by left|right].
        exists j'. split; [done|]. by apply Hold.
Qed.

Lemma first_appearance_final :
  let st := foldl (outer_step comp list_in) (replicate len_in None, 0) (seq 0 len_in) in
  Inv len_in st /\ first_appearance len_in st.
Proof.
  apply (foldl_seq_invariant (fun k st => Inv k st /\ first_appearance k st)
           (outer_step comp list_in) len_in 0).
  - split; [by apply GroupbyProofs.Inv_init|]. split; [cbn [fst snd]; lia|]. split; simpl.
    + intros l Hl. lia.
    + intros j l H. apply lookup_replicate in H as [? _]. discriminate.
  - intros i s' Hi [HI HO]. split.
    + apply GroupbyProofs.Inv_step; auto. lia.
    + apply first_appearance_step; auto. lia.
Qed.

(** For a comparator that is an equivalence relation, [generic_groupby]
    numbers the groups in the order in which they first appear: the labels
    in use are the integers from 0 up to the number of groups, and an item
    with a label [l > 0] comes after an item with the label [l - 1]. *)
Theorem generic_groupby_first_appearance :
  let list_out := generic_groupby comp list_in in
  (exists num, 0 <= num <= Z.of_nat (length list_in) /\
     forall l, (exists i, list_out !! i = Some (Some l)) <-> 0 <= l < num) /\
  (forall i l, list_out !! i = Some (Some l) ->
     l = 0 \/ exists j, (j < i)%nat /\ list_out !! j = Some (Some (l - 1))).
Proof.
  destruct first_appearance_final as [HI (Hle & Hall & Hrg)]. unfold generic_groupby.
  destruct (foldl _ _ _) as [out num]. cbn [fst snd] in *.
  split; [|exact Hrg].
  exists num. split.
  - pose proof (inv_nonneg _ _ _ _ HI). cbn [fst snd] in *. lia.
  - intros l. split.
    + intros [i Hi]. exact (inv_bound _ _ _ _ HI i l Hi).
    + intros Hl. destruct (Hall l Hl) as (i & _ & Hi). by exists i.
Qed.

End order.
End GroupbyOrder.

Lemma generic_groupby_first_appearance_witness :
  let list_out := Groupby.generic_groupby Z.eqb [3; 5; 3; 7; 5] in
  (exists num, 0 <= num <= 5 /\
     forall l, (exists i, list_out !! i = Some (Some l)) <-> 0 <= l < num) /\
  (forall i l, list_out !! i = Some (Some l) ->
     l = 0 \/ exists j, (j < i)%nat /\ list_out !! j = Some (Some (l - 1))).
Proof.
  apply (GroupbyOrder.generic_groupby_first_appearance Z.eqb [3; 5; 3; 7; 5]).
  - intros a. apply Z.eqb_refl.
  - intros a b H. rewrite Z.eqb_sym. exact H.
  - intros a b c H1 H2. apply Z.eqb_eq in H1, H2. apply Z.eqb_eq. lia.
Defined.

(** ** The edges of a constructed mapper *)

(** A key is none of the keys of a list of literals. *)
Ltac keys_solver :=
  repeat match goal with
         | H : _ ∉ _ :: _ |- _ => apply not_elem_of_cons in H as [? H]
         end;
  first [ done
        | by apply (bool_decide_unpack _)
        | rewrite !not_elem_of_cons; repeat split; try done; apply not_elem_of_nil ].

(** Whatever the comparator, [generic_groupby] leaves no slot without a
    label. *)
Lemma inner_step_labelled {A} (comp : A -> A -> bool) list_in i1 st i2 :
  Groupby.labelled st.1 i1 ->
  let st' := Groupby.inner_step comp list_in i1 st i2 in
  Groupby.labelled st'.1 i1 /\
  forall j, Groupby.labelled st.1 j -> Groupby.labelled st'.1 j.
Proof.
  destruct st as [out num]. simpl. intros [l1 H1]. unfold Groupby.inner_step.
  destruct (list_in !! i1), (list_in !! i2); try (split; [by exists l1|done]).
  destruct (comp _ _); [|split; [by exists l1|done]].
  destruct (out !! i2) as [[l2|]|] eqn:H2; rewrite ?H1; simpl.
  - assert (Hlt : (i1 < length out)%nat) by (eapply lookup_lt_Some; eauto).
    split.
    + exists l2. by apply list_lookup_insert_eq.
    + intros j [l Hj]. destruct (decide (j = i1)) as [->|].
      * exists l2. by apply list_lookup_insert_eq.
      * exists l. by rewrite list_lookup_insert_ne.
  - assert (Hne : i2 <> i1) by (intros ->; congruence).
    split.
    + exists l1. by rewrite list_lookup_insert_ne.
    + intros j [l Hj]. exists l. rewrite list_lookup_insert_ne; [done|].
      intros <-. congruence.
  - split; [by exists l1|done].
Qed.

Lemma inner_loop_labelled {A} (comp : A -> A -> bool) list_in i1 l : forall st,
  Groupby.labelled st.1 i1 ->
  let st' := foldl (Groupby.inner_step comp list_in i1) st l in
  Groupby.labelled st'.1 i1 /\
  forall j, Groupby.labelled st.1 j -> Groupby.labelled st'.1 j.
Proof.
  induction l as [|i2 l IH]; intros st H1; simpl; [done|].
  destruct (inner_step_labelled comp list_in i1 st i2 H1) as [H1' Hk].
  destruct (IH _ H1') as [H1'' Hk']. split; [done|].
  intros j Hj. apply Hk', Hk, Hj.
Qed.

Lemma outer_step_labelled {A} (comp : A -> A -> bool) list_in st k :
  (k < length st.1)%nat ->
  let st' := Groupby.outer_step comp list_in st k in
  Groupby.labelled st'.1 k /\
  forall j, Groupby.labelled st.1 j -> Groupby.labelled st'.1 j.
Proof.
  destruct st as [out num]. simpl. intros Hk. unfold Groupby.outer_step.
  destruct (lookup_lt_is_Some_2 out k Hk) as [[l|] Hl]; rewrite Hl.
  - split; [by exists l|done].
  - destruct (inner_loop_labelled comp list_in k (seq (S k) (length out - S k))
                (<[k := Some num]> out, num)) as [H1 H2].
    { exists num. simpl. by apply list_lookup_insert_eq. }
    destruct (foldl _ _ _) as [out' num']. simpl in *. split; [done|].
    intros j [l Hj]. apply H2. exists l. rewrite list_lookup_insert_ne; [done|].
    intros <-. congruence.
Qed.

Lemma generic_groupby_all_labelled {A} (comp : A -> A -> bool) list_in i :
  (i < length list_in)%nat ->
  exists l : Z, Groupby.generic_groupby comp list_in !! i = Some (Some l).
Proof.
  intros Hi. unfold Groupby.generic_groupby.
  pose proof (foldl_seq_invariant
    (fun k st => length st.1 = length list_in /\
                 forall j, (j < k)%nat -> (j < length list_in)%nat ->
                           Groupby.labelled st.1 j)
    (Groupby.outer_step comp list_in) (length list_in) 0
    (replicate (length list_in) None, 0)) as H.
  destruct H as [_ H].
  - split; [apply length_replicate|]. intros j Hj. lia.
  - intros k st Hk [Hlen Hdone]. split.
    + by rewrite outer_step_length.
    + intros j Hj Hjn.
      destruct (outer_step_labelled comp list_in st k) as [Hk' Hkeep]; [lia|].
      destruct (decide (j = k)) as [->|]; [done|].
      apply Hkeep, Hdone; lia.
  - simpl in H. apply H; [lia|done].
Qed.

Lemma foldl_ext_all {S B} (f g : S -> B -> S) l : forall s,
  (forall s x, f s x = g s x) -> foldl f s l = foldl g s l.
Proof.
  induction l as [|x l IH]; intros s H; simpl; [done|]. rewrite H. by apply IH.
Qed.

(** Grouping the images of a list by a comparator is grouping the list by
    the comparator on the images. *)
Lemma generic_groupby_fmap {A B} (f : A -> B) (comp : B -> B -> bool) l :
  Groupby.generic_groupby comp (f <$> l) =
  Groupby.generic_groupby (fun a b => comp (f a) (f b)) l.
Proof.
  unfold Groupby.generic_groupby. rewrite length_fmap. f_equal.
  apply foldl_ext_all. intros [out num] i1. unfold Groupby.outer_step.
  destruct (out !! i1) as [[|]|]; try done.
  erewrite foldl_ext_all; [done|].
  intros [out' num'] i2. unfold Groupby.inner_step.
  rewrite !list_lookup_fmap.
  by destruct (l !! i1), (l !! i2).
Qed.

Lemma set_hop_labels_lookup es : forall labs i e,
  Forall (fun e => is_Some (e_data e !! "hop")) es ->
  length labs = length es ->
  es !! i = Some e ->
  exists l, labs !! i = Some l /\
    set_hop_labels es labs !! i =
      Some (set_data e (<["hop_label" := label_value l]> (e_data e))).
Proof.
  induction es as [|e0 es IH]; intros labs i e Hall Hlen Hi; [done|].
  apply Forall_cons in Hall as [[h Hh] Hall].
  destruct labs as [|l labs]; [done|]. simpl. rewrite Hh.
  destruct i as [|i]; simpl in *.
  - injection Hi as <-. by exists l.
  - apply IH; [done|lia|done].
Qed.

Lemma set_hop_labels_length es : forall labs,
  length (set_hop_labels es labs) = length es.
Proof.
  induction es as [|e es IH]; intros labs; simpl; [done|].
  destruct (e_data e !! "hop"), labs; simpl; by rewrite IH.
Qed.

Lemma omap_hops es hs :
  Forall2 (fun e h => e_data e !! "hop" = Some (VHop h)) es hs ->
  omap (fun e => e_data e !! "hop") es = VHop <$> hs.
Proof.
  induction 1 as [|e h es hs He _ IH]; [done|].
  rewrite fmap_cons, <- IH. simpl. by rewrite He.
Qed.

Lemma index_edge_keys e e' :
  index_edge e = Ok e' ->
  e_data e' !! "iindex" = Some (VInt (Z.of_nat (e_u e'))) /\
  e_data e' !! "eindex" = Some (VInt (Z.of_nat (e_v e'))) /\
  forall k, k ∉ ["iindex"; "eindex"; "hop_distance"]%string ->
            e_data e' !! k = e_data e !! k.
Proof.
  unfold index_edge, getitem. rewrite !lookup_insert_ne by done.
  destruct (e_data e !! "hop") as [[| | | | | | | | |m]|] eqn:Hhop; try done.
  simpl. intros [= <-]. simpl. split; [|split].
  - rewrite lookup_insert_ne by done. rewrite lookup_insert_ne by done.
    by rewrite lookup_insert_eq.
  - rewrite lookup_insert_ne by done. by rewrite lookup_insert_eq.
  - intros k Hk. rewrite !lookup_insert_ne; [done|..]; keys_solver.
Qed.

Section constructed.
Variable get_el_sp : value -> result string.
Variable analyzer : Type.
Variable SpacegroupAnalyzer : Structure -> Q -> result analyzer.
Variable get_symmetrized_structure : analyzer -> result SymmetrizedStructure.
Variable Structure_from_sites :
  list PeriodicSite -> list (list Q) -> result Structure.
Variable with_local_env_strategy : Structure -> Q -> result graph.
Variable new_MigrationPath :
  PeriodicSite -> PeriodicSite -> SymmetrizedStructure -> result MigrationPath.
Variable hop_eq : MigrationPath -> MigrationPath -> bool.

Local Abbreviation init :=
  (__init__ get_el_sp analyzer SpacegroupAnalyzer get_symmetrized_structure
     Structure_from_sites with_local_env_strategy new_MigrationPath hop_eq).

(** The stages of a construction that returns. *)
Lemma init_stages structure migrating_specie max_path_length symprec name self :
  init structure migrating_specie max_path_length symprec false name = Ok self ->
  exists specie a symm only_sites g es1 es' uh,
    get_el_sp migrating_specie = Ok specie /\
    SpacegroupAnalyzer structure symprec = Ok a /\
    get_symmetrized_structure a = Ok symm /\
    get_only_sites Structure_from_sites structure specie = Ok only_sites /\
    with_local_env_strategy only_sites max_path_length = Ok g /\
    populate_edges_with_migration_paths new_MigrationPath only_sites symm
      (edges g) = Ok es1 /\
    _populate_unique_hops_dict (group_and_label_hops hop_eq es1) = Ok (es', uh) /\
    self = mkMapper name (mkGraph (nodes g) es') uh.
Proof.
  unfold __init__. intros H.
  destruct (get_el_sp _) as [specie|] eqn:Hsp; [|done]. simpl in H.
  destruct (SpacegroupAnalyzer _ _) as [a|] eqn:Ha; [|done]. simpl in H.
  destruct (get_symmetrized_structure _) as [symm|] eqn:Hsy; [|done]. simpl in H.
  destruct (get_only_sites _ _ _) as [only_sites|] eqn:Hos; [|done]. simpl in H.
  destruct (with_local_env_strategy _ _) as [g|] eqn:Hg; [|done]. simpl in H.
  destruct (populate_edges_with_migration_paths _ _ _ _) as [es1|] eqn:Hpop; [|done].
  simpl in H.
  destruct (_populate_unique_hops_dict _) as [[es' uh]|] eqn:Hun; [|done].
  simpl in H. injection H as <-.
  by exists specie, a, symm, only_sites, g, es1, es', uh.
Qed.

Lemma populate_edges_Forall2 only_sites symm es es1 :
  populate_edges_with_migration_paths new_MigrationPath only_sites symm es = Ok es1 ->
  Forall2 (fun e e1 =>
             _get_pos_and_migration_path new_MigrationPath only_sites symm e = Ok e1)
          es es1.
Proof.
  revert es1. induction es as [|e es IH]; intros es1 H; simpl in H.
  - injection H as <-. constructor.
  - destruct (_get_pos_and_migration_path _ _ _ e) as [e'|] eqn:He; [|done].
    simpl in H.
    destruct (populate_edges_with_migration_paths _ _ _ es) as [es'|] eqn:Hes; [|done].
    simpl in H. injection H as <-. constructor; [done|by apply IH].
Qed.

(** What [_get_pos_and_migration_path] writes on an edge. *)
Lemma get_pos_spec only_sites symm e e1 :
  _get_pos_and_migration_path new_MigrationPath only_sites symm e = Ok e1 ->
  (e_u e1, e_v e1, e_key e1) = (e_u e, e_v e, e_key e) /\
  exists i_site v_site t h,
    sites only_sites !! e_u e = Some i_site /\
    sites only_sites !! e_v e = Some v_site /\
    e_data e !! "to_jimage" = Some (VTuple t) /\
    length (frac_coords v_site) = length t /\
    let f_coords := zip_with Qplus (frac_coords v_site) (inject_Z <$> t) in
    let m := lattice_matrix only_sites in
    new_MigrationPath i_site (mkSite (species v_site) f_coords) symm = Ok h /\
    e_data e1 !! "ipos" = Some (VNdarray (frac_coords i_site)) /\
    e_data e1 !! "epos" = Some (VNdarray f_coords) /\
    e_data e1 !! "ipos_cart" = Some (VNdarray (vec_mat (frac_coords i_site) m)) /\
    e_data e1 !! "epos_cart" = Some (VNdarray (vec_mat f_coords m)) /\
    e_data e1 !! "hop" = Some (VHop h) /\
    forall k, k ∉ ["ipos"; "epos"; "ipos_cart"; "epos_cart"; "hop"]%string ->
              e_data e1 !! k = e_data e !! k.
Proof.
  unfold _get_pos_and_migration_path, item, to_jimage, getitem, shift_coords.
  intros H.
  destruct (sites only_sites !! e_u e) as [i_site|] eqn:Hi; [|done]. simpl in H.
  destruct (sites only_sites !! e_v e) as [v_site|] eqn:Hv; [|done]. simpl in H.
  destruct (e_data e !! "to_jimage") as [[| | | |t| | | | |]|] eqn:Ht; try done.
  simpl in H.
  destruct (bool_decide _) eqn:Hlen; [|done]. apply bool_decide_eq_true in Hlen.
  simpl in H.
  destruct (new_MigrationPath _ _ _) as [h|] eqn:Hh; [|done]. simpl in H.
  injection H as <-. simpl. split; [done|].
  exists i_site, v_site, t, h. simpl.
  repeat (split; [done|]).
  split; [|split; [|split; [|split; [|split]]]].
  - do 4 (rewrite lookup_insert_ne by done). by rewrite lookup_insert_eq.
  - do 3 (rewrite lookup_insert_ne by done). by rewrite lookup_insert_eq.
  - do 2 (rewrite lookup_insert_ne by done). by rewrite lookup_insert_eq.
  - rewrite lookup_insert_ne by done. by rewrite lookup_insert_eq.
  - by rewrite lookup_insert_eq.
  - intros k Hk. rewrite !lookup_insert_ne; [done|..]; keys_solver.
Qed.

Lemma Forall2_choice {X Y} (P : X -> Y -> Prop) xs :
  Forall (fun x => exists y, P x y) xs -> exists ys, Forall2 P xs ys.
Proof.
  induction 1 as [|x xs [y Hy] _ [ys IH]]; [by exists []|].
  exists (y :: ys). by constructor.
Qed.

(** The edges of a constructed mapper, one for each edge of the graph of
    the neighbour search and in the same order, with the hops that were
    grouped and the labels the grouping gave them. *)
Lemma constructed_edges structure migrating_specie max_path_length symprec
    name self :
  init structure migrating_specie max_path_length symprec false name = Ok self ->
  exists specie only_sites g hs,
    get_el_sp migrating_specie = Ok specie /\
    get_only_sites Structure_from_sites structure specie = Ok only_sites /\
    with_local_env_strategy only_sites max_path_length = Ok g /\
    nodes (s_graph self) = nodes g /\
    length (edges_of self) = length (edges g) /\
    length hs = length (edges g) /\
    forall i e0, edges g !! i = Some e0 ->
      exists e h l,
        edges_of self !! i = Some e /\ hs !! i = Some h /\
        Groupby.generic_groupby hop_eq hs !! i = Some (Some l) /\
        e_data e !! "hop" = Some (VHop h) /\
        e_data e !! "hop_label" = Some (VInt l) /\
        decorated only_sites e0 e.
Proof.
  intros H.
  destruct (init_stages _ _ _ _ _ _ H)
    as (specie & a & symm & only_sites & g & es1 & es' & uh & Hsp & _ & _ & Hos & Hg
        & Hpop & Hun & ->).
  pose proof (populate_edges_Forall2 _ _ _ _ Hpop) as H1.
  assert (Hhs : exists hs, Forall2 (fun e h => e_data e !! "hop" = Some (VHop h)) es1 hs).
  { apply Forall2_choice. apply Forall_forall. intros e1 [i Hi]%list_elem_of_lookup.
    destruct (Forall2_lookup_r _ _ _ _ _ H1 Hi) as (e0 & _ & He).
    apply get_pos_spec in He as (_ & ? & ? & ? & h & ? & ? & ? & ? & ? & ? & ? & ? & ? & ? & _).
    by exists h. }
  destruct Hhs as [hs Hhs].
  pose proof (Forall2_length _ _ _ H1) as Hlen1.
  pose proof (Forall2_length _ _ _ Hhs) as Hlenh.
  assert (Hhop : Forall (fun e => is_Some (e_data e !! "hop")) es1)
    by exact (populate_edges_hops _ _ _ _ _ Hpop).
  pose proof (group_and_label_hops_plain hop_eq es1 Hhop) as Hplain.
  destruct (populate_unique_hops_spec _ _ _ Hun Hplain) as (Hix & _).
  pose proof (Forall2_length _ _ _ Hix) as Hlen2.
  unfold group_and_label_hops in Hix, Hlen2.
  rewrite (omap_hops _ _ Hhs), generic_groupby_fmap in Hix, Hlen2.
  change (fun a b => hop_value_eq hop_eq (VHop a) (VHop b)) with hop_eq in Hix, Hlen2.
  rewrite set_hop_labels_length in Hlen2.
  exists specie, only_sites, g, hs. simpl.
  repeat (split; [done || lia|]).
  intros i e0 He0.
  destruct (Forall2_lookup_l _ _ _ _ _ H1 He0) as (e1 & He1 & Hpos).
  destruct (Forall2_lookup_l _ _ _ _ _ Hhs He1) as (h & Hh & Hhop1).
  destruct (set_hop_labels_lookup es1 (Groupby.generic_groupby hop_eq hs) i e1 Hhop)
    as (lab & Hlab & He2); [by rewrite generic_groupby_length|done|].
  destruct (generic_groupby_all_labelled hop_eq hs i) as [l Hl].
  { eapply lookup_lt_Some; eauto. }
  rewrite Hl in Hlab. injection Hlab as <-.
  destruct (Forall2_lookup_l _ _ _ _ _ Hix He2) as (e & He & Hidx).
  pose proof (index_edge_spec _ _ Hidx) as (Hends & Hlabel & m & Hm & Hhop' & Hdist).
  pose proof (index_edge_keys _ _ Hidx) as (Hii & Hei & Hother).
  simpl in Hends, Hlabel, Hm, Hother.
  rewrite lookup_insert_eq in Hlabel.
  rewrite lookup_insert_ne in Hm by done. rewrite Hhop1 in Hm. injection Hm as <-.
  destruct (get_pos_spec _ _ _ _ Hpos)
    as (Hends1 & i_site & v_site & t & h' & Hsi & Hsv & Ht & Hlt & Hnew & Hip & Hep
        & Hipc & Hepc & Hhop2 & Hkeep).
  rewrite Hhop1 in Hhop2. injection Hhop2 as <-.
  exists e, h, l. repeat (split; [done|]).
  assert (Hlook : forall k, k ∉ ["iindex"; "eindex"; "hop_distance"; "hop_label"]%string ->
            e_data e !! k = e_data e1 !! k).
  { intros k Hk. rewrite Hother by keys_solver.
    rewrite lookup_insert_ne; [done|]. keys_solver. }
  assert (Hends' : (e_u e, e_v e, e_key e) = (e_u e0, e_v e0, e_key e0)) by congruence.
  injection Hends' as Hu Hv Hk.
  split; [by rewrite Hu, Hv, Hk|].
  exists i_site, v_site, t, h, l. rewrite Hu, Hv in *.
  split; [done|]. split; [done|]. split; [done|].
  cbv zeta.
  split; [by rewrite Hlook, Hkeep by keys_solver|].
  split; [by rewrite Hlook by keys_solver|].
  split; [by rewrite Hlook by keys_solver|].
  split; [by rewrite Hlook by keys_solver|].
  split; [by rewrite Hlook by keys_solver|].
  split; [done|]. split; [done|]. split; [done|]. split; [done|]. split; [done|].
  intros k Hnk. rewrite Hlook, Hkeep; [done|..]; unfold constructor_keys in Hnk; keys_solver.
Qed.

End constructed.

(** ** The edge that stands for a label *)

Lemma dict_set_elem_fresh items k ref k' r' :
  py_eq k k = true -> fresh_keys items ->
  (k', r') ∈ dict_set items k ref ->
  (py_eq k' k = true /\ r' = ref) \/ (py_eq k' k = false /\ (k', r') ∈ items).
Proof.
  intros Hk. induction 1 as [|k0 r0 items H0 Hf IH]; simpl.
  - intros [= -> ->]%list_elem_of_singleton. by left.
  - destruct (py_eq k0 k) eqn:Hp.
    + intros [[= -> ->]|Hin]%elem_of_cons; [by left|].
      right. split; [|apply elem_of_cons; by right].
      destruct (py_eq k' k) eqn:Hk'; [|done].
      pose proof (py_eq_trans _ _ _ Hp (py_eq_sym _ _ Hk')) as Hc.
      rewrite (H0 k' r' Hin) in Hc. done.
    + intros [[= -> ->]|Hin]%elem_of_cons.
      * right. split; [done|]. apply elem_of_cons. by left.
      * destruct (IH Hin) as [?|[? ?]]; [by left|]. right.
        split; [done|]. apply elem_of_cons. by right.
Qed.

(** [collect_unique_hops] over edges given by decreasing position keeps,
    for each label, the lowest position that carries it. *)
Lemma collect_unique_hops_first rest : forall seen items uh,
  Forall (fun re => forall lab, e_data re.2 !! "hop_label" = Some lab ->
                      plain_label lab = true) rest ->
  collect_unique_hops rest items = Ok uh ->
  fresh_keys items ->
  (forall r e r' e', (r, e) ∈ seen -> (r', e') ∈ rest -> (r' < r)%nat) ->
  (forall i j a b, rest !! i = Some a -> rest !! j = Some b -> (i < j)%nat ->
     (b.1 < a.1)%nat) ->
  (forall k ref r e, (k, ref) ∈ items -> (r, e) ∈ seen -> has_label e k ->
     (ref <= r)%nat) ->
  forall k ref r e, (k, ref) ∈ uh -> (r, e) ∈ seen ++ rest -> has_label e k ->
    (ref <= r)%nat.
Proof.
  induction rest as [|[ref0 e0] rest IH];
    intros seen items uh Hplain Hrun Hfresh Hsep Hsort Hlow; simpl in Hrun.
  - injection Hrun as <-. intros k ref r e Hin Hs. rewrite app_nil_r in Hs. eauto.
  - apply Forall_cons in Hplain as [Hp Hplain]. simpl in Hp.
    unfold getitem in Hrun.
    destruct (e_data e0 !! "hop_label") as [lab|] eqn:Hlab; [|done].
    simpl in Hrun. pose proof (Hp lab eq_refl) as Hpl.
    assert (Hh : hashable lab = Ok lab) by (by destruct lab).
    rewrite Hh in Hrun. simpl in Hrun.
    pose proof (py_eq_refl lab Hpl) as Hrefl.
    assert (Hhd : forall b, b ∈ rest -> (b.1 < ref0)%nat).
    { intros b [j Hj]%list_elem_of_lookup.
      apply (Hsort 0%nat (S j) (ref0, e0) b); [done|done|lia]. }
    assert (Hsort' : forall i j a b, rest !! i = Some a -> rest !! j = Some b ->
              (i < j)%nat -> (b.1 < a.1)%nat).
    { intros i j a b Hi Hj Hij. apply (Hsort (S i) (S j)); [done|done|lia]. }
    intros k ref r e Hin Hs.
    replace (seen ++ (ref0, e0) :: rest) with ((seen ++ [(ref0, e0)]) ++ rest) in Hs
      by (by rewrite <- app_assoc).
    revert k ref r e Hin Hs.
    apply (IH _ (dict_set items lab ref0)); [done|done|by apply dict_set_fresh| |done|].
    + intros r e r' e' [Hin|[= -> ->]%list_elem_of_singleton]%elem_of_app Hin'.
      * eapply Hsep; [done|]. apply elem_of_cons. by right.
      * by apply (Hhd (r', e')).
    + intros k ref r e Hin [Hs|[= -> ->]%list_elem_of_singleton]%elem_of_app Hl.
      * destruct (dict_set_elem_fresh _ _ _ _ _ Hrefl Hfresh Hin) as [[_ ->]|[_ Hold]].
        -- apply Nat.lt_le_incl. eapply Hsep; [done|]. apply elem_of_cons. by left.
        -- eauto.
      * destruct (dict_set_elem_fresh _ _ _ _ _ Hrefl Hfresh Hin) as [[_ ->]|[Hne _]];
          [done|].
        destruct Hl as (lab' & Hlab' & Hpe). rewrite Hlab in Hlab'.
        injection Hlab' as <-. apply py_eq_sym in Hpe. congruence.
Qed.

(** The list [collect_unique_hops] goes through in
    [_populate_unique_hops_dict]: the edges once indexed, by decreasing
    position. *)
Lemma populate_unique_hops_items es es' uh :
  _populate_unique_hops_dict es = Ok (es', uh) ->
  exists ihop_data',
    collect_unique_hops ihop_data' [] = Ok uh /\
    (forall ref e', (ref, e') ∈ ihop_data' <-> es' !! ref = Some e') /\
    (forall i j a b, ihop_data' !! i = Some a -> ihop_data' !! j = Some b ->
       (i < j)%nat -> (b.1 < a.1)%nat).
Proof.
  unfold _populate_unique_hops_dict. intros H.
  destruct (index_edges _) as [ihop_data'|] eqn:Hix; [|done]. simpl in H.
  destruct (collect_unique_hops _ _) as [items|] eqn:Hcol; [|done]. simpl in H.
  injection H as <- <-.
  exists ihop_data'. split; [done|].
  apply index_edges_Forall2 in Hix.
  apply Forall2_reverse in Hix. rewrite reverse_involutive in Hix.
  rewrite <- fmap_reverse.
  assert (Hrev : ihop_data' = reverse (reverse ihop_data'))
    by (by rewrite reverse_involutive).
  set (L := reverse ihop_data') in *.
  assert (Hlen : length L = length es).
  { rewrite <- (Forall2_length _ _ _ Hix). by rewrite length_imap. }
  assert (Hfst : forall i p, L !! i = Some p -> p.1 = i).
  { intros i [r e'] HL.
    destruct (Forall2_lookup_r _ _ _ _ _ Hix HL) as ([r0 e] & Hi & Hr & _).
    rewrite list_lookup_imap in Hi. destruct (es !! i); [|done].
    simpl in *. injection Hi as <- <-. done. }
  split.
  - intros ref e'. rewrite Hrev, elem_of_reverse, list_lookup_fmap. split.
    + intros [i Hi]%list_elem_of_lookup. pose proof (Hfst i _ Hi) as Hr.
      simpl in Hr. subst i. by rewrite Hi.
    + destruct (L !! ref) as [[r e0]|] eqn:HL; [|done]. simpl. intros [= <-].
      pose proof (Hfst ref _ HL) as Hr. simpl in Hr. subst r.
      apply list_elem_of_lookup. eauto.
  - intros i j a b Hi Hj Hij. rewrite Hrev in Hi, Hj.
    pose proof (lookup_lt_Some _ _ _ Hi) as Hli.
    pose proof (lookup_lt_Some _ _ _ Hj) as Hlj.
    rewrite length_reverse in Hli, Hlj.
    rewrite reverse_lookup in Hi, Hj by done.
    rewrite (Hfst _ _ Hi), (Hfst _ _ Hj). lia.
Qed.

(** [_populate_unique_hops_dict]: each key of [unique_hops] stands for the
    first edge of the graph that carries it. *)
Lemma populate_unique_hops_first es es' uh :
  _populate_unique_hops_dict es = Ok (es', uh) ->
  Forall (fun e => forall lab, e_data e !! "hop_label" = Some lab ->
                     plain_label lab = true) es ->
  forall k ref i e, (k, ref) ∈ uh -> es' !! i = Some e -> has_label e k ->
    (ref <= i)%nat.
Proof.
  intros Hrun Hplain k ref i e Hin Hi Hl.
  destruct (populate_unique_hops_spec _ _ _ Hrun Hplain) as (Hes' & _).
  destruct (populate_unique_hops_items _ _ _ Hrun) as (L & Hcol & Hmem & Hsort).
  apply (collect_unique_hops_first L [] [] uh) with (k := k) (e := e); try done.
  - apply Forall_forall. intros [r e'] Hr lab Hlab. simpl in Hlab.
    apply Hmem in Hr. destruct (Forall2_lookup_r _ _ _ _ _ Hes' Hr) as (e0 & He0 & Hix).
    apply index_edge_spec in Hix as (_ & Hlab' & _). rewrite Hlab' in Hlab.
    eapply (proj1 (Forall_lookup _ _) Hplain); eauto.
  - constructor.
  - intros ? ? ? ? Hs. by apply elem_of_nil in Hs.
  - intros ? ? ? ? Hs. by apply elem_of_nil in Hs.
  - simpl. by apply Hmem.
Qed.

Section constructed_mapper.
Variable get_el_sp : value -> result string.
Variable analyzer : Type.
Variable SpacegroupAnalyzer : Structure -> Q -> result analyzer.
Variable get_symmetrized_structure : analyzer -> result SymmetrizedStructure.
Variable Structure_from_sites :
  list PeriodicSite -> list (list Q) -> result Structure.
Variable with_local_env_strategy : Structure -> Q -> result graph.
Variable new_MigrationPath :
  PeriodicSite -> PeriodicSite -> SymmetrizedStructure -> result MigrationPath.
Variable hop_eq : MigrationPath -> MigrationPath -> bool.

(** The graph of a mapper that [__init__] returns has the nodes of the
    graph of the neighbour search and one edge for each of its edges, in
    the same order and between the same nodes; each edge carries the
    positions of its two ends, its hop with an integer label and its
    length, and the indices of its end nodes, and keeps every other key
    the search gave it. *)
Theorem constructed_mapper_decorated structure migrating_specie max_path_length
    symprec name self :
  __init__ get_el_sp analyzer SpacegroupAnalyzer get_symmetrized_structure
    Structure_from_sites with_local_env_strategy new_MigrationPath hop_eq
    structure migrating_specie max_path_length symprec false name = Ok self ->
  exists specie only_sites g,
    get_el_sp migrating_specie = Ok specie /\
    get_only_sites Structure_from_sites structure specie = Ok only_sites /\
    with_local_env_strategy only_sites max_path_length = Ok g /\
    nodes (s_graph self) = nodes g /\
    Forall2 (decorated only_sites) (edges g) (edges_of self).
Proof.
  intros H.
  destruct (constructed_edges _ _ _ _ _ _ _ _ _ _ _ _ _ _ H)
    as (specie & only_sites & g & hs & Hsp & Hos & Hg & Hn & Hlen & _ & Hall).
  exists specie, only_sites, g. repeat (split; [done|]).
  apply Forall2_same_length_lookup. split; [done|].
  intros i e0 e He0 He.
  destruct (Hall i e0 He0) as (e' & h & l & He' & _ & _ & _ & _ & Hdec).
  rewrite He in He'. by injection He' as <-.
Qed.

Lemma constructed_representatives structure migrating_specie max_path_length
    symprec name self :
  __init__ get_el_sp analyzer SpacegroupAnalyzer get_symmetrized_structure
    Structure_from_sites with_local_env_strategy new_MigrationPath hop_eq
    structure migrating_specie max_path_length symprec false name = Ok self ->
  forall k ref, (k, ref) ∈ unique_hops self ->
    exists e, edges_of self !! ref = Some e /\ has_label e k.
Proof.
  intros H.
  destruct (init_stages _ _ _ _ _ _ _ _ _ _ _ _ _ _ H)
    as (specie & a & symm & only_sites & g & es1 & es' & uh & _ & _ & _ & _ & _
        & Hpop & Hun & ->).
  pose proof (group_and_label_hops_plain hop_eq es1
                (populate_edges_hops _ _ _ _ _ Hpop)) as Hplain.
  destruct (populate_unique_hops_spec _ _ _ Hun Hplain) as (_ & _ & Hrep & _).
  exact Hrep.
Qed.

(** The first edge of the graph that carries a label stands for it in
    [unique_hops], and the label of every edge is a key of
    [unique_hops]. *)
Theorem unique_hops_first_edge structure migrating_specie max_path_length
    symprec name self :
  __init__ get_el_sp analyzer SpacegroupAnalyzer get_symmetrized_structure
    Structure_from_sites with_local_env_strategy new_MigrationPath hop_eq
    structure migrating_specie max_path_length symprec false name = Ok self ->
  (forall k ref, (k, ref) ∈ unique_hops self ->
     exists e, edges_of self !! ref = Some e /\ has_label e k /\
       forall i e', edges_of self !! i = Some e' -> has_label e' k -> (ref <= i)%nat) /\
  (forall e, e ∈ edges_of self ->
     exists k ref, (k, ref) ∈ unique_hops self /\ has_label e k).
Proof.
  intros H.
  destruct (init_stages _ _ _ _ _ _ _ _ _ _ _ _ _ _ H)
    as (specie & a & symm & only_sites & g & es1 & es' & uh & _ & _ & _ & _ & _
        & Hpop & Hun & ->).
  pose proof (group_and_label_hops_plain hop_eq es1
                (populate_edges_hops _ _ _ _ _ Hpop)) as Hplain.
  destruct (populate_unique_hops_spec _ _ _ Hun Hplain) as (_ & _ & Hrep & Hcov).
  simpl. split; [|exact Hcov].
  intros k ref Hin. destruct (Hrep k ref Hin) as (e & He & Hl).
  exists e. split; [done|]. split; [done|].
  intros i e' Hi Hl'. by eapply (populate_unique_hops_first _ _ _ Hun Hplain).
Qed.

Hypothesis hop_eq_refl : forall a, hop_eq a a = true.
Hypothesis hop_eq_sym : forall a b, hop_eq a b = true -> hop_eq b a = true.
Hypothesis hop_eq_trans :
  forall a b c, hop_eq a b = true -> hop_eq b c = true -> hop_eq a c = true.

(** When the equality of hops is an equivalence relation, two edges of a
    mapper that [__init__] returns carry the same label exactly when
    their hops are equal. *)
Theorem constructed_labels_classes structure migrating_specie max_path_length
    symprec name self i j ei ej hi hj li lj :
  __init__ get_el_sp analyzer SpacegroupAnalyzer get_symmetrized_structure
    Structure_from_sites with_local_env_strategy new_MigrationPath hop_eq
    structure migrating_specie max_path_length symprec false name = Ok self ->
  edges_of self !! i = Some ei -> edges_of self !! j = Some ej ->
  e_data ei !! "hop" = Some (VHop hi) -> e_data ej !! "hop" = Some (VHop hj) ->
  e_data ei !! "hop_label" = Some (VInt li) ->
  e_data ej !! "hop_label" = Some (VInt lj) ->
  (li = lj <-> hop_eq hi hj = true).
Proof.
  intros H Hi Hj Hhi Hhj Hli Hlj.
  destruct (constructed_edges _ _ _ _ _ _ _ _ _ _ _ _ _ _ H)
    as (specie & only_sites & g & hs & _ & _ & _ & _ & Hlen & _ & Hall).
  destruct (lookup_lt_is_Some_2 (edges g) i) as [e0i He0i].
  { rewrite <- Hlen. eapply lookup_lt_Some; eauto. }
  destruct (lookup_lt_is_Some_2 (edges g) j) as [e0j He0j].
  { rewrite <- Hlen. eapply lookup_lt_Some; eauto. }
  destruct (Hall i e0i He0i) as (ei' & hi' & li' & Hi' & Hhsi & Hgi & Hhi' & Hli' & _).
  destruct (Hall j e0j He0j) as (ej' & hj' & lj' & Hj' & Hhsj & Hgj & Hhj' & Hlj' & _).
  rewrite Hi in Hi'. injection Hi' as <-. rewrite Hj in Hj'. injection Hj' as <-.
  rewrite Hhi in Hhi'. injection Hhi' as <-. rewrite Hhj in Hhj'. injection Hhj' as <-.
  rewrite Hli in Hli'. injection Hli' as <-. rewrite Hlj in Hlj'. injection Hlj' as <-.
  pose proof (GroupbyProofs.Inv_final hop_eq hs hop_eq_refl hop_eq_sym hop_eq_trans) as HI.
  unfold Groupby.generic_groupby in Hgi, Hgj.
  rewrite (Groupby.inv_class _ _ _ _ HI i j li lj Hgi Hgj).
  split.
  - intros (a & b & Ha & Hb & Hab). congruence.
  - intros Hab. by exists hi, hj.
Qed.

End constructed_mapper.

Lemma constructed_mapper_decorated_witness :
  exists self g,
    __init__ Example.parse_specie Structure Example.analyze Example.symmetrize
      Example.from_sites Example.neighbours Example.make_hop
      Example.same_length Example.chain (VStr "Li") 10 (1 # 10) false None
    = Ok self /\
    Forall2 (decorated (mkStructure [Example.site_a; Example.site_b]
                          (lattice_matrix Example.chain)))
            (edges g) (edges_of self).
Proof.
  eexists.
  assert (H : __init__ Example.parse_specie Structure Example.analyze
                Example.symmetrize Example.from_sites Example.neighbours
                Example.make_hop Example.same_length Example.chain (VStr "Li")
                10 (1 # 10) false None = Ok _) by reflexivity.
  destruct (constructed_mapper_decorated _ _ _ _ _ _ _ _ _ _ _ _ _ _ H)
    as (specie & only_sites & g & Hsp & Hos & Hg & _ & Hall).
  injection Hsp as <-. injection Hos as <-.
  exists g. split; [exact H|exact Hall].
Defined.

Lemma unique_hops_first_edge_witness :
  exists self,
    __init__ Example.parse_specie Structure Example.analyze Example.symmetrize
      Example.from_sites Example.neighbours Example.make_hop
      Example.same_length Example.chain (VStr "Li") 10 (1 # 10) false None
    = Ok self /\
    unique_hops self = [(VInt 0, 0%nat); (VInt 1, 1%nat)] /\
    forall k ref, (k, ref) ∈ unique_hops self ->
      exists e, edges_of self !! ref = Some e /\ has_label e k /\
        forall i e', edges_of self !! i = Some e' -> has_label e' k -> (ref <= i)%nat.
Proof.
  eexists.
  assert (H : __init__ Example.parse_specie Structure Example.analyze
                Example.symmetrize Example.from_sites Example.neighbours
                Example.make_hop Example.same_length Example.chain (VStr "Li")
                10 (1 # 10) false None = Ok _) by reflexivity.
  split; [exact H|]. split; [reflexivity|].
  exact (proj1 (unique_hops_first_edge _ _ _ _ _ _ _ _ _ _ _ _ _ _ H)).
Defined.

Lemma constructed_labels_classes_witness :
  exists self ei ej hi hj,
    __init__ Example.parse_specie Structure Example.analyze Example.symmetrize
      Example.from_sites Example.neighbours Example.make_hop
      Example.same_length Example.chain (VStr "Li") 10 (1 # 10) false None
    = Ok self /\
    edges_of self !! 0%nat = Some ei /\ edges_of self !! 2%nat = Some ej /\
    e_data ei !! "hop" = Some (VHop hi) /\ e_data ej !! "hop" = Some (VHop hj) /\
    (0 = 0 <-> Example.same_length hi hj = true).
Proof.
  eexists _, _, _, _, _.
  assert (H : __init__ Example.parse_specie Structure Example.analyze
                Example.symmetrize Example.from_sites Example.neighbours
                Example.make_hop Example.same_length Example.chain (VStr "Li")
                10 (1 # 10) false None = Ok _) by reflexivity.
  split; [exact H|]. split; [reflexivity|]. split; [reflexivity|].
  split; [reflexivity|]. split; [reflexivity|].
  eapply (constructed_labels_classes Example.parse_specie Structure
           Example.analyze Example.symmetrize Example.from_sites
           Example.neighbours Example.make_hop Example.same_length
           (fun a => Qeq_bool_refl _)
           (fun a b => Qeq_bool_sym _ _)
           (fun a b c => Qeq_bool_trans _ _ _)
           Example.chain (VStr "Li") 10%Q (1 # 10)%Q None _
           0%nat 2%nat _ _ _ _ 0 0 H); reflexivity.
Defined.

(** ** The sequence of sites of a path *)

Lemma py_eq_node a b : py_eq (node_index a) (node_index b) = true <-> a = b.
Proof.
  unfold py_eq, node_index. simpl. rewrite Qeq_bool_iff.
  unfold Qeq. simpl. lia.
Qed.

Lemma py_eq_node_refl a : py_eq (node_index a) (node_index a) = true.
Proof. by apply py_eq_node. Qed.

Lemma py_eq_node_ne a b : a <> b -> py_eq (node_index a) (node_index b) = false.
Proof.
  intros H. destruct (py_eq _ _) eqn:E; [|done]. by apply py_eq_node in E.
Qed.

Lemma node_index_fmap_inj (l1 : list nat) : forall l2 : list nat,
  node_index <$> l1 = node_index <$> l2 -> l1 = l2.
Proof.
  induction l1 as [|a l1 IH]; intros [|b l2] H; try done.
  injection H as Hab Hl. apply Nat2Z.inj in Hab. subst b.
  f_equal. by apply IH.
Qed.

Lemma last_item_snoc {A} (l : list A) x : last_item (l ++ [x]) = Ok x.
Proof. unfold last_item. by rewrite last_snoc. Qed.

Lemma neighbours_of_cons {A} (a b : A) l :
  neighbours_of (a :: b :: l) = (a, b) :: neighbours_of (b :: l).
Proof. done. Qed.

Lemma neighbours_of_length {A} (a : A) l : length (neighbours_of (a :: l)) = length l.
Proof.
  revert a. induction l as [|b l IH]; intros a; [done|].
  rewrite neighbours_of_cons. simpl. by rewrite IH.
Qed.

(** The loop follows a chain of hops from the site it has reached. *)
Lemma extend_sites_chain hops : forall site_seq n ns,
  last site_seq = Some (node_index n) ->
  Forall2 (fun d p => joins d (node_index p.1) (node_index p.2))
          hops (neighbours_of (n :: ns)) ->
  length hops = length ns ->
  extend_sites hops site_seq = Ok (site_seq ++ (node_index <$> ns)).
Proof.
  induction hops as [|d hops IH]; intros site_seq n ns Hlast Hall Hlen.
  - destruct ns; [|done]. simpl. by rewrite app_nil_r.
  - destruct ns as [|n' ns]; [done|].
    rewrite neighbours_of_cons in Hall.
    apply Forall2_cons in Hall as [Hd Hall]. simpl in Hd.
    simpl. unfold getitem, last_item. rewrite Hlast.
    assert (Hnext : extend_sites hops (site_seq ++ [node_index n']) =
                    Ok (site_seq ++ node_index n' :: (node_index <$> ns))).
    { rewrite (IH _ n' ns); [by rewrite <- app_assoc|by rewrite last_snoc|done|].
      simpl in Hlen. lia. }
    destruct Hd as [[Hi He]|[Hi He]]; rewrite Hi, He; simpl.
    + by rewrite py_eq_node_refl.
    + destruct (decide (n' = n)) as [->|Hne].
      * by rewrite py_eq_node_refl.
      * rewrite (py_eq_node_ne _ _ Hne), py_eq_node_refl. done.
Qed.

Lemma site_sequence_chain hop_list n ns :
  hop_list <> [] ->
  Forall2 (fun d p => joins d (node_index p.1) (node_index p.2))
          hop_list (neighbours_of (n :: ns)) ->
  get_hop_site_sequence hop_list (node_index n) = Done (Ok (node_index <$> n :: ns)).
Proof.
  intros Hne Hall. destruct hop_list as [|d hops]; [done|].
  destruct ns as [|n' ns]; [by apply Forall2_length in Hall|].
  rewrite neighbours_of_cons in Hall.
  apply Forall2_cons in Hall as [Hd Hall]. simpl in Hd.
  simpl. f_equal. unfold first_sites, getitem.
  assert (Hrest : extend_sites hops [node_index n; node_index n'] =
                  Ok (node_index n :: node_index n' :: (node_index <$> ns))).
  { rewrite (extend_sites_chain hops _ n' ns); [done|done|done|].
    apply Forall2_length in Hall. by rewrite neighbours_of_length in Hall. }
  destruct Hd as [[Hi He]|[Hi He]]; rewrite ?Hi, ?He; simpl.
  - destruct (decide (n' = n)) as [->|Hn].
    + rewrite py_eq_node_refl. exact Hrest.
    + rewrite (py_eq_node_ne _ _ Hn). exact Hrest.
  - rewrite py_eq_node_refl. exact Hrest.
Qed.

(** What the loop returns, when it returns. *)
Lemma extend_sites_sound hops : forall ms n,
  Forall has_indices hops ->
  extend_sites hops (node_index <$> ms ++ [n]) = Raise RuntimeError \/
  exists ns,
    extend_sites hops (node_index <$> ms ++ [n]) =
      Ok (node_index <$> (ms ++ [n]) ++ ns) /\
    Forall2 (fun d p => joins d (node_index p.1) (node_index p.2))
            hops (neighbours_of (n :: ns)).
Proof.
  induction hops as [|d hops IH]; intros ms n Hall.
  - right. exists []. split; [by rewrite app_nil_r|constructor].
  - apply Forall_cons in Hall as [(a & b & Hi & He) Hall].
    simpl. unfold getitem. rewrite Hi, He. simpl.
    rewrite fmap_app. simpl. rewrite !last_item_snoc. simpl.
    assert (Hstep : forall n', joins d (node_index n) (node_index n') ->
      extend_sites hops ((node_index <$> ms) ++ [node_index n; node_index n']) =
        Raise RuntimeError \/
      exists ns,
        extend_sites hops ((node_index <$> ms) ++ [node_index n; node_index n']) =
          Ok (node_index <$> (ms ++ [n]) ++ ns) /\
        Forall2 (fun d p => joins d (node_index p.1) (node_index p.2))
                (d :: hops) (neighbours_of (n :: ns))).
    { intros n' Hj. destruct (IH (ms ++ [n]) n' Hall) as [Hr|(ns & Hr & Hf)];
        rewrite !fmap_app, <- !app_assoc in Hr; simpl in Hr.
      - by left.
      - right. exists (n' :: ns). split.
        + rewrite Hr. f_equal. rewrite !fmap_app, <- !app_assoc. done.
        + rewrite neighbours_of_cons. by constructor. }
    rewrite <- !app_assoc. simpl.
    destruct (decide (a = n)) as [->|Hna].
    + rewrite py_eq_node_refl. apply Hstep. by left.
    + rewrite (py_eq_node_ne _ _ Hna).
      destruct (decide (b = n)) as [->|Hnb].
      * rewrite py_eq_node_refl. apply Hstep. by right.
      * rewrite (py_eq_node_ne _ _ Hnb). by left.
Qed.

Section site_sequence.
Variable hop_list : list dict.
Hypothesis some_hop : hop_list <> [].
Hypothesis all_indexed : Forall has_indices hop_list.

Lemma site_sequence_sound start_u :
  get_hop_site_sequence hop_list start_u = Done (Raise RuntimeError) \/
  exists ns,
    get_hop_site_sequence hop_list start_u = Done (Ok (node_index <$> ns)) /\
    length ns = S (length hop_list) /\
    Forall2 (fun d p => joins d (node_index p.1) (node_index p.2))
            hop_list (neighbours_of ns) /\
    (forall d i e n0,
       head hop_list = Some d -> d !! "iindex" = Some i -> d !! "eindex" = Some e ->
       head ns = Some n0 ->
       (py_eq (node_index n0) start_u = true <->
        py_eq i start_u = true \/ py_eq e start_u = true)).
Proof.
  destruct hop_list as [|d hops]; [done|].
  apply Forall_cons in all_indexed as [(a & b & Hi & He) Hall].
  simpl. unfold first_sites, getitem. rewrite Hi, He. simpl.
  assert (Hrest : forall x y, joins d (node_index x) (node_index y) ->
    (py_eq (node_index x) start_u = true <->
     py_eq (node_index a) start_u = true \/ py_eq (node_index b) start_u = true) ->
    Done (extend_sites hops [node_index x; node_index y]) = Done (Raise RuntimeError) \/
    exists ns,
      Done (extend_sites hops [node_index x; node_index y]) = Done (Ok (node_index <$> ns)) /\
      length ns = S (S (length hops)) /\
      Forall2 (fun d p => joins d (node_index p.1) (node_index p.2))
              (d :: hops) (neighbours_of ns) /\
      (forall d0 i e n0,
         Some d = Some d0 -> d0 !! "iindex" = Some i -> d0 !! "eindex" = Some e ->
         head ns = Some n0 ->
         (py_eq (node_index n0) start_u = true <->
          py_eq i start_u = true \/ py_eq e start_u = true))).
  { intros x y Hj Hstart.
    destruct (extend_sites_sound hops [x] y Hall) as [Hr|(ns & Hr & Hf)];
      simpl in Hr; rewrite Hr; [by left|right].
    exists (x :: y :: ns). split; [done|]. split.
    - simpl. f_equal. f_equal. apply Forall2_length in Hf.
      by rewrite neighbours_of_length in Hf.
    - split; [rewrite neighbours_of_cons; by constructor|].
      intros d0 i e n0 [= <-] Hi' He' [= <-].
      rewrite Hi in Hi'. rewrite He in He'. injection Hi' as <-. injection He' as <-.
      exact Hstart. }
  destruct (py_eq (node_index b) start_u) eqn:Hb.
  - apply Hrest; [by right|]. tauto.
  - apply Hrest; [by left|]. split; [tauto|]. intros [?|?]; [done|congruence].
Qed.

End site_sequence.

(** With hops that hold the indices of their nodes and from the first
    site [n], the call returns the sites [n, n1, ...] exactly when each
    hop joins two consecutive sites of that sequence. *)
Theorem get_hop_site_sequence_joins hop_list n ns :
  hop_list <> [] -> Forall has_indices hop_list ->
  (get_hop_site_sequence hop_list (node_index n) =
     Done (Ok (node_index <$> n :: ns)) <->
   Forall2 (fun d p => joins d (node_index p.1) (node_index p.2))
           hop_list (neighbours_of (n :: ns))).
Proof.
  intros Hne Hall. split; [|by apply site_sequence_chain].
  intros Hrun.
  destruct (site_sequence_sound hop_list Hne Hall (node_index n))
    as [Hr|(ns' & Hr & _ & Hf & _)]; rewrite Hr in Hrun; [done|].
  injection Hrun as Heq.
  apply (node_index_fmap_inj ns' (n :: ns)) in Heq. by rewrite Heq in Hf.
Qed.

(** With hops that hold the indices of their nodes, the call raises
    [RuntimeError] or returns one site more than there are hops, each hop
    joining two consecutive sites; the sequence starts at [start_u]
    exactly when [start_u] is an end of the first hop. *)
Theorem get_hop_site_sequence_outcome hop_list start_u :
  hop_list <> [] -> Forall has_indices hop_list ->
  get_hop_site_sequence hop_list start_u = Done (Raise RuntimeError) \/
  exists ns,
    get_hop_site_sequence hop_list start_u = Done (Ok (node_index <$> ns)) /\
    length ns = S (length hop_list) /\
    Forall2 (fun d p => joins d (node_index p.1) (node_index p.2))
            hop_list (neighbours_of ns) /\
    (forall d i e n0,
       head hop_list = Some d -> d !! "iindex" = Some i -> d !! "eindex" = Some e ->
       head ns = Some n0 ->
       (py_eq (node_index n0) start_u = true <->
        py_eq i start_u = true \/ py_eq e start_u = true)).
Proof. intros Hne Hall. exact (site_sequence_sound hop_list Hne Hall start_u). Qed.

(** *** The sites of a reconstructed path *)

Lemma scan_edge_data_new cands : forall image_diff path_hops found_ hops' found',
  scan_edge_data cands image_diff path_hops found_ = Ok (hops', found') ->
  exists new, hops' = path_hops ++ new /\ found' = (found_ + length new)%nat /\
              forall d, d ∈ new -> d ∈ cands.*2.
Proof.
  induction cands as [|[k tmp_d] cands IH];
    intros image_diff path_hops found_ hops' found' H; simpl in H.
  - injection H as <- <-. exists []. rewrite app_nil_r. split; [done|].
    split; [simpl; lia|]. by intros d ?%elem_of_nil.
  - ok_bind H. destruct (bool_decide _).
    + destruct (IH _ _ _ _ _ H) as (new & -> & -> & Hin).
      exists (tmp_d :: new). rewrite <- app_assoc. split; [done|].
      split; [simpl; lia|].
      intros d [->|Hd]%elem_of_cons; simpl; apply elem_of_cons; [by left|].
      right. by apply Hin.
    + destruct (IH _ _ _ _ _ H) as (new & -> & -> & Hin).
      exists new. split; [done|]. split; [done|].
      intros d Hd. simpl. apply elem_of_cons. right. by apply Hin.
Qed.

Lemma reconstruct_step_joins GG path_hops s1 s2 hops' :
  Forall indexed (edges GG) ->
  reconstruct_step GG path_hops s1 s2 = Ok hops' ->
  exists d, hops' = path_hops ++ [d] /\
            joins d (node_index s1.1) (node_index s2.1).
Proof.
  destruct s1 as [idx1 jimage1], s2 as [idx2 jimage2]. unfold reconstruct_step.
  intros Hidx H. ok_bind H. destruct a as [hops found_].
  case_bool_decide as Hone; [done|]. injection H as <-.
  destruct (scan_edge_data_new _ _ _ _ _ _ E) as (new & -> & Hlen & Hin).
  assert (Hl : length new = 1%nat) by lia.
  destruct new as [|d [|? ?]]; try done. exists d. split; [done|].
  assert (Hd0 : d ∈ [d]) by (by apply list_elem_of_singleton).
  apply Hin, list_elem_of_fmap in Hd0 as (kd & Hd & Hkd).
  unfold get_edge_data in Hkd.
  apply list_elem_of_fmap in Hkd as (e & -> & He).
  apply list_elem_of_filter in He as [[Hu Hv] He].
  destruct (proj1 (Forall_forall _ _) Hidx e He) as [Hi Hei].
  simpl in Hd. subst d. rewrite Hu in Hi. rewrite Hv in Hei. simpl.
  destruct (Nat.le_ge_cases idx1 idx2) as [Hle|Hle].
  - rewrite Nat.min_l, Nat.max_r in * by done. by left.
  - rewrite Nat.min_r, Nat.max_l in * by done. by right.
Qed.

Lemma reconstruct_loop_joins GG pairs : forall path_hops hops',
  Forall indexed (edges GG) ->
  reconstruct_loop GG path_hops pairs = Ok hops' ->
  exists new, hops' = path_hops ++ new /\
    Forall2 (fun d (p : pstate * pstate) =>
               joins d (node_index p.1.1) (node_index p.2.1)) new pairs.
Proof.
  induction pairs as [|[s1 s2] pairs IH]; intros path_hops hops' Hidx H; simpl in H.
  - injection H as <-. exists []. by rewrite app_nil_r.
  - ok_bind H. destruct (reconstruct_step_joins _ _ _ _ _ Hidx E) as (d & -> & Hd).
    destruct (IH _ _ Hidx H) as (new & -> & Hall).
    exists (d :: new). rewrite <- app_assoc. split; [done|]. by constructor.
Qed.

Lemma consecutive_zip (path : list pstate) : consecutive path = zip path (tail path).
Proof.
  unfold consecutive. induction path as [|a [|b path] IH]; try done.
  change (removelast (a :: b :: path)) with (a :: removelast (b :: path)).
  simpl in *. by rewrite IH.
Qed.

Lemma neighbours_of_fmap {A B} (f : A -> B) (l : list A) :
  neighbours_of (f <$> l) = (fun p => (f p.1, f p.2)) <$> neighbours_of l.
Proof.
  unfold neighbours_of. induction l as [|a [|b l] IH]; try done.
  simpl in *. f_equal. exact IH.
Qed.

(** The hops [get_intercollating_path] reconstructs for a path of the
    periodic search, in a graph whose edges carry the indices of their
    end nodes, give back the nodes of that path: from the node the path
    starts at, [get_hop_site_sequence] returns the nodes of the path in
    order. *)
Theorem reconstructed_site_sequence GG path path_hops u jimage rest :
  Forall indexed (edges GG) ->
  path = (u, jimage) :: rest -> rest <> [] ->
  reconstruct GG path = Ok path_hops ->
  get_hop_site_sequence path_hops (node_index u) =
    Done (Ok (node_index <$> path.*1)).
Proof.
  intros Hidx -> Hrest H. unfold reconstruct in H.
  destruct (reconstruct_loop_joins _ _ _ _ Hidx H) as (new & -> & Hall).
  rewrite consecutive_zip in Hall. rewrite app_nil_l.
  rewrite fmap_cons. apply site_sequence_chain.
  - destruct rest as [|s rest]; [done|]. by inversion Hall.
  - change (fst (u, jimage) :: rest.*1) with (((u, jimage) :: rest).*1).
    rewrite neighbours_of_fmap. by apply Forall2_fmap_r.
Qed.

Example site_sequence_empty start_u :
  get_hop_site_sequence [] start_u = StopIteration.
Proof. reflexivity. Qed.

Lemma sample_hops_indexed : Forall has_indices [Example.hop_in; Example.hop_out].
Proof.
  apply Forall_cons. split; [by exists 0%nat, 1%nat|].
  apply Forall_cons. split; [by exists 0%nat, 1%nat|]. apply Forall_nil. exact I.
Qed.

Lemma get_hop_site_sequence_joins_witness :
  get_hop_site_sequence [Example.hop_in; Example.hop_out] (node_index 0) =
    Done (Ok (node_index <$> [0; 1; 0]%nat)) <->
  Forall2 (fun d p => joins d (node_index p.1) (node_index p.2))
          [Example.hop_in; Example.hop_out] (neighbours_of [0; 1; 0]%nat).
Proof.
  apply (get_hop_site_sequence_joins [Example.hop_in; Example.hop_out] 0 [1; 0]%nat).
  - discriminate.
  - exact sample_hops_indexed.
Defined.

Lemma get_hop_site_sequence_outcome_witness :
  get_hop_site_sequence [Example.hop_in; Example.hop_out] (node_index 7) =
    Done (Raise RuntimeError) \/
  exists ns,
    get_hop_site_sequence [Example.hop_in; Example.hop_out] (node_index 7) =
      Done (Ok (node_index <$> ns)) /\
    length ns = 3%nat /\
    Forall2 (fun d p => joins d (node_index p.1) (node_index p.2))
            [Example.hop_in; Example.hop_out] (neighbours_of ns) /\
    (forall d i e n0,
       head [Example.hop_in; Example.hop_out] = Some d ->
       d !! "iindex" = Some i -> d !! "eindex" = Some e ->
       head ns = Some n0 ->
       (py_eq (node_index n0) (node_index 7) = true <->
        py_eq i (node_index 7) = true \/ py_eq e (node_index 7) = true)).
Proof.
  apply (get_hop_site_sequence_outcome [Example.hop_in; Example.hop_out] (node_index 7)).
  - discriminate.
  - exact sample_hops_indexed.
Defined.

Lemma reconstructed_site_sequence_witness :
  reconstruct Example.two_nodes Example.through_one =
    Ok [Example.hop_in; Example.hop_out] /\
  get_hop_site_sequence [Example.hop_in; Example.hop_out] (node_index 0) =
    Done (Ok (node_index <$> Example.through_one.*1)).
Proof.
  assert (H : reconstruct Example.two_nodes Example.through_one =
              Ok [Example.hop_in; Example.hop_out]) by reflexivity.
  split; [exact H|].
  apply (reconstructed_site_sequence Example.two_nodes Example.through_one _
           0%nat jzero [(1%nat, jzero); (0%nat, (1, 0, 0))]).
  - apply Forall_cons. split; [by split|].
    apply Forall_cons. split; [by split|]. apply Forall_nil. exact I.
  - reflexivity.
  - discriminate.
  - exact H.
Defined.

(** ** Hops of a supercell and hops of the unit cell *)

(** Induction on a nested value, with the property at hand for the
    items of a sequence. *)
Lemma nested_induction (P : nested -> Prop) :
  (forall x, P (Num x)) ->
  (forall items, Forall P items -> P (Seq items)) ->
  P Obj ->
  forall a, P a.
Proof.
  intros HN HS HO. fix IH 1. intros [x|items|]; [apply HN| |apply HO].
  apply HS. induction items as [|a items IHl]; constructor; [apply IH|exact IHl].
Qed.

Lemma Qgt_bool_iff x y : Qgt_bool x y = true <-> (y < x)%Q.
Proof.
  unfold Qgt_bool. rewrite negb_true_iff, <- not_true_iff_false, Qle_bool_iff.
  split; [apply Qnot_le_lt|apply Qlt_not_le].
Qed.

Lemma Qgt_bool_comp x x' y y' :
  (x == x')%Q -> (y == y')%Q -> Qgt_bool x y = Qgt_bool x' y'.
Proof.
  intros Hx Hy. apply eq_true_iff_eq. rewrite !Qgt_bool_iff. by rewrite Hx, Hy.
Qed.

Lemma almost_unfold_seq xs ys :
  almost (Seq xs) (Seq ys) =
    match mapM id (zip_with almost xs ys) with
    | Ok bs => Ok (forallb id bs)
    | Raise _ => Raise NotImplementedError
    end.
Proof. done. Qed.

(** The order of the arguments of [almost] does not matter. *)
Lemma almost_sym_all a : forall b, almost a b = almost b a.
Proof.
  induction a as [x|xs IH|] using nested_induction; intros [y|ys|]; try done.
  - cbn [almost]. by rewrite Qabs_Qminus.
  - rewrite !almost_unfold_seq.
    assert (Hz : zip_with almost xs ys = zip_with almost ys xs).
    { revert ys. induction IH as [|x xs Hx _ IHl]; intros [|y ys]; try done.
      simpl. by rewrite Hx, IHl. }
    by rewrite Hz.
Qed.

(** On two vectors of numbers [almost] never raises, and computes the
    test [close_bool]. *)
Lemma almost_vec x y : almost (vec x) (vec y) = Ok (close_bool x y).
Proof.
  unfold vec, close_bool. rewrite almost_unfold_seq.
  assert (H : mapM id (zip_with almost (Num <$> x) (Num <$> y)) =
              Ok (zip_with (fun a b => Qgt_bool SMALL_VAL (Qabs (a - b))) x y)).
  { revert y. induction x as [|a x IH]; intros [|b y]; try done.
    simpl. rewrite IH. done. }
  by rewrite H.
Qed.

Lemma close_bool_spec x y :
  length x = length y -> (close_bool x y = true <-> close x y).
Proof.
  unfold close_bool, close. revert y.
  induction x as [|a x IH]; intros [|b y] Hlen; try done.
  simpl. rewrite andb_true_iff, Forall2_cons, Qgt_bool_iff.
  rewrite IH by (simpl in Hlen; lia). done.
Qed.


Lemma bind_Ok {A B} (a : A) (f : A -> result B) : Ok a ≫= f = f a.
Proof. done. Qed.

(** A call that has returned passes its value on. *)
Ltac bind_ok := rewrite bind_Ok; cbv beta.

Lemma np_add_same x idir :
  length x = length idir -> np_add x idir = Ok (shifted x idir).
Proof. intros H. unfold np_add. by rewrite bool_decide_eq_true_2. Qed.

Lemma shifted_length x idir :
  length x = length idir -> length (shifted x idir) = length x.
Proof.
  intros H. unfold shifted. rewrite length_zip_with, length_fmap. lia.
Qed.

Lemma doubled_length x : length (doubled x) = length x.
Proof. unfold doubled. by rewrite length_fmap. Qed.

(** Two images that bring one position within [SMALL_VAL] of another
    are the same image. *)
Lemma close_shift_unique_1 (a s : Q) (d d' : Z) :
  (Qabs (a + inject_Z d - s) < SMALL_VAL)%Q ->
  (Qabs (a + inject_Z d' - s) < SMALL_VAL)%Q -> d = d'.
Proof.
  intros H1 H2. apply Qabs_Qlt_condition in H1 as [H1l H1u].
  apply Qabs_Qlt_condition in H2 as [H2l H2u]. unfold SMALL_VAL in *.
  assert (Hlt : (inject_Z d - inject_Z d' < 1)%Q) by lra.
  assert (Hgt : (inject_Z d' - inject_Z d < 1)%Q) by lra.
  unfold Qminus in Hlt, Hgt. rewrite <- inject_Z_opp, <- inject_Z_plus in Hlt, Hgt.
  change 1%Q with (inject_Z 1) in Hlt, Hgt.
  rewrite <- Zlt_Qlt in Hlt, Hgt. lia.
Qed.

Lemma close_shift_unique x : forall s d d',
  length x = length d -> length x = length d' ->
  close (shifted x d) s -> close (shifted x d') s -> d = d'.
Proof.
  unfold close, shifted.
  induction x as [|a x IH]; intros s [|b d] [|b' d'] Hd Hd' H1 H2; try done.
  rewrite fmap_cons in H1, H2.
  change (Forall2 (fun a b => (Qabs (a - b) < SMALL_VAL)%Q)
            ((a + inject_Z b)%Q :: zip_with Qplus x (inject_Z <$> d)) s) in H1.
  change (Forall2 (fun a b => (Qabs (a - b) < SMALL_VAL)%Q)
            ((a + inject_Z b')%Q :: zip_with Qplus x (inject_Z <$> d')) s) in H2.
  destruct s as [|c s]; [by inversion H1|].
  apply Forall2_cons in H1 as [H1 H1'], H2 as [H2 H2'].
  f_equal.
  - exact (close_shift_unique_1 a c b b' H1 H2).
  - apply (IH s); [simpl in Hd; lia|simpl in Hd'; lia|done|done].
Qed.

Section check_proofs.
Variable msite : MigrationPath -> PeriodicSite.
Variables sc_ipos sc_epos sc_mpos uc_ipos uc_epos uc_mpos : list Q.
Hypothesis len_si : length sc_ipos = 3%nat.
Hypothesis len_se : length sc_epos = 3%nat.
Hypothesis len_sm : length sc_mpos = 3%nat.
Hypothesis len_ui : length uc_ipos = 3%nat.
Hypothesis len_ue : length uc_epos = 3%nat.
Hypothesis len_um : length uc_mpos = 3%nat.

(** The six positions are arrays and lists of floats. *)
Local Abbreviation floats := (mkCoords false).
Local Abbreviation check_one :=
  (check_direction (floats sc_ipos) (floats sc_epos) (floats sc_mpos)
                   (floats uc_ipos) (floats uc_epos) (floats uc_mpos)).
Local Abbreviation check_all :=
  (check_directions (floats sc_ipos) (floats sc_epos) (floats sc_mpos)
                    (floats uc_ipos) (floats uc_epos) (floats uc_mpos)).

(** The image [idir] brings the hop of the unit cell on the hop of the
    supercell: at the middle, at the two ends, and at the two ends once
    the hop is flipped. *)
Local Abbreviation at_middle idir := (close (shifted uc_mpos idir) sc_mpos).
Local Abbreviation at_ends idir :=
  (close (shifted uc_ipos idir) sc_ipos /\ close (shifted uc_epos idir) sc_epos).
Local Abbreviation at_flipped_ends idir :=
  (close (shifted uc_epos idir) sc_ipos /\ close (shifted uc_ipos idir) sc_epos).

Lemma check_direction_spec idir :
  length idir = 3%nat ->
  check_one idir =
    Ok (if close_bool (shifted uc_mpos idir) sc_mpos then
          if close_bool (shifted uc_ipos idir) sc_ipos &&
             close_bool (shifted uc_epos idir) sc_epos
          then Some (idir, false)
          else if close_bool (shifted uc_epos idir) sc_ipos &&
                  close_bool (shifted uc_ipos idir) sc_epos
               then Some (idir, true) else None
        else None).
Proof.
  intros Hd. unfold check_direction, add_image, seen. cbn [int_items c_items].
  rewrite (np_add_same uc_mpos), (np_add_same uc_ipos), (np_add_same uc_epos)
    by congruence.
  repeat bind_ok. cbn [int_items c_items]. rewrite !almost_vec. bind_ok.
  destruct (close_bool (shifted uc_mpos idir) sc_mpos); [|done].
  repeat bind_ok. cbn [int_items c_items]. rewrite ?almost_vec.
  destruct (close_bool (shifted uc_ipos idir) sc_ipos);
    destruct (close_bool (shifted uc_epos idir) sc_epos);
    repeat bind_ok; cbn [andb]; try done;
    destruct (close_bool (shifted uc_epos idir) sc_ipos);
    destruct (close_bool (shifted uc_ipos idir) sc_epos);
    repeat bind_ok; done.
Qed.

Lemma check_direction_found idir found :
  length idir = 3%nat ->
  check_one idir = Ok (Some found) ->
  found.1 = idir /\ at_middle idir /\
  if found.2 then ~ at_ends idir /\ at_flipped_ends idir else at_ends idir.
Proof.
  intros Hd. rewrite (check_direction_spec idir Hd).
  assert (Hl : forall x s, length x = 3%nat -> length s = 3%nat ->
            (close_bool (shifted x idir) s = true <-> close (shifted x idir) s)).
  { intros x s Hx Hs. apply close_bool_spec.
    rewrite shifted_length; congruence. }
  destruct (close_bool (shifted uc_mpos idir) sc_mpos) eqn:Hm; [|done].
  apply Hl in Hm; [|done..].
  destruct (close_bool (shifted uc_ipos idir) sc_ipos) eqn:Hii;
    destruct (close_bool (shifted uc_epos idir) sc_epos) eqn:Hee; simpl.
  - intros [= <-]. simpl. apply Hl in Hii, Hee; done.
  - destruct (close_bool (shifted uc_epos idir) sc_ipos) eqn:Hei;
      destruct (close_bool (shifted uc_ipos idir) sc_epos) eqn:Hie; simpl; try done.
    intros [= <-]. simpl. apply Hl in Hei, Hie; try done.
    repeat split; try done. intros [_ Hc]. apply Hl in Hc; [congruence|done..].
  - destruct (close_bool (shifted uc_epos idir) sc_ipos) eqn:Hei;
      destruct (close_bool (shifted uc_ipos idir) sc_epos) eqn:Hie; simpl; try done.
    intros [= <-]. simpl. apply Hl in Hei, Hie; try done.
    repeat split; try done. intros [Hc _]. apply Hl in Hc; [congruence|done..].
  - destruct (close_bool (shifted uc_epos idir) sc_ipos) eqn:Hei;
      destruct (close_bool (shifted uc_ipos idir) sc_epos) eqn:Hie; simpl; try done.
    intros [= <-]. simpl. apply Hl in Hei, Hie; try done.
    repeat split; try done. intros [Hc _]. apply Hl in Hc; [congruence|done..].
Qed.

Lemma check_direction_finds idir (flip : bool) :
  length idir = 3%nat -> at_middle idir ->
  (if flip then ~ at_ends idir /\ at_flipped_ends idir else at_ends idir) ->
  check_one idir = Ok (Some (idir, flip)).
Proof.
  intros Hd Hm Hends. rewrite (check_direction_spec idir Hd).
  assert (Hl : forall x s, length x = 3%nat -> length s = 3%nat ->
            (close_bool (shifted x idir) s = true <-> close (shifted x idir) s)).
  { intros x s Hx Hs. apply close_bool_spec.
    rewrite shifted_length; congruence. }
  apply Hl in Hm; [|done..]. rewrite Hm.
  destruct flip.
  - destruct Hends as [Hno [Hei Hie]]. apply Hl in Hei, Hie; try done.
    rewrite Hei, Hie. simpl.
    destruct (close_bool (shifted uc_ipos idir) sc_ipos) eqn:Hii;
      destruct (close_bool (shifted uc_epos idir) sc_epos) eqn:Hee; simpl; try done.
    exfalso. apply Hno. split; apply Hl; done.
  - destruct Hends as [Hii Hee]. apply Hl in Hii, Hee; try done.
    by rewrite Hii, Hee.
Qed.

Lemma check_directions_sound dirs : forall found,
  Forall (fun idir => length idir = 3%nat) dirs ->
  check_all dirs = Ok (Some found) ->
  found.1 ∈ dirs /\ at_middle found.1 /\
  if found.2 then ~ at_ends found.1 /\ at_flipped_ends found.1
  else at_ends found.1.
Proof.
  induction dirs as [|idir dirs IH]; intros found Hall H; [done|].
  apply Forall_cons in Hall as [Hd Hall]. simpl in H.
  destruct (check_one idir) as [[f|]|] eqn:Hone; simpl in H; try done.
  - injection H as <-.
    destruct (check_direction_found idir f Hd Hone) as (Hf & Hm & He).
    rewrite Hf. split; [apply elem_of_cons; by left|done].
  - destruct (IH found Hall H) as (Hin & Hrest).
    split; [apply elem_of_cons; by right|done].
Qed.

Lemma check_directions_total dirs :
  Forall (fun idir => length idir = 3%nat) dirs ->
  exists r, check_all dirs = Ok r.
Proof.
  induction 1 as [|idir dirs Hd _ [r IH]]; [by exists None|].
  simpl. rewrite (check_direction_spec idir Hd). simpl.
  repeat (destruct (close_bool _ _); simpl); eauto.
Qed.

Lemma check_directions_complete dirs : forall idir (flip : bool),
  Forall (fun idir => length idir = 3%nat) dirs ->
  idir ∈ dirs -> at_middle idir ->
  (if flip then ~ at_ends idir /\ at_flipped_ends idir else at_ends idir) ->
  check_all dirs = Ok (Some (idir, flip)).
Proof.
  induction dirs as [|d0 dirs IH]; intros idir flip Hall Hin Hm He.
  - by apply elem_of_nil in Hin.
  - apply Forall_cons in Hall as [Hd Hall]. simpl.
    destruct (decide (d0 = idir)) as [->|Hne].
    + by rewrite (check_direction_finds idir flip Hd Hm He).
    + apply elem_of_cons in Hin as [->|Hin]; [done|].
      destruct (check_one d0) as [[f|]|] eqn:Hone; simpl.
      * exfalso. apply Hne.
        destruct (check_direction_found d0 f Hd Hone) as (_ & Hm0 & _).
        apply (close_shift_unique uc_mpos sc_mpos); try done; try congruence.
        rewrite len_um. symmetry.
        exact (proj1 (Forall_forall _ _) Hall idir Hin).
      * by apply IH.
      * rewrite (check_direction_spec d0 Hd) in Hone. done.
Qed.

End check_proofs.

Lemma directions_length : Forall (fun idir => length idir = 3%nat) directions.
Proof. repeat constructor. Qed.

Lemma almost_raises a b err : almost a b = Raise err -> err = NotImplementedError.
Proof.
  destruct a as [x|xs|], b as [y|ys|]; try (by intros [= <-]).
  rewrite almost_unfold_seq.
  destruct (mapM id (zip_with almost xs ys)); by intros [= <-].
Qed.

(** A sequence that holds numpy integers cannot be compared with a
    sequence that is not empty. *)
Lemma almost_seen_integers a b :
  int_items a = true \/ int_items b = true ->
  c_items a <> [] -> c_items b <> [] ->
  almost (seen a) (seen b) = Raise NotImplementedError.
Proof.
  intros Hint Ha Hb. unfold seen, vec.
  destruct (c_items a) as [|x xs]; [done|].
  destruct (c_items b) as [|y ys]; [done|].
  destruct Hint as [-> | ->].
  - by destruct (int_items b).
  - by destruct (int_items a).
Qed.

Lemma seen_floats x : int_items x = false -> seen x = vec (c_items x).
Proof. unfold seen. by intros ->. Qed.

Lemma add_image_raises x idir err :
  add_image x idir = Raise err -> err = ValueError.
Proof.
  unfold add_image, np_add.
  destruct (bool_decide _); [done|].
  destruct (c_items x) as [|a [|a' l]], idir as [|d [|d' ds]];
    try done; by intros [= <-].
Qed.

Lemma add_image_same x idir :
  length (c_items x) = length idir ->
  add_image x idir = Ok (mkCoords (int_items x) (shifted (c_items x) idir)).
Proof. intros H. unfold add_image. by rewrite np_add_same. Qed.

Section check_uc_hop_proofs.
Variable msite : MigrationPath -> PeriodicSite.
Variable int_dtype : PeriodicSite -> bool.
Variables sc_hop uc_hop : MigrationPath.
Hypothesis sc_three :
  length (frac_coords (isite sc_hop)) = 3%nat /\
  length (frac_coords (esite sc_hop)) = 3%nat /\
  length (frac_coords (msite sc_hop)) = 3%nat.
Hypothesis uc_three :
  length (frac_coords (isite uc_hop)) = 3%nat /\
  length (frac_coords (esite uc_hop)) = 3%nat /\
  length (frac_coords (msite uc_hop)) = 3%nat.

Local Abbreviation pos site hop := (frac_coords (site hop)).

Section float_coordinates.
Hypothesis sc_floats :
  int_dtype (isite sc_hop) = false /\ int_dtype (esite sc_hop) = false /\
  int_dtype (msite sc_hop) = false.
Hypothesis uc_floats :
  int_dtype (isite uc_hop) = false /\ int_dtype (esite uc_hop) = false /\
  int_dtype (msite uc_hop) = false.

(** For two hops with three coordinates at each site, held as floats
    (arrays of dtype [float64]), [check_uc_hop] raises nothing, and
    returns the image [idir] with the flag [flip] exactly when [idir] is
    one of the eight images, it brings the middle of the hop of the unit
    cell within [SMALL_VAL] of the doubled middle of the hop of the
    supercell, and it brings its two ends on the doubled ends of the
    other: in the same order when [flip] is false, and in the opposite
    order and not in the same order when [flip] is true. *)
Theorem check_uc_hop_iff :
  (exists r, check_uc_hop msite int_dtype sc_hop uc_hop = Ok r) /\
  forall idir (flip : bool),
    check_uc_hop msite int_dtype sc_hop uc_hop = Ok (Some (idir, flip)) <->
    idir ∈ directions /\
    close (shifted (pos msite uc_hop) idir) (doubled (pos msite sc_hop)) /\
    let same :=
      close (shifted (pos isite uc_hop) idir) (doubled (pos isite sc_hop)) /\
      close (shifted (pos esite uc_hop) idir) (doubled (pos esite sc_hop)) in
    let opposite :=
      close (shifted (pos esite uc_hop) idir) (doubled (pos isite sc_hop)) /\
      close (shifted (pos isite uc_hop) idir) (doubled (pos esite sc_hop)) in
    if flip then ~ same /\ opposite else same.
Proof.
  destruct sc_three as (Hsi & Hse & Hsm), uc_three as (Hui & Hue & Hum).
  destruct sc_floats as (Fsi & Fse & Fsm), uc_floats as (Fui & Fue & Fum).
  unfold check_uc_hop, coords_of, doubled_coords. cbn [int_items c_items].
  rewrite Fsi, Fse, Fsm, Fui, Fue, Fum.
  assert (Hdsi : length (doubled (pos isite sc_hop)) = 3%nat)
    by (by rewrite doubled_length).
  assert (Hdse : length (doubled (pos esite sc_hop)) = 3%nat)
    by (by rewrite doubled_length).
  assert (Hdsm : length (doubled (pos msite sc_hop)) = 3%nat)
    by (by rewrite doubled_length).
  split.
  - apply check_directions_total; try done. apply directions_length.
  - intros idir flip. cbv zeta. split.
    + intros H.
      exact (check_directions_sound _ _ _ _ _ _ Hdsi Hdse Hdsm Hui Hue Hum
               directions (idir, flip) directions_length H).
    + intros (Hin & Hm & He).
      exact (check_directions_complete _ _ _ _ _ _ Hdsi Hdse Hdsm Hui Hue Hum
               directions idir flip directions_length Hin Hm He).
Qed.

End float_coordinates.

Lemma check_direction_integer_middle si se sm ui ue um idir :
  int_items sm = true \/ int_items um = true ->
  length (c_items sm) = 3%nat -> length (c_items um) = 3%nat ->
  length idir = 3%nat ->
  check_direction si se sm ui ue um idir = Raise NotImplementedError.
Proof.
  intros Hint Hsm Hum Hd. unfold check_direction.
  rewrite (add_image_same um) by congruence. bind_ok.
  rewrite almost_seen_integers; [done| | |].
  - cbn [int_items]. tauto.
  - cbn [c_items]. intros H. apply (f_equal length) in H.
    rewrite shifted_length in H by congruence. simpl in H. lia.
  - intros H. rewrite H in Hsm. done.
Qed.

Lemma check_direction_integer_start si se sm ui ue um idir :
  int_items sm = false -> int_items um = false ->
  int_items si = true \/ int_items ui = true ->
  length (c_items si) = 3%nat -> length (c_items ui) = 3%nat ->
  length (c_items ue) = 3%nat -> length (c_items um) = 3%nat ->
  length idir = 3%nat ->
  check_direction si se sm ui ue um idir =
    if close_bool (shifted (c_items um) idir) (c_items sm)
    then Raise NotImplementedError else Ok None.
Proof.
  intros Fsm Fum Hint Hsi Hui Hue Hum Hd. unfold check_direction.
  rewrite !add_image_same by congruence. repeat bind_ok.
  rewrite (seen_floats sm Fsm).
  rewrite (seen_floats (mkCoords (int_items um) (shifted (c_items um) idir)) Fum).
  cbn [c_items]. rewrite almost_vec. bind_ok.
  destruct (close_bool _ _); [|done].
  rewrite (almost_seen_integers
             (mkCoords (int_items ui) (shifted (c_items ui) idir)) si);
    [done| | |].
  - cbn [int_items]. tauto.
  - cbn [c_items]. intros H. apply (f_equal length) in H.
    rewrite shifted_length in H by congruence. simpl in H. lia.
  - intros H. rewrite H in Hsi. done.
Qed.

(** With coordinates that are numpy integers, [check_uc_hop] cannot
    compare.  When the middle of one of the two hops holds integers, it
    raises [NotImplementedError].  When the two middles hold floats and
    the initial site of one of the hops holds integers, it raises
    [NotImplementedError] as soon as an image brings the middle of the
    hop of the unit cell within [SMALL_VAL] of the doubled middle of the
    hop of the supercell, and returns [None] when none of the eight
    images does. *)
Theorem check_uc_hop_integer_coordinates :
  (int_dtype (msite sc_hop) = true \/ int_dtype (msite uc_hop) = true ->
   check_uc_hop msite int_dtype sc_hop uc_hop = Raise NotImplementedError) /\
  (int_dtype (msite sc_hop) = false -> int_dtype (msite uc_hop) = false ->
   int_dtype (isite sc_hop) = true \/ int_dtype (isite uc_hop) = true ->
   ((exists idir, idir ∈ directions /\
       close (shifted (pos msite uc_hop) idir) (doubled (pos msite sc_hop))) ->
    check_uc_hop msite int_dtype sc_hop uc_hop = Raise NotImplementedError) /\
   ((forall idir, idir ∈ directions ->
       ~ close (shifted (pos msite uc_hop) idir) (doubled (pos msite sc_hop))) ->
    check_uc_hop msite int_dtype sc_hop uc_hop = Ok None)).
Proof.
  destruct sc_three as (Hsi & Hse & Hsm), uc_three as (Hui & Hue & Hum).
  unfold check_uc_hop. split.
  - intros Hint. unfold directions. cbn [check_directions].
    rewrite (check_direction_integer_middle _ _ _ _ _ _ [0; 0; 0]);
      [done| | | |done].
    + exact Hint.
    + cbn [doubled_coords coords_of c_items]. by rewrite doubled_length.
    + exact Hum.
  - intros Fsm Fum Hint.
    assert (Hrun : forall dirs, Forall (fun idir => length idir = 3%nat) dirs ->
              check_directions
                (doubled_coords (coords_of int_dtype (isite sc_hop)))
                (doubled_coords (coords_of int_dtype (esite sc_hop)))
                (doubled_coords (coords_of int_dtype (msite sc_hop)))
                (coords_of int_dtype (isite uc_hop))
                (coords_of int_dtype (esite uc_hop))
                (coords_of int_dtype (msite uc_hop)) dirs =
              if existsb (fun idir => close_bool (shifted (pos msite uc_hop) idir)
                                        (doubled (pos msite sc_hop))) dirs
              then Raise NotImplementedError else Ok None).
    { induction 1 as [|idir dirs Hd _ IH]; [done|]. cbn [check_directions existsb].
      rewrite check_direction_integer_start;
        [|exact Fsm|exact Fum|exact Hint| |exact Hui|exact Hue|exact Hum|exact Hd].
      - cbn [doubled_coords coords_of c_items].
        destruct (close_bool _ _); [done|]. bind_ok. exact IH.
      - cbn [doubled_coords coords_of c_items]. by rewrite doubled_length. }
    rewrite (Hrun directions directions_length).
    assert (Hclose : forall idir, idir ∈ directions ->
              close_bool (shifted (pos msite uc_hop) idir)
                         (doubled (pos msite sc_hop)) = true <->
              close (shifted (pos msite uc_hop) idir) (doubled (pos msite sc_hop))).
    { intros idir Hin. apply close_bool_spec.
      rewrite shifted_length, doubled_length; [congruence|].
      rewrite Hum. symmetry.
      exact (proj1 (Forall_forall _ _) directions_length idir Hin). }
    split.
    + intros (idir & Hin & Hc).
      assert (He : existsb (fun idir => close_bool (shifted (pos msite uc_hop) idir)
                                          (doubled (pos msite sc_hop))) directions = true).
      { apply existsb_exists. exists idir. split; [by apply list_elem_of_In|].
        by apply Hclose. }
      by rewrite He.
    + intros Hno.
      destruct (existsb _ directions) eqn:He; [|done]. exfalso.
      apply existsb_exists in He as (idir & Hin & Hc).
      apply list_elem_of_In in Hin. apply (Hno idir Hin). by apply Hclose.
Qed.

End check_uc_hop_proofs.

(** [almost] gives the same answer, or raises the same exception,
    whatever the order of its two arguments. *)
Theorem almost_symmetric a b : almost a b = almost b a.
Proof. apply almost_sym_all. Qed.


Example almost_shorter :
  almost (vec [1; 2]%Q) (vec [1; 2; 7]%Q) = Ok true /\
  almost (Seq [Num 1; Obj]) (Seq [Num 1; Obj]) = Raise NotImplementedError.
Proof. split; reflexivity. Qed.

(** *** The edge of the unit cell a hop of the supercell maps to *)

Section map_hop_proofs.
Variable msite : MigrationPath -> PeriodicSite.
Variable int_dtype : PeriodicSite -> bool.

Lemma check_direction_raises si se sm ui ue um idir err :
  check_direction si se sm ui ue um idir = Raise err ->
  err = ValueError \/ err = NotImplementedError.
Proof.
  unfold check_direction. intros H.
  destruct (add_image um idir) as [tm|e] eqn:Em; simpl in H;
    [|injection H as <-; left; by eapply add_image_raises].
  destruct (almost (seen tm) (seen sm)) as [[|]|e] eqn:Am; simpl in H;
    [|done|injection H as <-; right; by eapply almost_raises].
  destruct (add_image ui idir) as [ti|e] eqn:Ei; simpl in H;
    [|injection H as <-; left; by eapply add_image_raises].
  destruct (add_image ue idir) as [te|e] eqn:Ee; simpl in H;
    [|injection H as <-; left; by eapply add_image_raises].
  destruct (almost (seen ti) (seen si)) as [ii|e] eqn:Aii; simpl in H;
    [|injection H as <-; right; by eapply almost_raises].
  assert (Hflip :
    (ei ← almost (seen te) (seen si);
     ie ← (if (ei : bool) then almost (seen ti) (seen se) else Ok false);
     if (ie : bool) then Ok (Some (idir, true)) else Ok None) = Raise err ->
    err = ValueError \/ err = NotImplementedError).
  { intros H'.
    destruct (almost (seen te) (seen si)) as [[|]|e] eqn:Aei; simpl in H';
      [| |injection H' as <-; right; by eapply almost_raises].
    - destruct (almost (seen ti) (seen se)) as [[|]|e] eqn:Aie; simpl in H';
        [done|done|injection H' as <-; right; by eapply almost_raises].
    - done. }
  destruct ii.
  - destruct (almost (seen te) (seen se)) as [[|]|e] eqn:Aee; simpl in H;
      [done|by apply Hflip|injection H as <-; right; by eapply almost_raises].
  - simpl in H. by apply Hflip.
Qed.

Lemma check_directions_raises si se sm ui ue um dirs err :
  check_directions si se sm ui ue um dirs = Raise err ->
  err = ValueError \/ err = NotImplementedError.
Proof.
  induction dirs as [|idir dirs IH]; intros H; simpl in H; [done|].
  destruct (check_direction si se sm ui ue um idir) as [[f|]|e] eqn:Hone;
    simpl in H; try done.
  - by apply IH.
  - injection H as <-. by eapply check_direction_raises.
Qed.

(** What [map_hop_sc2uc] returns is an edge of the graph with its hop
    and its label, which [check_uc_hop] accepts and whose length is
    within [SMALL_VAL] of the length of the hop of the supercell, and no
    edge before it is accepted. *)
Lemma map_hop_edges_sound sc_hop es : forall m,
  map_hop_edges msite int_dtype sc_hop es = Ok m ->
  exists i e,
    es !! i = Some e /\ uc_u m = e_u e /\ uc_v m = e_v e /\
    e_data e !! "hop" = Some (VHop (uc_hop m)) /\
    e_data e !! "hop_label" = Some (uc_hop_label m) /\
    check_uc_hop msite int_dtype sc_hop (uc_hop m) = Ok (Some (uc_shift m, uc_flip m)) /\
    (Qabs (hop_length (uc_hop m) - hop_length sc_hop) < SMALL_VAL)%Q /\
    forall j e' h, (j < i)%nat -> es !! j = Some e' ->
      e_data e' !! "hop" = Some (VHop h) ->
      check_uc_hop msite int_dtype sc_hop h = Ok None.
Proof.
  induction es as [|e es IH]; intros m H; simpl in H; [done|].
  unfold getitem in H.
  destruct (e_data e !! "hop") as [[| | | | | | | | |h]|] eqn:Hhop; try done.
  simpl in H.
  destruct (check_uc_hop msite int_dtype sc_hop h) as [[[shift flip]|]|] eqn:Hchk;
    simpl in H; try done.
  - destruct (Qgt_bool _ _) eqn:Hlen; [|done].
    destruct (e_data e !! "hop_label") as [lab|] eqn:Hlab; [|done].
    simpl in H. injection H as <-. exists 0%nat, e. simpl.
    repeat (split; [done|]). split; [by apply Qgt_bool_iff|].
    intros j e' h' Hj. lia.
  - destruct (IH m H) as (i & e0 & Hi & Hu & Hv & Hh & Hl & Hc & Hlen & Hbefore).
    exists (S i), e0. repeat (split; [done|]).
    intros [|j] e' h' Hj He' Hh'; simpl in He'.
    + injection He' as <-. rewrite Hhop in Hh'. by injection Hh' as <-.
    + eapply Hbefore; eauto. lia.
Qed.

(** On edges that carry a hop and a label, the search raises nothing but
    the [AssertionError] of a hop that is not found or whose length
    differs, the [ValueError] of positions that cannot be added and the
    [NotImplementedError] of coordinates that cannot be compared. *)
Lemma map_hop_edges_raises sc_hop es err :
  Forall (fun e => (exists h, e_data e !! "hop" = Some (VHop h)) /\
                   is_Some (e_data e !! "hop_label")) es ->
  map_hop_edges msite int_dtype sc_hop es = Raise err ->
  err = AssertionError \/ err = ValueError \/ err = NotImplementedError.
Proof.
  induction 1 as [|e es [[h Hh] [lab Hlab]] _ IH]; simpl; intros H.
  - injection H as <-. by left.
  - unfold getitem in H. rewrite Hh, Hlab in H. simpl in H.
    destruct (check_uc_hop msite int_dtype sc_hop h) as [[[shift flip]|]|e0] eqn:Hchk;
      simpl in H.
    + destruct (Qgt_bool _ _); simpl in H; [done|]. injection H as <-. by left.
    + by apply IH.
    + injection H as <-. right. by eapply check_directions_raises.
Qed.

End map_hop_proofs.

Section map_hop_constructed.
Variable msite : MigrationPath -> PeriodicSite.
Variable int_dtype : PeriodicSite -> bool.
Variable get_el_sp : value -> result string.
Variable analyzer : Type.
Variable SpacegroupAnalyzer : Structure -> Q -> result analyzer.
Variable get_symmetrized_structure : analyzer -> result SymmetrizedStructure.
Variable Structure_from_sites :
  list PeriodicSite -> list (list Q) -> result Structure.
Variable with_local_env_strategy : Structure -> Q -> result graph.
Variable new_MigrationPath :
  PeriodicSite -> PeriodicSite -> SymmetrizedStructure -> result MigrationPath.
Variable hop_eq : MigrationPath -> MigrationPath -> bool.

(** For a mapper that [__init__] returns, [map_hop_sc2uc] raises nothing
    but [AssertionError], [ValueError] and [NotImplementedError] (the
    last for coordinates that are numpy integers); what it returns is
    the first edge of the graph whose hop [check_uc_hop] accepts, with
    its end nodes, its hop, its label, and the image and the flag of the
    check, and the length of that hop is within [SMALL_VAL] of the length
    of the hop of the supercell. *)
Theorem map_hop_sc2uc_constructed structure migrating_specie max_path_length
    symprec name self sc_hop :
  __init__ get_el_sp analyzer SpacegroupAnalyzer get_symmetrized_structure
    Structure_from_sites with_local_env_strategy new_MigrationPath hop_eq
    structure migrating_specie max_path_length symprec false name = Ok self ->
  (forall err, map_hop_sc2uc msite int_dtype sc_hop self = Raise err ->
     err = AssertionError \/ err = ValueError \/ err = NotImplementedError) /\
  (forall m, map_hop_sc2uc msite int_dtype sc_hop self = Ok m ->
     exists i e,
       edges_of self !! i = Some e /\ uc_u m = e_u e /\ uc_v m = e_v e /\
       e_data e !! "hop" = Some (VHop (uc_hop m)) /\
       e_data e !! "hop_label" = Some (uc_hop_label m) /\
       check_uc_hop msite int_dtype sc_hop (uc_hop m) = Ok (Some (uc_shift m, uc_flip m)) /\
       (Qabs (hop_length (uc_hop m) - hop_length sc_hop) < SMALL_VAL)%Q /\
       forall j e' h, (j < i)%nat -> edges_of self !! j = Some e' ->
         e_data e' !! "hop" = Some (VHop h) ->
         check_uc_hop msite int_dtype sc_hop h = Ok None).
Proof.
  intros H. split; [|apply map_hop_edges_sound].
  intros err. apply map_hop_edges_raises.
  destruct (constructed_edges _ _ _ _ _ _ _ _ _ _ _ _ _ _ H)
    as (specie & only_sites & g & hs & _ & _ & _ & _ & Hlen & _ & Hall).
  apply Forall_forall. intros e [i Hi]%list_elem_of_lookup.
  destruct (lookup_lt_is_Some_2 (edges g) i) as [e0 He0].
  { rewrite <- Hlen. eapply lookup_lt_Some; eauto. }
  destruct (Hall i e0 He0) as (e' & h & l & He' & _ & _ & Hh & Hl & _).
  rewrite Hi in He'. injection He' as <-. split; [by exists h|by exists (VInt l)].
Qed.

End map_hop_constructed.

Lemma check_uc_hop_iff_witness :
  check_uc_hop Example.middle Example.from_floats Example.sc_hop Example.hop_ab =
    Ok (Some ([1; 0; 0], false)) /\
  forall idir (flip : bool),
    check_uc_hop Example.middle Example.from_floats Example.sc_hop Example.hop_ab =
      Ok (Some (idir, flip)) ->
    idir ∈ directions.
Proof.
  assert (H := check_uc_hop_iff Example.middle Example.from_floats
                 Example.sc_hop Example.hop_ab
                 (conj eq_refl (conj eq_refl eq_refl))
                 (conj eq_refl (conj eq_refl eq_refl))
                 (conj eq_refl (conj eq_refl eq_refl))
                 (conj eq_refl (conj eq_refl eq_refl))).
  split.
  - reflexivity.
  - intros idir flip Hrun. exact (proj1 (proj1 (proj2 H idir flip) Hrun)).
Defined.

Lemma check_uc_hop_integer_coordinates_witness :
  Example.whole_from_ints (isite Example.hop_ab) = true /\
  check_uc_hop Example.middle Example.whole_from_ints Example.sc_hop
    Example.hop_ab = Raise NotImplementedError.
Proof.
  split; [reflexivity|].
  destruct (check_uc_hop_integer_coordinates Example.middle
              Example.whole_from_ints Example.sc_hop Example.hop_ab
              (conj eq_refl (conj eq_refl eq_refl))
              (conj eq_refl (conj eq_refl eq_refl))) as [_ H].
  destruct H as [H _]; [reflexivity|reflexivity|by right|].
  apply H. exists [1; 0; 0]. split.
  - apply elem_of_cons. right. apply elem_of_cons. by left.
  - repeat constructor.
Defined.

Lemma map_hop_sc2uc_constructed_witness :
  exists self m,
    __init__ Example.parse_specie Structure Example.analyze Example.symmetrize
      Example.from_sites Example.neighbours Example.make_hop
      Example.same_length Example.chain (VStr "Li") 10 (1 # 10) false None
    = Ok self /\
    map_hop_sc2uc Example.middle Example.from_floats Example.sc_hop self = Ok m /\
    uc_shift m = [1; 0; 0] /\ uc_flip m = false /\
    exists i e, edges_of self !! i = Some e /\
                e_data e !! "hop_label" = Some (uc_hop_label m).
Proof.
  eexists _, _. split; [reflexivity|].
  match goal with |- map_hop_sc2uc _ _ _ ?s = _ /\ _ => set (self := s) end.
  split; [reflexivity|].
  match goal with |- uc_shift ?m = _ /\ _ => set (found := m) end.
  split; [reflexivity|]. split; [reflexivity|].
  assert (H : __init__ Example.parse_specie Structure Example.analyze
                Example.symmetrize Example.from_sites Example.neighbours
                Example.make_hop Example.same_length Example.chain (VStr "Li")
                10 (1 # 10) false None = Ok self) by reflexivity.
  assert (Hm : map_hop_sc2uc Example.middle Example.from_floats Example.sc_hop
                 self = Ok found)
    by reflexivity.
  destruct (proj2 (map_hop_sc2uc_constructed Example.middle Example.from_floats
                     _ _ _ _ _ _ _ _ _ _ _ _ _ _ Example.sc_hop H) _ Hm)
    as (i & e & Hi & _ & _ & _ & Hl & _).
  by exists i, e.
Defined.

(** ** The path of least charge *)

Section least_chg_proofs.
Variable parent_map : Type.
Variable parent_keys : parent_map -> list pstate.
Variable periodic_dijkstra : graph -> nat -> (pstate -> option Q) * parent_map.
Variable get_optimal_pathway_rev : parent_map -> pstate -> list pstate.

Local Abbreviation intercollating_path self :=
  (get_intercollating_path parent_map parent_keys periodic_dijkstra
     get_optimal_pathway_rev (mapper self) 100000).

(** The first turn of the loop raises [TypeError]: the first item of the
    tuple [(u, path_hops)] is the node [u]. *)
Lemma least_chg_loop_cons path rest ended min_chg min_path :
  least_chg_loop (path :: rest) ended min_chg min_path = Raise TypeError.
Proof. done. Qed.

(** [get_least_chg_path] never returns a path: as soon as
    [get_intercollating_path] yields one, it raises [TypeError]; when the
    generator yields nothing, it raises what the generator raises, or
    returns the empty list. *)
Theorem get_least_chg_path_no_path self :
  let all_paths :=
    get_intercollating_path parent_map parent_keys periodic_dijkstra
      get_optimal_pathway_rev (mapper self) 100000 in
  get_least_chg_path parent_map parent_keys periodic_dijkstra
    get_optimal_pathway_rev self =
    match yielded all_paths, raised all_paths with
    | _ :: _, _ => Raise TypeError
    | [], Some err => Raise err
    | [], None => Ok None
    end.
Proof.
  intros all_paths. subst all_paths. unfold get_least_chg_path.
  destruct (yielded (intercollating_path self)) as [|path rest]; [done|].
  apply least_chg_loop_cons.
Qed.

End least_chg_proofs.

Example get_least_chg_path_example :
  yielded (get_intercollating_path (list (pstate * list pstate))
             Example.table_keys Example.search_table Example.table_path
             Example.costed_mapper 100000) <> [] /\
  get_least_chg_path (list (pstate * list pstate))
    Example.table_keys Example.search_table Example.table_path
    (mkEntryPath Example.costed_mapper VNone) = Raise TypeError.
Proof. split; [discriminate|reflexivity]. Qed.

(** ** The grids of the charge density *)

Lemma linspace_length n : length (linspace n) = n.
Proof. unfold linspace. by rewrite length_fmap, length_seq. Qed.

Lemma linspace_lookup n i :
  (i < n)%nat ->
  linspace n !! i = Some (inject_Z (Z.of_nat i) / inject_Z (Z.of_nat n))%Q.
Proof.
  intros Hi. unfold linspace. rewrite list_lookup_fmap, lookup_seq_lt by done.
  done.
Qed.

Lemma inject_nat_nonzero n : (0 < n)%nat -> ~ (inject_Z (Z.of_nat n) == 0)%Q.
Proof.
  intros Hn H. unfold Qeq in H. simpl in H. lia.
Qed.

Lemma _shift_grid_short vv :
  (length vv < 2)%nat -> _shift_grid vv = Raise IndexError.
Proof.
  intros H. unfold _shift_grid, item.
  rewrite (lookup_ge_None_2 vv 1) by lia. done.
Qed.

Lemma _shift_grid_long vv :
  (2 <= length vv)%nat ->
  exists v0 v1, vv !! 0%nat = Some v0 /\ vv !! 1%nat = Some v1 /\
    _shift_grid vv = Ok ((fun v => v + (v1 - v0) / 2)%Q <$> vv).
Proof.
  intros H. destruct vv as [|v0 [|v1 vv]]; simpl in H; try lia.
  by exists v0, v1.
Qed.

(** The centre of the cell [i] of an axis of [n] cells. *)
Local Abbreviation centre i n :=
  ((2 * inject_Z (Z.of_nat i) + 1) / (2 * inject_Z (Z.of_nat n)))%Q.

Lemma centre_inside i n : (i < n)%nat -> (0 < centre i n /\ centre i n < 1)%Q.
Proof.
  intros Hi.
  assert (Hn : (0 < inject_Z (Z.of_nat n))%Q).
  { change 0%Q with (inject_Z 0). rewrite <- Zlt_Qlt. lia. }
  assert (Hi0 : (0 <= inject_Z (Z.of_nat i))%Q).
  { change 0%Q with (inject_Z 0). rewrite <- Zle_Qle. lia. }
  assert (Hin : (inject_Z (Z.of_nat i) + 1 <= inject_Z (Z.of_nat n))%Q).
  { change 1%Q with (inject_Z 1). rewrite <- inject_Z_plus, <- Zle_Qle. lia. }
  split.
  - apply Qlt_shift_div_l; lra.
  - apply Qlt_shift_div_r; lra.
Qed.

(** [_shift_grid] needs two points; on the [n >= 2] points of
    [np.linspace(0, 1, n, endpoint=False)] it gives the centres of the
    [n] cells. *)
Lemma _shift_grid_linspace n :
  (2 <= n)%nat ->
  exists out, _shift_grid (linspace n) = Ok out /\ length out = n /\
    forall i, (i < n)%nat -> exists v, out !! i = Some v /\ (v == centre i n)%Q.
Proof.
  intros Hn.
  destruct (_shift_grid_long (linspace n)) as (v0 & v1 & H0 & H1 & Hrun).
  { by rewrite linspace_length. }
  rewrite linspace_lookup in H0, H1 by lia. injection H0 as <-. injection H1 as <-.
  eexists. split; [exact Hrun|]. split; [by rewrite length_fmap, linspace_length|].
  intros i Hi. rewrite list_lookup_fmap, linspace_lookup by done. simpl.
  eexists. split; [done|].
  pose proof (inject_nat_nonzero n ltac:(lia)) as Hnz.
  change (inject_Z (Z.of_nat 1)) with 1%Q. change (inject_Z (Z.of_nat 0)) with 0%Q.
  field. done.
Qed.

(** [_shift_grid] raises [IndexError] on fewer than two points; on the
    [n >= 2] points of [np.linspace(0, 1, n, endpoint=False)] it returns
    the centres [(2 i + 1) / (2 n)] of the [n] cells, which lie strictly
    inside the unit interval. *)
Theorem shift_grid_centres n :
  ((n < 2)%nat -> _shift_grid (linspace n) = Raise IndexError) /\
  ((2 <= n)%nat ->
   exists out, _shift_grid (linspace n) = Ok out /\ length out = n /\
     forall i, (i < n)%nat ->
       exists v, out !! i = Some v /\ (v == centre i n)%Q /\ (0 < v < 1)%Q).
Proof.
  split.
  - intros Hn. apply _shift_grid_short. by rewrite linspace_length.
  - intros Hn. destruct (_shift_grid_linspace n Hn) as (out & Hrun & Hlen & Hall).
    exists out. split; [done|]. split; [done|].
    intros i Hi. destruct (Hall i Hi) as (v & Hv & Hc). exists v.
    split; [done|]. split; [done|]. rewrite Hc. by apply centre_inside.
Qed.

Lemma mesh_rows_elem {A} (aa bb cc : list A) row :
  row ∈ mesh_rows aa bb cc <->
  exists a b c, row = [a; b; c] /\ a ∈ aa /\ b ∈ bb /\ c ∈ cc.
Proof.
  unfold mesh_rows. split.
  - intros (a & Hrow & Ha)%list_elem_of_bind.
    apply list_elem_of_bind in Hrow as (b & Hrow & Hb).
    apply list_elem_of_bind in Hrow as (c & Hrow & Hc).
    apply list_elem_of_singleton in Hrow. by exists a, b, c.
  - intros (a & b & c & -> & Ha & Hb & Hc).
    apply list_elem_of_bind. exists a. split; [|done].
    apply list_elem_of_bind. exists b. split; [|done].
    apply list_elem_of_bind. exists c. split; [|done].
    by apply list_elem_of_singleton.
Qed.

Lemma bind_length_const {A B} (f : A -> list B) (l : list A) n :
  (forall a, length (f a) = n) -> length (l ≫= f) = (length l * n)%nat.
Proof.
  intros Hf. induction l as [|a l IH]; [done|].
  change ((a :: l) ≫= f) with (f a ++ (l ≫= f)).
  rewrite length_app, Hf, IH. simpl. lia.
Qed.

Lemma mesh_rows_length {A} (aa bb cc : list A) :
  length (mesh_rows aa bb cc) = (length aa * length bb * length cc)%nat.
Proof.
  unfold mesh_rows.
  rewrite (bind_length_const _ aa (length bb * length cc)); [lia|].
  intros a. rewrite (bind_length_const _ bb (length cc)); [done|].
  intros b. rewrite (bind_length_const _ cc 1); [lia|]. done.
Qed.

(** [_setup_grids] raises [IndexError] when an axis has fewer than two
    grid points.  Otherwise it stores one point for each cell of the
    grid and the 27 images of the cell; the first two coordinates of a
    point are centres of cells, but the third is the start [k / n2] of a
    cell, so the grid has points on the face of the unit cell where the
    third coordinate is 0, whereas every point [_dist_mat] measures from
    has a positive third coordinate. *)
Theorem setup_grids_third_axis n0 n1 n2 :
  ((n0 < 2 \/ n1 < 2 \/ n2 < 2)%nat -> _setup_grids n0 n1 n2 = Raise IndexError) /\
  ((2 <= n0 /\ 2 <= n1 /\ 2 <= n2)%nat ->
   exists g, _setup_grids n0 n1 n2 = Ok g /\
     _uc_grid_shape g = (n0, n1, n2) /\
     length (_fcoords g) = (n0 * n1 * n2)%nat /\
     length (_images g) = 27%nat /\
     (forall row, row ∈ _fcoords g ->
        exists a b c i j k,
          row = [a; b; c] /\ (i < n0)%nat /\ (j < n1)%nat /\ (k < n2)%nat /\
          (a == centre i n0)%Q /\ (b == centre j n1)%Q /\
          (c == inject_Z (Z.of_nat k) / inject_Z (Z.of_nat n2))%Q) /\
     (exists a b c, [a; b; c] ∈ _fcoords g /\ (c == 0)%Q) /\
     exists rows, _dist_mat_points n0 n1 n2 = Ok rows /\
       forall row, row ∈ rows -> exists a b c, row = [a; b; c] /\ (0 < c)%Q).
Proof.
  split.
  - intros Hn. unfold _setup_grids.
    destruct (decide (n0 < 2)%nat) as [H0|H0].
    { rewrite (_shift_grid_short (linspace n0)); [done|by rewrite linspace_length]. }
    destruct (_shift_grid_linspace n0) as (aa & -> & _); [lia|]. simpl.
    destruct (decide (n1 < 2)%nat) as [H1|H1].
    { rewrite (_shift_grid_short (linspace n1)); [done|by rewrite linspace_length]. }
    destruct (_shift_grid_linspace n1) as (bb & -> & _); [lia|]. simpl.
    rewrite (_shift_grid_short (linspace n2)); [done|]. rewrite linspace_length. lia.
  - intros (H0 & H1 & H2). unfold _setup_grids, _dist_mat_points.
    destruct (_shift_grid_linspace n0 H0) as (aa & -> & Hla & Ha).
    destruct (_shift_grid_linspace n1 H1) as (bb & -> & Hlb & Hb).
    destruct (_shift_grid_linspace n2 H2) as (dd & -> & Hld & Hd).
    simpl. eexists. split; [done|]. simpl.
    split; [by rewrite Hla, Hlb, linspace_length|].
    split; [by rewrite mesh_rows_length, Hla, Hlb, linspace_length|].
    split; [done|]. split; [|split].
    + intros row (a & b & c & -> & Hia & Hib & Hic)%mesh_rows_elem.
      apply list_elem_of_lookup in Hia as [i Hi], Hib as [j Hj], Hic as [k Hk].
      pose proof (lookup_lt_Some _ _ _ Hi) as Hli. rewrite Hla in Hli.
      pose proof (lookup_lt_Some _ _ _ Hj) as Hlj. rewrite Hlb in Hlj.
      pose proof (lookup_lt_Some _ _ _ Hk) as Hlk. rewrite linspace_length in Hlk.
      destruct (Ha i Hli) as (a' & Ha' & Hca). rewrite Hi in Ha'. injection Ha' as <-.
      destruct (Hb j Hlj) as (b' & Hb' & Hcb). rewrite Hj in Hb'. injection Hb' as <-.
      rewrite linspace_lookup in Hk by done. injection Hk as <-.
      eexists a, b, _, i, j, k. repeat (split; [done|]). reflexivity.
    + destruct (Ha 0%nat) as (a & Ha0 & _); [lia|].
      destruct (Hb 0%nat) as (b & Hb0 & _); [lia|].
      exists a, b, (inject_Z (Z.of_nat 0) / inject_Z (Z.of_nat n2))%Q. split.
      * apply mesh_rows_elem. exists a, b, (inject_Z (Z.of_nat 0) / inject_Z (Z.of_nat n2))%Q.
        split; [done|]. split; [by eapply list_elem_of_lookup_2|].
        split; [by eapply list_elem_of_lookup_2|].
        eapply list_elem_of_lookup_2. apply linspace_lookup. lia.
      * simpl. unfold Qdiv. by rewrite Qmult_0_l.
    + eexists. split; [done|].
      intros row (a & b & c & -> & _ & _ & Hic)%mesh_rows_elem.
      exists a, b, c. split; [done|].
      apply list_elem_of_lookup in Hic as [k Hk].
      pose proof (lookup_lt_Some _ _ _ Hk) as Hlk. rewrite Hld in Hlk.
      destruct (Hd k Hlk) as (c' & Hc' & Hcc). rewrite Hk in Hc'. injection Hc' as <-.
      rewrite Hcc. by apply centre_inside.
Qed.

Lemma shift_grid_centres_witness :
  exists out, _shift_grid (linspace 4) = Ok out /\ length out = 4%nat /\
    forall i, (i < 4)%nat ->
      exists v, out !! i = Some v /\ (v == centre i 4)%Q /\ (0 < v < 1)%Q.
Proof. apply (proj2 (shift_grid_centres 4)). lia. Defined.

Lemma setup_grids_third_axis_witness :
  _setup_grids 2 1 2 = Raise IndexError /\
  exists g, _setup_grids 2 2 2 = Ok g /\
    length (_fcoords g) = 8%nat /\
    exists a b c, [a; b; c] ∈ _fcoords g /\ (c == 0)%Q.
Proof.
  split.
  - apply (proj1 (setup_grids_third_axis 2 1 2)). lia.
  - destruct (proj2 (setup_grids_third_axis 2 2 2))
      as (g & Hrun & _ & Hlen & _ & _ & Hface & _); [lia|].
    exists g. split; [exact Hrun|]. split; [exact Hlen|exact Hface].
Defined.

(** ** Paths that cannot be walked *)

Lemma walk_returns one_path : forall start m_path,
  Forall (fun h => stays h \/ crosses h) one_path ->
  m_path <> [] \/
    (exists h rest, one_path = h :: rest /\ (h.1.1 = start \/ h.1.2 = start)) \/
    one_path = [] ->
  exists out, walk start m_path one_path = Ok out.
Proof.
  induction one_path as [|h rest IH]; intros start m_path Hall Hne; simpl; [eauto|].
  apply Forall_cons in Hall as [Hh Hall].
  destruct (kind_image h Hh) as [t Ht].
  destruct (reversed_hop_kind h t Ht) as (h' & Hr & _).
  set (m1 := if bool_decide (h.1.1 = start) then m_path ++ [h] else m_path).
  assert (Hm2 : exists m2, m2 <> [] /\
            (if bool_decide (h.1.2 = start)
             then new_hop ← reversed_hop h; Ok (m1 ++ [new_hop])
             else Ok m1) = Ok m2).
  { case_bool_decide as Hv.
    - rewrite Hr. simpl. eexists. split; [|done]. by destruct m1.
    - exists m1. split; [|done]. unfold m1.
      case_bool_decide as Hu; [by destruct m_path|].
      destruct Hne as [?|[(h0 & r0 & [= <- <-] & [?|?])|?]]; done. }
  destruct Hm2 as (m2 & Hne2 & ->). simpl.
  destruct (last m2) as [hl|] eqn:Hl.
  - apply IH; [done|by left].
  - apply last_None in Hl. done.
Qed.

Section unwalkable_proofs.
Variable set_order : gset nat -> list nat.
Hypothesis set_order_elements : forall s x, x ∈ set_order s <-> x ∈ s.

Lemma normalized_length p : length (normalized p) = length p.
Proof.
  destruct p as [|h p]; [done|]. simpl.
  destruct (crossesb h); [by rewrite length_reverse|done].
Qed.

Lemma normalized_Forall (P : hop -> Prop) p : Forall P p -> Forall P (normalized p).
Proof.
  intros H. destruct p as [|h p]; [done|]. simpl.
  destruct (crossesb h); [|done]. by apply Forall_reverse.
Qed.

Lemma modify_one_normalized p :
  Forall (fun h => stays h \/ crosses h) p ->
  modify_one set_order p =
    (let one_path := normalized p in
     h0 ← item one_path 0;
     h1 ← item one_path 1;
     if bool_decide (endpoints h0 = endpoints h1) then
       if bool_decide (h0.1.1 = h1.1.1)
       then Ok [(h0.1.2, h0.1.1, h0.2); h1]
       else Ok []
     else
       hl ← item one_path (length one_path - 1);
       start ← item (set_order (endpoints h0 ∩ endpoints hl)) 0;
       walk start [] one_path).
Proof.
  intros Hall. unfold modify_one. destruct p as [|h p]; [done|].
  apply Forall_cons in Hall as [Hh _].
  change (item (h :: p) 0) with (@Ok hop h). bind_ok.
  rewrite (leaves_cell_crossesb h Hh). bind_ok.
  unfold normalized. by destruct (crossesb h).
Qed.

Lemma modify_one_unwalkable p :
  Forall (fun h => stays h \/ crosses h) p ->
  (unwalkable p -> modify_one set_order p = Raise IndexError) /\
  (~ unwalkable p -> exists m_path, modify_one set_order p = Ok m_path).
Proof.
  intros Hall. rewrite (modify_one_normalized p Hall). cbv zeta.
  pose proof (normalized_length p) as Hlen.
  pose proof (normalized_Forall _ p Hall) as Hq.
  unfold unwalkable.
  set (q := normalized p) in *. clearbody q.
  destruct q as [|h0 [|h1 q]].
  - split; [done|]. intros Hn. exfalso. apply Hn. left. simpl in Hlen. lia.
  - split; [done|]. intros Hn. exfalso. apply Hn. left. simpl in Hlen. lia.
  - change (item (h0 :: h1 :: q) 0) with (@Ok hop h0). bind_ok.
    change (item (h0 :: h1 :: q) 1) with (@Ok hop h1). bind_ok.
    assert (Hlast : exists hl, last (h0 :: h1 :: q) = Some hl /\
              item (h0 :: h1 :: q) (length (h0 :: h1 :: q) - 1) = Ok hl).
    { destruct (last (h0 :: h1 :: q)) as [hl|] eqn:Hl; [|by apply last_None in Hl].
      exists hl. split; [done|]. unfold item.
      rewrite last_lookup in Hl.
      replace (length (h0 :: h1 :: q) - 1)%nat with (pred (length (h0 :: h1 :: q)))
        by lia.
      by rewrite Hl. }
    destruct Hlast as (hl & Hl & Hitem).
    case_bool_decide as Hends.
    + split.
      * intros [Hshort|(a & b & c & [= <-] & [= <-] & _ & Hne & _)]; [|done].
        simpl in Hlen. lia.
      * intros _. case_bool_decide; eauto.
    + rewrite Hitem. bind_ok.
      destruct (set_order (endpoints h0 ∩ endpoints hl)) as [|start l] eqn:Hso.
      * split; [done|]. intros Hn. exfalso. apply Hn. right.
        exists h0, h1, hl. repeat (split; [done|]).
        apply set_eq. intros x. rewrite <- set_order_elements, Hso.
        split; [by intros ?%elem_of_nil|by intros ?%elem_of_empty].
      * change (item (start :: l) 0) with (@Ok nat start). bind_ok.
        assert (Hstart : start ∈ endpoints h0 ∩ endpoints hl).
        { apply set_order_elements. rewrite Hso. apply elem_of_cons. by left. }
        split.
        -- intros [Hshort|(a & b & c & [= <-] & [= <-] & Hc & _ & Hempty)].
           ++ simpl in Hlen. lia.
           ++ rewrite Hl in Hc. injection Hc as <-. rewrite Hempty in Hstart.
              by apply elem_of_empty in Hstart.
        -- intros _. apply walk_returns; [done|]. right. left.
           exists h0, (h1 :: q). split; [done|].
           apply elem_of_intersection in Hstart as [Hs _].
           unfold endpoints in Hs. apply elem_of_union in Hs as [Hs|Hs];
             apply elem_of_singleton in Hs; auto.
Qed.

Lemma unwalkable_dec p : unwalkable p \/ ~ unwalkable p.
Proof.
  unfold unwalkable.
  destruct (decide (length p < 2)%nat) as [?|Hlen]; [by left; left|].
  destruct (normalized p !! 0%nat) as [h0|] eqn:H0;
    [|right; intros [?|(? & ? & ? & ? & _)]; done].
  destruct (normalized p !! 1%nat) as [h1|] eqn:H1;
    [|right; intros [?|(? & ? & ? & _ & ? & _)]; done].
  destruct (last (normalized p)) as [hl|] eqn:Hl;
    [|right; intros [?|(? & ? & ? & _ & _ & ? & _)]; done].
  destruct (decide (endpoints h0 = endpoints h1)) as [He|He].
  { right. intros [?|(a & b & c & [= <-] & [= <-] & _ & Hne & _)]; done. }
  destruct (decide (endpoints h0 ∩ endpoints hl = ∅)) as [Hi|Hi].
  - left. right. by exists h0, h1, hl.
  - right. intros [?|(a & b & c & [= <-] & _ & [= <-] & _ & Hempty)]; done.
Qed.

(** [modify_path] raises [IndexError] at the first path it cannot walk,
    and nothing on paths it can walk. *)
Lemma modify_loop_unwalkable paths :
  Forall (Forall (fun h => stays h \/ crosses h)) paths ->
  (Exists unwalkable paths ->
   (modify_loop set_order paths).2 = Some IndexError /\
   (length (modify_loop set_order paths).1 < length paths)%nat) /\
  (Forall (fun p => ~ unwalkable p) paths ->
   (modify_loop set_order paths).2 = None /\
   length (modify_loop set_order paths).1 = length paths).
Proof.
  induction 1 as [|p paths Hp _ IH]; simpl.
  - split; [by intros ?%Exists_nil|done].
  - destruct (modify_one_unwalkable p Hp) as [Hbad Hgood].
    destruct (unwalkable_dec p) as [Hu|Hu].
    + rewrite (Hbad Hu). simpl. split; [intros _; split; [done|lia]|].
      intros [? _]%Forall_cons. done.
    + destruct (Hgood Hu) as [m ->].
      destruct (modify_loop set_order paths) as [ys err]. simpl in *.
      destruct IH as [IH1 IH2]. split.
      * intros [?|Hex]%Exists_cons; [done|].
        destruct (IH1 Hex). split; [done|lia].
      * intros [_ Hall]%Forall_cons. destruct (IH2 Hall). split; [done|lia].
Qed.

(** When every hop holds its image as a tuple and a set is listed with
    its elements, [modify_path] raises [IndexError] exactly when one of
    the paths has fewer than two hops or, with its crossing hop last and
    its first two hops not over the same pair of nodes, has a first and a
    last hop that share no node; it then yields a path for fewer of the
    paths than it was given.  Otherwise it raises nothing and yields a
    path for each. *)
Theorem modify_path_index_error paths :
  Forall (Forall (fun h => stays h \/ crosses h)) paths ->
  (Exists unwalkable paths ->
   raised (modify_path set_order paths) = Some IndexError /\
   (length (yielded (modify_path set_order paths)) < length paths)%nat) /\
  (Forall (fun p => ~ unwalkable p) paths ->
   raised (modify_path set_order paths) = None /\
   length (yielded (modify_path set_order paths)) = length paths).
Proof.
  intros Hall. unfold modify_path.
  pose proof (modify_loop_unwalkable paths Hall) as H.
  by destruct (modify_loop set_order paths) as [ys err].
Qed.

End unwalkable_proofs.

Lemma modify_path_index_error_witness :
  raised (modify_path elements [Example.path_first; [(0, 0, Example.across)]%nat])
    = Some IndexError /\
  (length (yielded (modify_path elements
             [Example.path_first; [(0, 0, Example.across)]%nat])) < 2)%nat.
Proof.
  apply (modify_path_index_error elements).
  - intros s x. apply elem_of_elements.
  - repeat (apply Forall_cons; split); try apply Forall_nil; try exact I;
      first [by left | by right].
  - apply Exists_cons. right. apply Exists_cons. left. left. simpl. lia.
Defined.

(** ** Decorating twice *)

(** [d.update(data)] forgets what the dictionary held under the keys of
    [data]. *)
Lemma dict_update_agree (data : pydict) (d d' : dict) :
  NoDup data.*1 ->
  (forall k, k ∉ data.*1 -> d' !! k = d !! k) ->
  dict_update d' data = dict_update d data.
Proof.
  intros Hnd Hagree. apply map_eq. intros k.
  destruct (decide (k ∈ data.*1)) as [Hin|Hout].
  - apply list_elem_of_fmap in Hin as ([k' v] & -> & Hin). simpl.
    by rewrite !(dict_update_in data _ k' v Hnd Hin).
  - rewrite !dict_update_notin by done. by apply Hagree.
Qed.

Section twice.
Variable equiv : SymmetrizedStructure -> list PeriodicSite -> list PeriodicSite -> bool.
Variable target_label : value.
Variable data : pydict.
Variable m_path : option MigrationPath.
Hypothesis data_keys : NoDup data.*1.
Hypothesis label_kept : "hop_label"%string ∉ data.*1.

Lemma decorate_edge_twice e e' err :
  decorate_edge equiv target_label data m_path e = (e', err) ->
  decorate_edge equiv target_label data m_path e' = (e', err).
Proof.
  unfold decorate_edge.
  destruct (e_data e !! "hop_label") as [lab|] eqn:Hlab.
  - destruct (py_eq lab target_label) eqn:Hpe.
    + set (d := dict_update (e_data e) data).
      assert (Hd : forall d', (forall k, k ∉ data.*1 -> d' !! k = d !! k) ->
                d' !! "hop_label" = Some lab /\ dict_update d' data = d).
      { intros d' Hagree. split.
        - rewrite Hagree by done. unfold d. by rewrite dict_update_notin.
        - unfold d. apply dict_update_agree; [done|].
          intros k Hk. rewrite Hagree by done. unfold d.
          by rewrite dict_update_notin. }
      destruct m_path as [m|].
      * destruct (d !! "hop") as [[| | | | | | | | |h]|] eqn:Hhop;
          try (intros [= <- <-]; simpl; destruct (Hd d) as [-> ->]; [done|];
               rewrite Hpe, Hhop; done).
        destruct (negb _) eqn:Hneg.
        -- destruct (flip_data data d) as [d' err'] eqn:Hflip.
           intros [= <- <-]. simpl.
           destruct (Hd d') as [-> ->].
           { intros k Hk. by eapply flip_data_notin. }
           rewrite Hpe, Hhop, Hneg, Hflip. done.
        -- intros [= <- <-]. simpl. destruct (Hd d) as [-> ->]; [done|].
           rewrite Hpe, Hhop, Hneg. done.
      * intros [= <- <-]. simpl. destruct (Hd d) as [-> ->]; [done|].
        by rewrite Hpe.
    + intros [= <- <-]. by rewrite Hlab, Hpe.
  - intros [= <- <-]. by rewrite Hlab.
Qed.

Lemma decorate_edges_twice es : forall es' err,
  decorate_edges equiv target_label data m_path es = (es', err) ->
  decorate_edges equiv target_label data m_path es' = (es', err).
Proof.
  induction es as [|e es IH]; intros es' err H; simpl in H.
  - by injection H as <- <-.
  - destruct (decorate_edge equiv target_label data m_path e) as [e' [err0|]] eqn:He.
    + injection H as <- <-. simpl. by rewrite (decorate_edge_twice _ _ _ He).
    + destruct (decorate_edges equiv target_label data m_path es) as [rest' err'] eqn:Hes.
      injection H as <- <-. simpl.
      rewrite (decorate_edge_twice _ _ _ He), (IH _ _ eq_refl). done.
Qed.

(** When [data] does not set ["hop_label"], a second call of
    [add_data_to_similar_edges] with the same arguments changes nothing
    and ends as the first: the lists it flipped are not flipped back. *)
Theorem add_data_twice self self' err :
  add_data_to_similar_edges equiv self target_label data m_path = (self', err) ->
  add_data_to_similar_edges equiv self' target_label data m_path = (self', err).
Proof.
  unfold add_data_to_similar_edges.
  destruct (decorate_edges _ _ _ _ (edges_of self)) as [es err0] eqn:Hes.
  intros [= <- <-]. simpl. rewrite (decorate_edges_twice _ _ _ Hes).
  done.
Qed.

End twice.

Lemma add_data_twice_witness :
  let data := [("profile"%string, VList [1; 2; 3]%Q)] in
  let once :=
    add_data_to_similar_edges Example.same_position Example.mapper (VInt 0)
      data (Some Example.hop_ab) in
  add_data_to_similar_edges Example.same_position once.1 (VInt 0) data
    (Some Example.hop_ab) = once /\
  e_data <$> edges_of once.1 !! 2%nat =
    Some (<["profile" := VList [3; 2; 1]%Q]> (e_data Example.e2)).
Proof.
  intros data once.
  assert (H : add_data_to_similar_edges Example.same_position Example.mapper
                (VInt 0) data (Some Example.hop_ab) = (once.1, once.2))
    by reflexivity.
  split; [|reflexivity].
  rewrite (add_data_twice Example.same_position (VInt 0) data
             (Some Example.hop_ab) (NoDup_singleton _)
             ltac:(by apply (bool_decide_unpack _))
             Example.mapper once.1 once.2 H).
  reflexivity.
Defined.

(** ** Costs before the search *)

Lemma cut_edges_returns es max_val :
  Forall (fun e => exists c, e_data e !! "cost" = Some (VNpFloat c)) es ->
  exists cut, cut_edges es max_val = Ok cut.
Proof.
  induction 1 as [|e es [c Hc] _ [cut IH]]; simpl; [by exists []|].
  unfold cost_exceeds, getitem. rewrite Hc. simpl. rewrite IH. simpl. eauto.
Qed.

Lemma assign_cost_loop_nodes equiv cost_keys items : forall self self' err,
  assign_cost_loop equiv cost_keys items self = (self', err) ->
  nodes (s_graph self') = nodes (s_graph self).
Proof.
  induction items as [|[k ref] items IH]; intros self self' err H; simpl in H.
  - by injection H as <- _.
  - destruct (_ ≫= _) as [cost_val|e]; [|by injection H as <- _].
    unfold add_data_to_similar_edges in H.
    destruct (decorate_edges _ _ _ _ _) as [es [err0|]].
    + by injection H as <- _.
    + by rewrite (IH _ _ _ H).
Qed.

Section costs_before_search.
Variable equiv : SymmetrizedStructure -> list PeriodicSite -> list PeriodicSite -> bool.
Variable parent_map : Type.
Variable parent_keys : parent_map -> list pstate.
Variable periodic_dijkstra : graph -> nat -> (pstate -> option Q) * parent_map.
Variable get_optimal_pathway_rev : parent_map -> pstate -> list pstate.
Variable get_el_sp : value -> result string.
Variable analyzer : Type.
Variable SpacegroupAnalyzer : Structure -> Q -> result analyzer.
Variable get_symmetrized_structure : analyzer -> result SymmetrizedStructure.
Variable Structure_from_sites :
  list PeriodicSite -> list (list Q) -> result Structure.
Variable with_local_env_strategy : Structure -> Q -> result graph.
Variable new_MigrationPath :
  PeriodicSite -> PeriodicSite -> SymmetrizedStructure -> result MigrationPath.
Variable hop_eq : MigrationPath -> MigrationPath -> bool.

(** The neighbour search puts no cost on the edges it finds. *)
Hypothesis no_cost : forall only_sites cutoff g,
  with_local_env_strategy only_sites cutoff = Ok g ->
  Forall (fun e => e_data e !! "cost" = None) (edges g).

Local Abbreviation intercollating_path :=
  (get_intercollating_path parent_map parent_keys periodic_dijkstra
     get_optimal_pathway_rev).

(** A mapper as [__init__] returns it, with a node and an edge, cannot be
    searched: [get_intercollating_path] yields nothing and raises
    [KeyError], for want of a cost on the edges.  Once
    [assign_cost_to_graph] has run with its default key, the graph can be
    trimmed for every [max_val], to edges of the graph whose cost does not
    exceed [max_val]. *)
Theorem search_needs_costs structure migrating_specie max_path_length symprec
    name self max_val :
  __init__ get_el_sp analyzer SpacegroupAnalyzer get_symmetrized_structure
    Structure_from_sites with_local_env_strategy new_MigrationPath hop_eq
    structure migrating_specie max_path_length symprec false name = Ok self ->
  nodes (s_graph self) <> [] -> edges_of self <> [] ->
  intercollating_path self max_val = mkGenerated [] [] (Some KeyError) /\
  exists self',
    assign_cost_to_graph equiv self ["hop_distance"%string] = (self', None) /\
    forall max_val', exists GG,
      trimmed (s_graph self') max_val' = Ok GG /\
      nodes GG = nodes (s_graph self) /\
      forall e, e ∈ edges GG ->
        e ∈ edges_of self' /\ cost_exceeds (e_data e) max_val' = Ok false.
Proof.
  intros H Hnodes Hedges. split.
  - destruct (constructed_edges _ _ _ _ _ _ _ _ _ _ _ _ _ _ H)
      as (specie & only_sites & g & hs & _ & _ & Hg & _ & Hlen & _ & Hall).
    unfold get_intercollating_path.
    destruct (nodes (s_graph self)) as [|u us]; [done|].
    destruct (edges_of self) as [|e es] eqn:Hes; [done|].
    assert (Hcost : e_data e !! "cost" = None).
    { destruct (lookup_lt_is_Some_2 (edges g) 0) as [e0 He0].
      { rewrite <- Hlen. simpl. lia. }
      destruct (Hall 0%nat e0 He0) as (e' & h & l & He' & _ & _ & _ & _ & _ & Hdec).
      simpl in He'. injection He' as <-.
      destruct Hdec as (i_site & v_site & t & h' & l' & Hdec).
      destruct Hdec as (_ & _ & _ & _ & _ & _ & _ & _ & _ & _ & _ & _ & _ & Hkeep).
      rewrite Hkeep by (unfold constructor_keys; keys_solver).
      exact (proj1 (Forall_lookup _ _) (no_cost _ _ _ Hg) 0%nat e0 He0). }
    simpl. unfold path_from_node, trimmed. rewrite Hes. simpl.
    unfold cost_exceeds, getitem. rewrite Hcost. simpl.
    unfold hop_count_check. by rewrite Nat.eqb_refl.
  - destruct (init_stages _ _ _ _ _ _ _ _ _ _ _ _ _ _ H)
      as (specie & a & symm & only_sites & g & es1 & es' & uh & _ & _ & _ & _ & _
        & Hpop & Hun & ->).
    pose proof (group_and_label_hops_plain hop_eq es1
                  (populate_edges_hops _ _ _ _ _ Hpop)) as Hplain.
    destruct (populated_costs equiv name (nodes g) _ es' uh Hun Hplain)
      as (_ & self' & Hcall & _ & Hcosts).
    exists self'. split; [exact Hcall|]. intros max_val'.
    destruct (cut_edges_returns (edges_of self') max_val') as [cut Hcut].
    { apply Forall_forall. intros e' He'.
      destruct (Hcosts e' He') as (k & ref & rep & m & _ & _ & _ & _ & Hc). eauto. }
    assert (Htrim : trimmed (s_graph self') max_val' =
                    Ok (foldl remove_edge (s_graph self') cut)).
    { unfold trimmed. by rewrite Hcut. }
    eexists. split; [exact Htrim|].
    destruct (trimmed_spec _ _ _ Htrim) as [Hn Hsub]. split; [|exact Hsub].
    rewrite Hn. exact (assign_cost_loop_nodes _ _ _ _ _ _ Hcall).
Qed.

End costs_before_search.

Lemma search_needs_costs_witness :
  exists self self',
    __init__ Example.parse_specie Structure Example.analyze Example.symmetrize
      Example.from_sites Example.neighbours Example.make_hop
      Example.same_length Example.chain (VStr "Li") 10 (1 # 10) false None
    = Ok self /\
    get_intercollating_path (list (pstate * list pstate)) Example.table_keys
      Example.search_table Example.table_path self 100000
    = mkGenerated [] [] (Some KeyError) /\
    assign_cost_to_graph Example.same_position self ["hop_distance"%string]
    = (self', None) /\
    exists GG, trimmed (s_graph self') 100000 = Ok GG.
Proof.
  eexists.
  assert (H : __init__ Example.parse_specie Structure Example.analyze
                Example.symmetrize Example.from_sites Example.neighbours
                Example.make_hop Example.same_length Example.chain (VStr "Li")
                10 (1 # 10) false None = Ok _) by reflexivity.
  destruct (search_needs_costs Example.same_position
              (list (pstate * list pstate)) Example.table_keys
              Example.search_table Example.table_path
              _ _ _ _ _ Example.neighbours _ _
              ltac:(intros only_sites cutoff g [= <-]; repeat constructor)
              _ _ _ _ _ _ 100000%Q H ltac:(discriminate) ltac:(discriminate))
    as (Hsearch & self' & Hcost & Htrim).
  exists self'. split; [exact H|]. split; [exact Hsearch|]. split; [exact Hcost|].
  destruct (Htrim 100000%Q) as (GG & HGG & _). by exists GG.
Defined.

(** ** The steps of the construction, run again *)

Lemma set_data_same e : set_data e (e_data e) = e.
Proof. by destruct e. Qed.

Lemma index_edge_again e2 e :
  index_edge e2 = Ok e -> index_edge e = Ok e.
Proof.
  intros H.
  destruct (index_edge_spec _ _ H) as (Hends & _ & m & _ & Hhop & Hdist).
  destruct (index_edge_keys _ _ H) as (Hi & He & _).
  unfold index_edge, getitem. rewrite !lookup_insert_ne by done.
  rewrite Hhop. simpl.
  rewrite (insert_id (e_data e) "iindex") by done.
  rewrite (insert_id (e_data e) "eindex") by done.
  rewrite (insert_id (e_data e) "hop_distance") by done.
  by rewrite set_data_same.
Qed.

Lemma index_edges_fixed L :
  Forall (fun re : nat * edge => index_edge re.2 = Ok re.2) L ->
  index_edges L = Ok L.
Proof.
  induction 1 as [|[r e] L He _ IH]; [done|].
  simpl in *. by rewrite He, IH.
Qed.

Lemma set_hop_labels_fixed es : forall labs,
  Forall2 (fun e l => is_Some (e_data e !! "hop") /\
                      e_data e !! "hop_label" = Some (label_value l)) es labs ->
  set_hop_labels es labs = es.
Proof.
  induction es as [|e es IH]; intros labs H; [done|].
  apply Forall2_cons_inv_l in H as (l & labs' & [[h Hh] Hl] & Hall & ->).
  simpl. rewrite Hh. rewrite (insert_id (e_data e) "hop_label") by done.
  by rewrite set_data_same, IH.
Qed.

Lemma omap_ext_lookup {A B} (f : A -> option B) l1 : forall l2,
  Forall2 (fun a b => f a = f b) l1 l2 -> omap f l1 = omap f l2.
Proof.
  induction l1 as [|a l1 IH]; intros l2 H.
  - by apply Forall2_nil_inv_l in H as ->.
  - apply Forall2_cons_inv_l in H as (b & l2' & Hab & Hall & ->).
    change (omap f (a :: l1)) with
      (match f a with Some y => y :: omap f l1 | None => omap f l1 end).
    change (omap f (b :: l2')) with
      (match f b with Some y => y :: omap f l2' | None => omap f l2' end).
    by rewrite Hab, (IH _ Hall).
Qed.

Lemma omap_length_all {A B} (f : A -> option B) l :
  Forall (fun a => is_Some (f a)) l -> length (omap f l) = length l.
Proof.
  induction 1 as [|a l [b Hb] _ IH]; [done|].
  change (omap f (a :: l)) with
    (match f a with Some y => y :: omap f l | None => omap f l end).
  rewrite Hb. simpl. by rewrite IH.
Qed.

(** The list [_populate_unique_hops_dict] goes through is the reversed
    enumeration of the edges it returns. *)
Lemma index_edges_enumeration es L :
  index_edges (reverse (imap (fun i e => (i, e)) es)) = Ok L ->
  L = reverse (imap (fun i e => (i, e)) (reverse (snd <$> L))).
Proof.
  intros H. apply index_edges_Forall2 in H.
  pose proof (Forall2_length _ _ _ H) as Hlen.
  rewrite length_reverse, length_imap in Hlen.
  apply list_eq. intros j.
  destruct (decide (j < length L)%nat) as [Hj|Hj].
  - destruct (lookup_lt_is_Some_2 L j Hj) as [[r e'] HL].
    rewrite HL.
    destruct (Forall2_lookup_r _ _ _ _ _ H HL) as ([r0 e0] & H0 & Hr & _).
    simpl in Hr. subst r0.
    rewrite reverse_lookup in H0 by (rewrite length_imap; lia).
    rewrite list_lookup_imap in H0.
    destruct (es !! _) as [e1|] eqn:He1; [|done]. simpl in H0.
    injection H0 as Hr _.
    rewrite reverse_lookup
      by (rewrite length_imap, length_reverse, length_fmap; lia).
    rewrite length_imap, length_reverse, length_fmap.
    rewrite list_lookup_imap.
    rewrite reverse_lookup by (rewrite length_fmap; lia).
    rewrite length_fmap.
    replace (length L - S (length L - S j))%nat with j by lia.
    rewrite list_lookup_fmap, HL. simpl. rewrite length_imap in Hr.
    f_equal. f_equal. lia.
  - rewrite lookup_ge_None_2 by lia. symmetry. apply lookup_ge_None_2.
    rewrite length_reverse, length_imap, length_reverse, length_fmap. lia.
Qed.

Section steps_again.
Variable get_el_sp : value -> result string.
Variable analyzer : Type.
Variable SpacegroupAnalyzer : Structure -> Q -> result analyzer.
Variable get_symmetrized_structure : analyzer -> result SymmetrizedStructure.
Variable Structure_from_sites :
  list PeriodicSite -> list (list Q) -> result Structure.
Variable with_local_env_strategy : Structure -> Q -> result graph.
Variable new_MigrationPath :
  PeriodicSite -> PeriodicSite -> SymmetrizedStructure -> result MigrationPath.
Variable hop_eq : MigrationPath -> MigrationPath -> bool.

Local Abbreviation get_pos :=
  (_get_pos_and_migration_path new_MigrationPath).

(** An edge that holds what [_get_pos_and_migration_path] wrote is left
    as it is by a second call. *)
Lemma get_pos_again only_sites symm e0 e1 e :
  get_pos only_sites symm e0 = Ok e1 ->
  (e_u e, e_v e) = (e_u e1, e_v e1) ->
  (forall k, k ∈ ["to_jimage"; "ipos"; "epos"; "ipos_cart"; "epos_cart"; "hop"]%string ->
     e_data e !! k = e_data e1 !! k) ->
  get_pos only_sites symm e = Ok e.
Proof.
  intros H [= Hu Hv] Hkeys.
  destruct (get_pos_spec _ _ _ _ _ H)
    as ([= Hu1 Hv1 _] & i_site & v_site & t & h & Hsi & Hsv & Ht & Hlt & Hnew & Hip
        & Hep & Hipc & Hepc & Hhop & Hkeep).
  cbv zeta in *.
  assert (Hin : forall k, k ∈ ["to_jimage"; "ipos"; "epos"; "ipos_cart";
                              "epos_cart"; "hop"]%string ->
                k ∈ ["to_jimage"; "ipos"; "epos"; "ipos_cart"; "epos_cart"; "hop"]%string)
    by done.
  rewrite <- (Hkeys "ipos"%string) in Hip by (by apply (bool_decide_unpack _)).
  rewrite <- (Hkeys "epos"%string) in Hep by (by apply (bool_decide_unpack _)).
  rewrite <- (Hkeys "ipos_cart"%string) in Hipc by (by apply (bool_decide_unpack _)).
  rewrite <- (Hkeys "epos_cart"%string) in Hepc by (by apply (bool_decide_unpack _)).
  rewrite <- (Hkeys "hop"%string) in Hhop by (by apply (bool_decide_unpack _)).
  assert (Ht' : e_data e !! "to_jimage" = Some (VTuple t)).
  { rewrite (Hkeys "to_jimage"%string) by (by apply (bool_decide_unpack _)).
    rewrite Hkeep by keys_solver. done. }
  unfold _get_pos_and_migration_path, item, to_jimage, getitem, shift_coords.
  rewrite Hu, Hv, Hu1, Hv1, Hsi, Hsv, Ht'. simpl.
  rewrite bool_decide_eq_true_2 by done. simpl. rewrite Hnew. simpl.
  rewrite (insert_id (e_data e) "ipos") by done.
  rewrite (insert_id (e_data e) "epos") by done.
  rewrite (insert_id (e_data e) "ipos_cart") by done.
  rewrite (insert_id (e_data e) "epos_cart") by done.
  rewrite (insert_id (e_data e) "hop") by done.
  by rewrite set_data_same.
Qed.

Lemma populate_edges_fixed only_sites symm es :
  Forall (fun e => get_pos only_sites symm e = Ok e) es ->
  populate_edges_with_migration_paths new_MigrationPath only_sites symm es = Ok es.
Proof.
  induction 1 as [|e es He _ IH]; [done|]. simpl. by rewrite He, IH.
Qed.

(** [ComputedEntryPath.__init__] calls the three steps of the
    construction again on the mapper [FullPathMapper.__init__] has built:
    [populate_edges_with_migration_paths], [group_and_label_hops] and
    [_populate_unique_hops_dict] each leave the graph and [unique_hops]
    as they are. *)
Theorem construction_steps_again structure migrating_specie max_path_length
    symprec name self :
  __init__ get_el_sp analyzer SpacegroupAnalyzer get_symmetrized_structure
    Structure_from_sites with_local_env_strategy new_MigrationPath hop_eq
    structure migrating_specie max_path_length symprec false name = Ok self ->
  exists specie a symm only_sites,
    get_el_sp migrating_specie = Ok specie /\
    SpacegroupAnalyzer structure symprec = Ok a /\
    get_symmetrized_structure a = Ok symm /\
    get_only_sites Structure_from_sites structure specie = Ok only_sites /\
    populate_edges_with_migration_paths new_MigrationPath only_sites symm
      (edges_of self) = Ok (edges_of self) /\
    group_and_label_hops hop_eq (edges_of self) = edges_of self /\
    _populate_unique_hops_dict (edges_of self) = Ok (edges_of self, unique_hops self).
Proof.
  intros H.
  destruct (init_stages _ _ _ _ _ _ _ _ _ _ _ _ _ _ H)
    as (specie & a & symm & only_sites & g & es1 & es' & uh & Hsp & Ha & Hsy & Hos
        & Hg & Hpop & Hun & ->).
  exists specie, a, symm, only_sites. repeat (split; [done|]). simpl.
  pose proof (populate_edges_Forall2 _ _ _ _ _ Hpop) as H1.
  assert (Hhop : Forall (fun e => is_Some (e_data e !! "hop")) es1)
    by exact (populate_edges_hops _ _ _ _ _ Hpop).
  pose proof (group_and_label_hops_plain hop_eq es1 Hhop) as Hplain.
  destruct (populate_unique_hops_spec _ _ _ Hun Hplain) as (Hix & _).
  set (labs := Groupby.generic_groupby (hop_value_eq hop_eq)
                 (omap (fun e => e_data e !! "hop") es1)) in *.
  assert (Hlabs : length labs = length es1).
  { unfold labs. rewrite generic_groupby_length. by apply omap_length_all. }
  (* each edge of the mapper, with the edge of the first step it comes from *)
  assert (Hedge : forall i e, es' !! i = Some e ->
            exists e1 l, es1 !! i = Some e1 /\ labs !! i = Some l /\
              index_edge (set_data e1 (<["hop_label" := label_value l]> (e_data e1)))
                = Ok e).
  { intros i e He.
    destruct (Forall2_lookup_r _ _ _ _ _ Hix He) as (e2 & He2 & Hidx).
    unfold group_and_label_hops in He2. fold labs in He2.
    assert (Hi : (i < length es1)%nat).
    { apply lookup_lt_Some in He2. by rewrite set_hop_labels_length in He2. }
    destruct (lookup_lt_is_Some_2 es1 i Hi) as [e1 He1].
    destruct (set_hop_labels_lookup es1 labs i e1 Hhop Hlabs He1) as (l & Hl & He2').
    rewrite He2 in He2'. injection He2' as ->. by exists e1, l. }
  assert (Hsame : forall i e e1 l k,
            es1 !! i = Some e1 ->
            index_edge (set_data e1 (<["hop_label" := label_value l]> (e_data e1)))
              = Ok e ->
            k ∉ ["iindex"; "eindex"; "hop_distance"; "hop_label"]%string ->
            e_data e !! k = e_data e1 !! k).
  { intros i e e1 l k He1 Hidx Hk.
    destruct (index_edge_keys _ _ Hidx) as (_ & _ & Hother).
    rewrite Hother by keys_solver. simpl.
    rewrite lookup_insert_ne; [done|]. keys_solver. }
  split; [|split].
  - apply populate_edges_fixed. apply Forall_forall.
    intros e [i He]%list_elem_of_lookup.
    destruct (Hedge i e He) as (e1 & l & He1 & Hl & Hidx).
    destruct (Forall2_lookup_r _ _ _ _ _ H1 He1) as (e0 & He0 & Hpos).
    apply (get_pos_again only_sites symm e0 e1 e Hpos).
    + destruct (index_edge_spec _ _ Hidx) as (Hends & _). simpl in Hends.
      by injection Hends as -> -> _.
    + intros k Hk. apply (Hsame i e e1 l k He1 Hidx).
      repeat (apply elem_of_cons in Hk as [->|Hk]; [by apply (bool_decide_unpack _)|]).
      by apply elem_of_nil in Hk.
  - unfold group_and_label_hops.
    assert (Hhops : omap (fun e => e_data e !! "hop") es' =
                    omap (fun e => e_data e !! "hop") es1).
    { apply omap_ext_lookup. apply Forall2_same_length_lookup. split.
      - rewrite <- (Forall2_length _ _ _ Hix). unfold group_and_label_hops.
        by rewrite set_hop_labels_length.
      - intros i e e1' He He1'.
        destruct (Hedge i e He) as (e1 & l & He1 & Hl & Hidx).
        rewrite He1 in He1'. injection He1' as <-.
        apply (Hsame i e e1 l "hop"%string He1 Hidx). keys_solver. }
    rewrite Hhops. fold labs.
    apply set_hop_labels_fixed. apply Forall2_same_length_lookup. split.
    + rewrite Hlabs. rewrite <- (Forall2_length _ _ _ Hix).
      unfold group_and_label_hops. by rewrite set_hop_labels_length.
    + intros i e l' He Hl'.
      destruct (Hedge i e He) as (e1 & l & He1 & Hl & Hidx).
      rewrite Hl in Hl'. injection Hl' as <-.
      destruct (index_edge_spec _ _ Hidx) as (_ & Hlab & m & _ & Hh & _).
      simpl in Hlab. rewrite lookup_insert_eq in Hlab.
      split; [by rewrite Hh|done].
  - unfold _populate_unique_hops_dict in Hun |- *.
    destruct (index_edges (reverse (imap _ (group_and_label_hops hop_eq es1))))
      as [L|] eqn:HL; [|done]. simpl in Hun.
    destruct (collect_unique_hops L []) as [items|] eqn:Hcol; [|done].
    simpl in Hun. injection Hun as Hes' <-.
    pose proof (index_edges_enumeration _ _ HL) as Henum.
    rewrite Hes' in Henum. rewrite <- Henum.
    rewrite (index_edges_fixed L).
    + simpl. rewrite Hcol. simpl. by rewrite Hes'.
    + apply Forall_forall. intros [r e] Hin. simpl.
      apply index_edges_Forall2 in HL.
      apply list_elem_of_lookup in Hin as [j Hj].
      destruct (Forall2_lookup_r _ _ _ _ _ HL Hj) as ([r0 e2] & _ & _ & Hidx).
      simpl in Hidx. by eapply index_edge_again.
Qed.

End steps_again.

Lemma construction_steps_again_witness :
  exists self,
    __init__ Example.parse_specie Structure Example.analyze Example.symmetrize
      Example.from_sites Example.neighbours Example.make_hop
      Example.same_length Example.chain (VStr "Li") 10 (1 # 10) false None
    = Ok self /\
    group_and_label_hops Example.same_length (edges_of self) = edges_of self /\
    _populate_unique_hops_dict (edges_of self) = Ok (edges_of self, unique_hops self).
Proof.
  eexists.
  assert (H : __init__ Example.parse_specie Structure Example.analyze
                Example.symmetrize Example.from_sites Example.neighbours
                Example.make_hop Example.same_length Example.chain (VStr "Li")
                10 (1 # 10) false None = Ok _) by reflexivity.
  destruct (construction_steps_again _ _ _ _ _ _ _ _ _ _ _ _ _ _ H)
    as (specie & a & symm & only_sites & _ & _ & _ & _ & _ & Hlab & Hun).
  split; [exact H|]. split; [exact Hlab|exact Hun].
Defined.

(** ** The summary of a mapper *)

Lemma summary_hop_ends e :
  summary_hop e !! "iinddex" = Some (node_index (e_u e)) /\
  summary_hop e !! "einddex" = Some (node_index (e_v e)) /\
  summary_hop e !! "hop_label" = Some (or_none (e_data e) "hop_label").
Proof. done. Qed.

Lemma summary_unique_hop_ends d :
  summary_unique_hop d !! "iinddex" = Some (or_none d "iinddex") /\
  summary_unique_hop d !! "einddex" = Some (or_none d "einddex") /\
  summary_unique_hop d !! "hop_label" = Some (or_none d "hop_label").
Proof. done. Qed.

Section summary_proofs.
Variable A : Type.
Variable entry_attributes : ComputedEntryPath -> result A.
Variable sorted_by : (dict -> value) -> list dict -> result (list dict).
Variable get_el_sp : value -> result string.
Variable analyzer : Type.
Variable SpacegroupAnalyzer : Structure -> Q -> result analyzer.
Variable get_symmetrized_structure : analyzer -> result SymmetrizedStructure.
Variable Structure_from_sites :
  list PeriodicSite -> list (list Q) -> result Structure.
Variable with_local_env_strategy : Structure -> Q -> result graph.
Variable new_MigrationPath :
  PeriodicSite -> PeriodicSite -> SymmetrizedStructure -> result MigrationPath.
Variable hop_eq : MigrationPath -> MigrationPath -> bool.

(** [sorted] returns the items it is given, in some order. *)
Hypothesis sorted_permutation : forall key l l',
  sorted_by key l = Ok l' -> l' ≡ₚ l.

(** The neighbour search writes no key ["iinddex"] or ["einddex"]. *)
Hypothesis no_such_keys : forall only_sites cutoff g,
  with_local_env_strategy only_sites cutoff = Ok g ->
  Forall (fun e => e_data e !! "iinddex" = None /\ e_data e !! "einddex" = None)
         (edges g).

(** In the summary of a mapper that [__init__] has built, [hops] has one
    entry for each edge, with the end nodes of the edge under ["iinddex"]
    and ["einddex"]; [unique_hops] has one entry for each key of
    [self.unique_hops], and each of them holds [None] under ["iinddex"]
    and ["einddex"], although the edge it stands for carries its end
    nodes, under ["iindex"] and ["eindex"]. *)
Theorem get_summary_dict_indices structure migrating_specie max_path_length
    symprec name self s :
  __init__ get_el_sp analyzer SpacegroupAnalyzer get_symmetrized_structure
    Structure_from_sites with_local_env_strategy new_MigrationPath hop_eq
    structure migrating_specie max_path_length symprec false name
    = Ok (mapper self) ->
  get_summary_dict A entry_attributes sorted_by self = Ok s ->
  summary_hops s = summary_hop <$> edges_of (mapper self) /\
  (forall i e, edges_of (mapper self) !! i = Some e ->
     exists d, summary_hops s !! i = Some d /\
       d !! "iinddex" = Some (node_index (e_u e)) /\
       d !! "einddex" = Some (node_index (e_v e))) /\
  length (summary_unique_hops s) = length (unique_hops (mapper self)) /\
  forall d, d ∈ summary_unique_hops s ->
    d !! "iinddex" = Some VNone /\ d !! "einddex" = Some VNone /\
    exists k ref e,
      (k, ref) ∈ unique_hops (mapper self) /\
      edges_of (mapper self) !! ref = Some e /\
      d !! "hop_label" = Some (or_none (e_data e) "hop_label") /\
      e_data e !! "iindex" = Some (node_index (e_u e)) /\
      e_data e !! "eindex" = Some (node_index (e_v e)).
Proof.
  intros H Hrun. unfold get_summary_dict in Hrun.
  destruct (sorted_by _ _) as [uh'|] eqn:Hsort; [|done]. simpl in Hrun.
  destruct (entry_attributes self) as [attrs|]; [|done]. simpl in Hrun.
  injection Hrun as <-. simpl.
  apply sorted_permutation in Hsort.
  split; [done|]. split; [|split].
  - intros i e He. exists (summary_hop e).
    rewrite list_lookup_fmap, He. split; [done|].
    destruct (summary_hop_ends e) as (? & ? & _). done.
  - rewrite (Permutation_length Hsort). by rewrite length_fmap.
  - intros d Hd. rewrite Hsort in Hd.
    apply list_elem_of_fmap in Hd as ([k ref] & -> & Hin). simpl.
    destruct (constructed_edges _ _ _ _ _ _ _ _ _ _ _ _ _ _ H)
      as (specie & only_sites & g & hs & _ & _ & Hg & _ & Hlen & _ & Hall).
    assert (Hwf : exists e, edges_of (mapper self) !! ref = Some e).
    { destruct (constructed_representatives _ _ _ _ _ _ _ _ _ _ _ _ _ _ H k ref Hin)
        as (e & He & _). by exists e. }
    destruct Hwf as [e He].
    destruct (lookup_lt_is_Some_2 (edges g) ref) as [e0 He0].
    { rewrite <- Hlen. eapply lookup_lt_Some; eauto. }
    destruct (Hall ref e0 He0) as (e' & h & l & He' & _ & _ & _ & _ & Hdec).
    rewrite He in He'. injection He' as <-.
    destruct Hdec as (_ & i_site & v_site & t & h' & l' & Hdec).
    destruct Hdec as (_ & _ & _ & _ & _ & _ & _ & _ & _ & _ & Hii & Hei & _ & Hkeep).
    pose proof (proj1 (Forall_lookup _ _) (no_such_keys _ _ _ Hg) ref e0 He0)
      as [Hn1 Hn2].
    unfold hop_dict. rewrite He.
    destruct (summary_unique_hop_ends (e_data e)) as (-> & -> & ->).
    unfold or_none at 1 2.
    rewrite !Hkeep by (unfold constructor_keys; keys_solver).
    rewrite Hn1, Hn2. simpl. split; [done|]. split; [done|].
    exists k, ref, e. done.
Qed.

End summary_proofs.

Lemma insert_by_permutation key x l l' :
  Example.insert_by key x l = Ok l' -> l' ≡ₚ x :: l.
Proof.
  revert l'. induction l as [|y l IH]; intros l' H; simpl in H.
  - by injection H as <-.
  - destruct (key x), (key y); try done.
    destruct (_ <=? _)%Z; [by injection H as <-|].
    destruct (Example.insert_by key x l) as [r|]; [|done]. simpl in H.
    injection H as <-. rewrite (IH r eq_refl). apply Permutation_swap.
Qed.

Lemma sorted_by_permutation key l l' :
  Example.sorted_by key l = Ok l' -> l' ≡ₚ l.
Proof.
  revert l'. induction l as [|x l IH]; intros l' H; simpl in H.
  - by injection H as <-.
  - destruct (Example.sorted_by key l) as [r|]; [|done]. simpl in H.
    rewrite (insert_by_permutation _ _ _ _ H). by rewrite (IH r eq_refl).
Qed.

Lemma get_summary_dict_indices_witness :
  exists self s,
    __init__ Example.parse_specie Structure Example.analyze Example.symmetrize
      Example.from_sites Example.neighbours Example.make_hop
      Example.same_length Example.chain (VStr "Li") 10 (1 # 10) false None
    = Ok (mapper self) /\
    get_summary_dict unit (fun _ => Ok tt) Example.sorted_by self = Ok s /\
    length (summary_unique_hops s) = 2%nat /\
    forall d, d ∈ summary_unique_hops s ->
      d !! "iinddex" = Some VNone /\ d !! "einddex" = Some VNone.
Proof.
  eexists (mkEntryPath _ VNone), _. split; [reflexivity|].
  match goal with |- get_summary_dict _ _ _ ?x = _ /\ _ => set (self := x) end.
  split; [reflexivity|].
  match goal with |- length (summary_unique_hops ?x) = _ /\ _ => set (s := x) end.
  split; [reflexivity|].
  assert (H : __init__ Example.parse_specie Structure Example.analyze
                Example.symmetrize Example.from_sites Example.neighbours
                Example.make_hop Example.same_length Example.chain (VStr "Li")
                10 (1 # 10) false None = Ok (mapper self)) by reflexivity.
  assert (Hs : get_summary_dict unit (fun _ => Ok tt) Example.sorted_by self = Ok s)
    by reflexivity.
  destruct (get_summary_dict_indices unit (fun _ => Ok tt) Example.sorted_by
              _ _ _ _ _ Example.neighbours _ _
              sorted_by_permutation
              ltac:(intros only_sites cutoff g [= <-]; repeat constructor)
              _ _ _ _ _ self s H Hs) as (_ & _ & _ & Hall).
  intros d Hd. destruct (Hall d Hd) as (Hi & He & _). split; [exact Hi|exact He].
Defined.
